(** * Iconify Tools: the [IconSet] entry store, resolver and mutation API

    A shallow embedding of [src/@iconify/tools/src/icon-set/index.ts]:
    the entry store, [resolve], [remove], [rename], [setItem], the
    category index, the theme matcher and the relevant parts of [load],
    followed by the properties established about them. *)

From Stdlib Require Import ZArith Lia String Ascii List Sorted.
From stdpp Require Import base gmap sets list strings fin_maps.

Open Scope string_scope.
Open Scope list_scope.

(* ===================================================================== *)
(** * Part I: definitions                                                 *)
(* ===================================================================== *)

(** ** Plain JavaScript objects used as ordered dictionaries

    [entries], [prefixes], [suffixes] and the maps of an input document
    are objects created with [Object.create(null)] (or parsed JSON): they
    have no inherited keys, and [for ... in] / [Object.keys] enumerate
    array-index keys first, in ascending numeric order, then the other
    keys in creation order.  An object is the list of its own properties
    in enumeration order. *)

Module JsObject.

Definition t (A : Type) : Type := list (string * A).

Definition keys {A} (o : t A) : list string := map fst o.

(** [o[k]], [None] standing for [undefined]. *)
Fixpoint get {A} (k : string) (o : t A) : option A :=
  match o with
  | [] => None
  | (k', v) :: rest => if String.eqb k k' then Some v else get k rest
  end.

(** [delete o[k]]. *)
Fixpoint delete {A} (k : string) (o : t A) : t A :=
  match o with
  | [] => []
  | (k', v) :: rest =>
      if String.eqb k k' then delete k rest else (k', v) :: delete k rest
  end.

Definition digit_of (c : ascii) : option N :=
  let n := N_of_ascii c in
  if ((48 <=? n) && (n <=? 57))%N then Some (n - 48)%N else None.

Fixpoint digits_value (acc : N) (s : string) : option N :=
  match s with
  | EmptyString => Some acc
  | String c rest =>
      match digit_of c with
      | Some d => digits_value (acc * 10 + d)%N rest
      | None => None
      end
  end.

(** The array index a key denotes, if it is the canonical decimal
    numeral of an integer below [2^32 - 1]. *)
Definition array_index (s : string) : option N :=
  match s with
  | EmptyString => None
  | String c rest =>
      if Ascii.eqb c "0"%char && negb (String.eqb rest "") then None
      else match digits_value 0 s with
           | Some n => if (n <? 4294967295)%N then Some n else None
           | None => None
           end
  end.

Fixpoint replace {A} (k : string) (v : A) (o : t A) : t A :=
  match o with
  | [] => []
  | (k', v') :: rest =>
      if String.eqb k k' then (k', v) :: rest else (k', v') :: replace k v rest
  end.

(** Position of a new array-index key: before the first key that is
    not an array index or denotes a larger one. *)
Fixpoint insert_index {A} (n : N) (k : string) (v : A) (o : t A) : t A :=
  match o with
  | [] => [(k, v)]
  | (k', v') :: rest =>
      match array_index k' with
      | Some n' =>
          if (n <? n')%N then (k, v) :: o
          else (k', v') :: insert_index n k v rest
      | None => (k, v) :: o
      end
  end.

(** [o[k] = v]: an existing property keeps its place, a new one is
    created at the place the enumeration order gives it. *)
Definition set {A} (k : string) (v : A) (o : t A) : t A :=
  match get k o with
  | Some _ => replace k v o
  | None =>
      match array_index k with
      | Some n => insert_index n k v o
      | None => o ++ [(k, v)]
      end
  end.

(** Own keys are pairwise distinct. *)
Definition wf {A} (o : t A) : Prop := NoDup (keys o).

End JsObject.

(** ** Icon properties

    [CommonIconProps]: the optional dimensions ([left], [top], [width],
    [height]), transformations ([rotate], [hFlip], [vFlip]) and [hidden].
    Values are numbers or booleans.  A number is an IEEE 754 double:
    [VNum z] is the finite double whose value is the integer [z], for
    the integers that are doubles (the numbers taken here are the
    integers; the two zeros are one value, which no operation of the
    class tells apart), [VNaN] is NaN. *)

Inductive pvalue : Type :=
  | VNum (z : Z)
  | VNaN
  | VBool (b : bool).

#[global] Instance pvalue_eq_dec : EqDecision pvalue.
Proof. solve_decision. Defined.

(** JavaScript truthiness, as tested by [if (value)]. *)
Definition truthy (v : pvalue) : bool :=
  match v with
  | VNum z => negb (z =? 0)%Z
  | VNaN => false
  | VBool b => b
  end.

(** Numeric coercion applied by [+]; [None] is NaN. *)
Definition to_number (v : pvalue) : option Z :=
  match v with
  | VNum z => Some z
  | VNaN => None
  | VBool b => Some (if b then 1%Z else 0%Z)
  end.

(** The double nearest to the integer [n], ties going to the even
    significand, the exponent taken as unbounded: a double holds 53
    significant bits, so [n] is rounded to a multiple of
    [2 ^ (Z.log2 |n| - 52)] when it has more. *)
Definition double_round (n : Z) : Z :=
  let m := Z.abs n in
  let u := (2 ^ Z.max 0 (Z.log2 m - 52))%Z in
  let q := (m / u)%Z in
  let r := (m mod u)%Z in
  let q' := if (2 * r <? u)%Z then q
            else if (u <? 2 * r)%Z then (q + 1)%Z
            else if Z.even q then q else (q + 1)%Z in
  (Z.sgn n * (q' * u))%Z.

(** [a + b] on doubles of integer value: the exact sum, rounded; [None]
    is an infinity, the result when the rounded sum is beyond the largest
    double. *)
Definition double_sum (a b : Z) : option Z :=
  let s := double_round (a + b) in
  if (Z.abs s <? 2 ^ 1024)%Z then Some s else None.

(** [(cur + value) % 4]: the remainder has the sign of the sum and is
    exact on doubles; the remainder of NaN or of an infinity is NaN. *)
Definition rotate_sum (cur value : pvalue) : pvalue :=
  match to_number cur, to_number value with
  | Some a, Some b =>
      match double_sum a b with
      | Some s => VNum (Z.rem s 4)
      | None => VNaN
      end
  | _, _ => VNaN
  end.

Abbreviation props := (gmap string pvalue).

(** [props.hidden] used as a condition. *)
Definition is_hidden (p : props) : bool :=
  match p !! "hidden" with
  | Some v => truthy v
  | None => false
  end.

(** ** Entries *)

(** Categories are objects compared by identity: an icon holds
    references to them, modelled as addresses (natural numbers) into the
    heap of category objects. *)

Inductive IconSetIconEntry : Type :=
  | Icon (body : string) (iprops : props)
         (chars : gset string) (categories : gset nat)
  | Alias (parent : string) (chars : gset string)
  | Variation (parent : string) (vprops : props) (chars : gset string).

Abbreviation store := (JsObject.t IconSetIconEntry).

(** [item.parent] for the two kinds of entry that have one. *)
Definition entry_parent (e : IconSetIconEntry) : option string :=
  match e with
  | Icon _ _ _ _ => None
  | Alias p _ => Some p
  | Variation p _ _ => Some p
  end.

Definition set_parent (p : string) (e : IconSetIconEntry) : IconSetIconEntry :=
  match e with
  | Icon b ps cs cats => Icon b ps cs cats
  | Alias _ cs => Alias p cs
  | Variation _ ps cs => Variation p ps cs
  end.

(** [{body, ...props}] *)
Record ResolvedIconifyIcon : Type := mkResolved {
  r_body : string;
  r_props : props
}.

(** Maximum depth for looking for parent icons. *)
Definition maxIteration : nat := 6.

(** Result of a function run with a recursion budget: [OutOfFuel] is the
    budget running out, which is not a result of the program. *)
Inductive run (A : Type) : Type :=
  | Ret (a : A)
  | OutOfFuel.
Arguments Ret {A} a.
Arguments OutOfFuel {A}.

(** ** resolve *)

(** One turn of the loop [for (const key in item.props)] of [getIcon],
    on the resolved parent. *)
Definition merge_prop (attr : string) (value : pvalue) (parent : props) : props :=
  if truthy value then
    match parent !! attr with
    | None => <[attr := value]> parent
    | Some cur =>
        if String.eqb attr "rotate" then
          <[attr := rotate_sum cur value]> parent
        else if String.eqb attr "hFlip" || String.eqb attr "vFlip" then
          <[attr := VBool (negb (truthy cur))]> parent
        else
          <[attr := value]> parent
    end
  else parent.

Definition merge_props (vprops parent : props) : props :=
  map_fold merge_prop parent vprops.

Fixpoint getIcon (fuel : nat) (entries : store) (name : string) (iteration : nat)
  : run (option ResolvedIconifyIcon) :=
  match fuel with
  | O => OutOfFuel
  | S fuel' =>
      match JsObject.get name entries with
      | None => Ret None
      | Some item =>
          if (maxIteration <? iteration)%nat then Ret None
          else
            match item with
            | Icon body iprops _ _ => Ret (Some (mkResolved body iprops))
            | Alias parent _ => getIcon fuel' entries parent (S iteration)
            | Variation parent vprops _ =>
                match getIcon fuel' entries parent (S iteration) with
                | OutOfFuel => OutOfFuel
                | Ret None => Ret None
                | Ret (Some p) =>
                    Ret (Some (mkResolved (r_body p) (merge_props vprops (r_props p))))
                end
            end
      end
  end.

(** Recursion budget that [getIcon] and [del] never exhaust when started
    at iteration 0. *)
Definition enough_fuel : nat := S (S maxIteration).

(** [resolve(name)] with [full = false]. *)
Definition resolve (entries : store) (name : string) : option ResolvedIconifyIcon :=
  match getIcon enough_fuel entries name 0 with
  | Ret r => r
  | OutOfFuel => None
  end.

(** ** remove *)

(** The second argument of [remove]: [boolean | string]. *)
Inductive removeDependencies : Type :=
  | RDBool (b : bool)
  | RDName (newParent : string).

(** What the closure [del] reads and writes: the entries (whose [parent]
    fields it may rewrite) and the set [names]. *)
Record del_state : Type := mkDel {
  d_entries : store;
  d_names : gset string
}.

Definition is_none {A} (o : option A) : bool :=
  match o with
  | None => true
  | Some _ => false
  end.

(** The condition guarding the search for dependents:
    [removeDependencies === true ||
     (!iteration && typeof removeDependencies === 'string')]. *)
Definition looks_for_dependents (rd : removeDependencies) (iteration : nat) : bool :=
  match rd with
  | RDBool b => b
  | RDName _ => (iteration =? 0)%nat
  end.

(** The loop [for (const key in entries)] of [del], run for the keys
    [ks]; [again key s] is the nested call [del(key, iteration + 1)].
    The result [false] leaves the loop and [del]. *)
Fixpoint del_loop (again : string → del_state → run (bool * del_state))
    (rd : removeDependencies) (name : string) (ks : list string) (s : del_state)
  : run (bool * del_state) :=
  match ks with
  | [] => Ret (true, s)
  | key :: rest =>
      match JsObject.get key (d_entries s) with
      | None => del_loop again rd name rest s
      | Some item =>
          match entry_parent item with
          | None => del_loop again rd name rest s
          | Some p =>
              if String.eqb p name then
                match rd with
                | RDBool true =>
                    match again key s with
                    | OutOfFuel => OutOfFuel
                    | Ret (false, s') => Ret (false, s')
                    | Ret (true, s') => del_loop again rd name rest s'
                    end
                | RDName newParent =>
                    (* Change parent *)
                    del_loop again rd name rest
                      (mkDel (JsObject.replace key (set_parent newParent item)
                                (d_entries s))
                             (d_names s))
                | RDBool false =>
                    (* the loop is not entered with [false] *)
                    del_loop again rd name rest s
                end
              else del_loop again rd name rest s
          end
      end
  end.

Fixpoint del (fuel : nat) (rd : removeDependencies) (name : string) (iteration : nat)
    (s : del_state) : run (bool * del_state) :=
  match fuel with
  | O => OutOfFuel
  | S fuel' =>
      if is_none (JsObject.get name (d_entries s))
         || (maxIteration <? iteration)%nat
         || bool_decide (name ∈ d_names s)
      then
        (* Missing or loop is too deep *)
        Ret (false, s)
      else
        let s1 := mkDel (d_entries s) ({[name]} ∪ d_names s) in
        if looks_for_dependents rd iteration then
          (* Find icons that have this icon as parent *)
          del_loop (fun key s' => del fuel' rd key (S iteration) s')
                   rd name (JsObject.keys (d_entries s1)) s1
        else Ret (true, s1)
  end.

(** [names.forEach((name) => { delete entries[name]; })] *)
Definition delete_names (names : gset string) (entries : store) : store :=
  foldr JsObject.delete entries (elements names).

Definition remove (entries : store) (name : string) (rd : removeDependencies)
  : nat * store :=
  let start (names : gset string) :=
    match del enough_fuel rd name 0 (mkDel entries names) with
    | Ret (true, s) =>
        let names' :=
          match rd with
          | RDName newParent => d_names s ∖ {[newParent]}
          | RDBool _ => d_names s
          end in
        (size names', delete_names names' (d_entries s))
    | Ret (false, s) => (0%nat, d_entries s)
    | OutOfFuel => (0%nat, entries)
    end in
  match rd with
  | RDName newParent =>
      if String.eqb name newParent || is_none (JsObject.get newParent entries)
      then (0%nat, entries)
      else start {[newParent]}
  | RDBool _ => start ∅
  end.

(** ** rename *)

Definition reparent (oldName newName : string) (entries : store) : store :=
  map (fun '(key, item) =>
         match entry_parent item with
         | Some p => if String.eqb p oldName then (key, set_parent newName item)
                     else (key, item)
         | None => (key, item)
         end) entries.

Definition rename (entries : store) (oldName newName : string) : bool * store :=
  let continue (entries : store) :=
    match JsObject.get oldName entries with
    | None => (false, entries)
    | Some item =>
        (true, reparent oldName newName
                 (JsObject.delete oldName (JsObject.set newName item entries)))
    end in
  match JsObject.get newName entries with
  | Some _ =>
      let '(removed, entries') := remove entries newName (RDBool true) in
      if (removed =? 0)%nat then (false, entries') else continue entries'
  | None => continue entries
  end.

(** ** setItem and its wrappers *)

Definition setItem (entries : store) (name : string) (item : IconSetIconEntry)
  : bool * store :=
  match entry_parent item with
  | Some parent =>
      match JsObject.get parent entries with
      | None => (false, entries)
      | Some _ => (true, JsObject.set name item entries)
      end
  | None => (true, JsObject.set name item entries)
  end.

Definition setAlias (entries : store) (name parent : string) : bool * store :=
  setItem entries name (Alias parent ∅).

Definition setVariation (entries : store) (name parent : string) (p : props)
  : bool * store :=
  setItem entries name (Variation parent p ∅).

(** ** The icon set

    [IconCategory] objects are shared between [this.categories] and the
    [categories] sets of icons and are mutated in place ([count]), so
    they live in a heap; [this.categories] (a [Set], enumerated in
    insertion order) and the icons hold addresses.  The [info] block
    plays no part in the operations below and is left out. *)

Record IconCategory : Type := mkCategory {
  title : string;
  count : Z
}.

Record IconSet : Type := mkIconSet {
  prefix : string;
  entries : store;
  heap : gmap nat IconCategory;
  categories : list nat;
  prefixes : JsObject.t string;
  suffixes : JsObject.t string
}.

Definition with_entries (s : IconSet) (e : store) : IconSet :=
  mkIconSet (prefix s) e (heap s) (categories s) (prefixes s) (suffixes s).

Definition with_categories (s : IconSet) (h : gmap nat IconCategory) (c : list nat)
  : IconSet :=
  mkIconSet (prefix s) (entries s) h c (prefixes s) (suffixes s).

(** ** _filter

    The callback may update state of its caller (the buckets of
    [checkTheme]); that state is threaded through the loop. *)

Fixpoint filter_loop {S : Type} (all : store)
    (callback : string → IconSetIconEntry → option ResolvedIconifyIcon → S → bool * S)
    (todo : store) (st : S) : list string * S :=
  match todo with
  | [] => ([], st)
  | (key, item) :: rest =>
      match item with
      | Icon _ _ _ _ =>
          let '(keep, st1) := callback key item None st in
          let '(names, st2) := filter_loop all callback rest st1 in
          (if keep then key :: names else names, st2)
      | Alias _ _ | Variation _ _ _ =>
          (* Resolve alias to make sure parent icon is not hidden *)
          match resolve all key with
          | Some icon =>
              let '(keep, st1) := callback key item (Some icon) st in
              let '(names, st2) := filter_loop all callback rest st1 in
              (if keep then key :: names else names, st2)
          | None => filter_loop all callback rest st
          end
      end
  end.

Definition _filter {S : Type} (entries : store)
    (callback : string → IconSetIconEntry → option ResolvedIconifyIcon → S → bool * S)
    (st : S) : list string * S :=
  filter_loop entries callback entries st.

(** ** Category index *)

(** [Array.from(this.categories).find((item) => item.title === title)] *)
Fixpoint find_title (h : gmap nat IconCategory) (title0 : string) (cats : list nat)
  : option nat :=
  match cats with
  | [] => None
  | r :: rest =>
      match h !! r with
      | Some c => if String.eqb (title c) title0 then Some r else find_title h title0 rest
      | None => find_title h title0 rest
      end
  end.

Definition findCategory (s : IconSet) (title0 : string) (add : bool)
  : option nat * IconSet :=
  match find_title (heap s) title0 (categories s) with
  | Some r => (Some r, s)
  | None =>
      if add then
        let r := fresh (dom (heap s)) in
        (Some r, with_categories s (<[r := mkCategory title0 0]> (heap s))
                                   (categories s ++ [r]))
      else (None, s)
  end.

(** The callback of [listCategory]. *)
Definition in_category (r : nat) (_ : string) (item : IconSetIconEntry)
    (_ : option ResolvedIconifyIcon) (st : unit) : bool * unit :=
  match item with
  | Icon _ iprops _ cats => (negb (is_hidden iprops) && bool_decide (r ∈ cats), st)
  | _ => (false, st)
  end.

Definition set_count (n : Z) (c : IconCategory) : IconCategory :=
  mkCategory (title c) n.

(** [this.categories.delete(categoryItem)] *)
Definition set_delete (r : nat) (cats : list nat) : list nat :=
  List.filter (fun r' => negb (r' =? r)%nat) cats.

(** [listCategory(category)], [category] being a category object
    ([inl]) or a title ([inr]). *)
Definition listCategory (s : IconSet) (category : nat + string)
  : option (list string) * IconSet :=
  let categoryItem :=
    match category with
    | inl r => Some r
    | inr t => fst (findCategory s t false)
    end in
  match categoryItem with
  | None => (None, s)
  | Some r =>
      let icons := fst (_filter (entries s) (in_category r) tt) in
      let n := length icons in
      let h := alter (set_count (Z.of_nat n)) r (heap s) in
      if (n =? 0)%nat
      then (None, with_categories s h (set_delete r (categories s)))
      else (Some icons, with_categories s h (categories s))
  end.

Definition toggleCategory (s : IconSet) (iconName category : string) (add : bool)
  : bool * IconSet :=
  let item := JsObject.get iconName (entries s) in
  let '(categoryItem, s1) := findCategory s category add in
  match item, categoryItem with
  | Some (Icon body iprops chars cats), Some r =>
      if negb (Bool.eqb (bool_decide (r ∈ cats)) add) then
        let h := alter (fun c => set_count (count c + (if add then 1 else -1))%Z c) r
                       (heap s1) in
        let cats' := if add then {[r]} ∪ cats else cats ∖ {[r]} in
        (true, with_entries (with_categories s1 h (categories s1))
                 (JsObject.replace iconName (Icon body iprops chars cats') (entries s1)))
      else (false, s1)
  | _, _ => (false, s1)
  end.

(** ** Theme matcher *)

(** [s.slice(0, n)] and [s.slice(n)] for [0 <= n]. *)
Fixpoint str_take (n : nat) (s : string) : string :=
  match n, s with
  | S n', String c rest => String c (str_take n' rest)
  | _, _ => EmptyString
  end.

Fixpoint str_drop (n : nat) (s : string) : string :=
  match n, s with
  | S n', String _ rest => str_drop n' rest
  | _, _ => s
  end.

(** [s.slice(0 - n)] for [0 < n]: the last [n] characters, the whole
    string when it is shorter. *)
Definition str_last (n : nat) (s : string) : string :=
  str_drop (String.length s - n) s.

Record CheckThemeResult : Type := mkCheckTheme {
  valid : gmap string (list string);
  invalid : list string
}.

(** The test the loop of [checkTheme] makes for one key. *)
Definition theme_matches (isPrefix : bool) (name search : string) : bool :=
  if String.eqb search "" then true
  else
    let match_ := if isPrefix then (search ++ "-")%string else ("-" ++ search)%string in
    let len := String.length match_ in
    let test := if isPrefix then str_take len name else str_last len name in
    String.eqb test match_.

(** [for (let i = 0; i < keys.length; i++)]: the first key that matches. *)
Fixpoint first_match (isPrefix : bool) (name : string) (keys : list string)
  : option string :=
  match keys with
  | [] => None
  | search :: rest =>
      if theme_matches isPrefix name search then Some search
      else first_match isPrefix name rest
  end.

(** [item.type === 'alias' || item.props.hidden || icon?.hidden] *)
Definition not_visible (item : IconSetIconEntry) (icon : option ResolvedIconifyIcon)
  : bool :=
  match item with
  | Alias _ _ => true
  | Icon _ p _ _ | Variation _ p _ =>
      is_hidden p ||
      match icon with
      | Some r => is_hidden (r_props r)
      | None => false
      end
  end.

(** [results.valid[search].push(name)] *)
Definition push_valid (search name : string) (v : gmap string (list string))
  : gmap string (list string) :=
  match v !! search with
  | Some names => <[search := names ++ [name]]> v
  | None => v
  end.

(** The callback [checkTheme] passes to [_filter]. *)
Definition theme_callback (isPrefix : bool) (keys : list string)
    (name : string) (item : IconSetIconEntry) (icon : option ResolvedIconifyIcon)
    (v : gmap string (list string)) : bool * gmap string (list string) :=
  if not_visible item icon then (false, v)
  else
    match first_match isPrefix name keys with
    | Some search => (false, push_valid search name v)
    | None => (true, v)
    end.

Section Theme.

(** [String.prototype.localeCompare]: negative, zero or positive. *)
Variable localeCompare : string → string → Z.

(** The comparator of [sortThemeKeys]. *)
Definition compareThemeKeys (a b : string) : Z :=
  if (String.length a =? String.length b)%nat then localeCompare a b
  else (Z.of_nat (String.length b) - Z.of_nat (String.length a))%Z.

Fixpoint insert_key (a : string) (sorted : list string) : list string :=
  match sorted with
  | [] => [a]
  | b :: rest =>
      if (compareThemeKeys a b <=? 0)%Z then a :: sorted
      else b :: insert_key a rest
  end.

(** [keys.sort(...)].  [Array.prototype.sort] is stable, and on a
    consistent comparator every stable sort returns the same array;
    it is taken here to insert the keys one by one, from the last. *)
Definition sortThemeKeys (keys : list string) : list string :=
  foldr insert_key [] keys.

Definition checkTheme (s : IconSet) (isPrefix : bool) : CheckThemeResult :=
  let themes := if isPrefix then prefixes s else suffixes s in
  let keys := sortThemeKeys (JsObject.keys themes) in
  let valid0 : gmap string (list string) :=
    fold_left (fun v key => <[key := []]> v) keys ∅ in
  let '(names, v) := _filter (entries s) (theme_callback isPrefix keys) valid0 in
  mkCheckTheme v names.

End Theme.

(** ** load *)

(** The input document ([IconifyJSON]).  An absent optional field is
    [None]; [j_props] holds the optional default dimensions written at
    the top level of the document. *)

Record ExtendedIconifyIcon : Type := mkJsonIcon {
  i_body : string;
  i_props : props
}.

Record ExtendedIconifyAlias : Type := mkJsonAlias {
  a_parent : string;
  a_props : props
}.

Record LegacyIconifyTheme : Type := mkLegacyTheme {
  t_title : string;
  t_prefix : option string;
  t_suffix : option string
}.

Record IconifyJSON : Type := mkJson {
  j_prefix : string;
  j_props : props;
  j_icons : JsObject.t ExtendedIconifyIcon;
  j_aliases : option (JsObject.t ExtendedIconifyAlias);
  j_chars : option (JsObject.t string);
  j_categories : option (JsObject.t (list string));
  j_themes : option (JsObject.t LegacyIconifyTheme);
  j_prefixes : option (JsObject.t string);
  j_suffixes : option (JsObject.t string)
}.

(** [icon.chars.add(char)] *)
Definition add_char (char : string) (e : IconSetIconEntry) : IconSetIconEntry :=
  match e with
  | Icon b p cs cats => Icon b p ({[char]} ∪ cs) cats
  | Alias parent cs => Alias parent ({[char]} ∪ cs)
  | Variation parent p cs => Variation parent p ({[char]} ∪ cs)
  end.

Definition load_chars (chars : JsObject.t string) (entries : store) : store :=
  fold_left
    (fun entries '(char, name) =>
       match JsObject.get name entries with
       | Some icon => JsObject.replace name (add_char char icon) entries
       | None => entries
       end)
    chars entries.

(** The body of [data.categories[category].forEach(...)]. *)
Definition add_category (r : nat) (entries : store) (iconName : string) : store :=
  match JsObject.get iconName entries with
  | Some (Icon b p cs cats) => JsObject.replace iconName (Icon b p cs ({[r]} ∪ cats)) entries
  | _ => entries
  end.

(** One turn of [for (const category in data.categories)]. *)
Definition load_category (s : IconSet) (decl : string * list string) : IconSet :=
  let '(category, names) := decl in
  let r := fresh (dom (heap s)) in
  let entries' := fold_left (add_category r) names (entries s) in
  let s1 := with_entries
              (with_categories s (<[r := mkCategory category 0]> (heap s))
                                 (categories s ++ [r]))
              entries' in
  snd (listCategory s1 (inl r)).

Definition load_categories (decls : option (JsObject.t (list string))) (s : IconSet)
  : IconSet :=
  match decls with
  | Some ds => fold_left load_category ds s
  | None => s
  end.

(** Import of the legacy [themes] block into the two tables. *)
Definition import_theme (tables : JsObject.t string * JsObject.t string)
    (entry : string * LegacyIconifyTheme) : JsObject.t string * JsObject.t string :=
  let '(pre, suf) := tables in
  let item := snd entry in
  let pre' :=
    match t_prefix item with
    | Some p =>
        (* Prefix ending with '-' *)
        if String.eqb (str_last 1 p) "-"
        then JsObject.set (str_take (String.length p - 1) p) (t_title item) pre
        else pre
    | None => pre
    end in
  let suf' :=
    match t_suffix item with
    | Some x =>
        (* Suffix starting with '-' *)
        if String.eqb (str_take 1 x) "-"
        then JsObject.set (str_drop 1 x) (t_title item) suf
        else suf
    | None => suf
    end in
  (pre', suf').

Definition import_legacy (themes : option (JsObject.t LegacyIconifyTheme))
  : JsObject.t string * JsObject.t string :=
  match themes with
  | Some ts => fold_left import_theme ts ([], [])
  | None => ([], [])
  end.

(** The body of [themeKeys.forEach]: [current] is [this[prop]] as the
    legacy import left it, [items] is [data[prop]]. *)
Definition copy_theme (current : JsObject.t string) (items : option (JsObject.t string))
  : JsObject.t string :=
  match items with
  | Some its => fold_left (fun table '(key, v) => JsObject.set key v table) its []
  | None => current
  end.

Section Load.

(** [filterProps] and [defaultCommonProps] come from the module [./props],
    [defaultIconDimensions] from the package [@iconify/utils];
    [load] is parameterised by them. *)
Variable filterProps : props → props → bool → props.
Variable defaultIconDimensions : props.
Variable defaultCommonProps : props.

Definition load_icons (defaultProps : props) (icons : JsObject.t ExtendedIconifyIcon)
  : store :=
  fold_left
    (fun entries '(name, item) =>
       JsObject.set name
         (Icon (i_body item)
               (filterProps (i_props item ∪ defaultProps) defaultCommonProps true)
               ∅ ∅)
         entries)
    icons [].

Definition load_aliases (aliases : option (JsObject.t ExtendedIconifyAlias))
    (entries : store) : store :=
  match aliases with
  | None => entries
  | Some als =>
      fold_left
        (fun entries '(name, item) =>
           match JsObject.get name entries with
           | Some _ => entries (* identical alias and icon *)
           | None =>
               let p := filterProps (a_props item) defaultCommonProps false in
               if bool_decide (p = ∅)
               then JsObject.set name (Alias (a_parent item) ∅) entries
               else JsObject.set name (Variation (a_parent item) p ∅) entries
           end)
        als entries
  end.

Definition load (data : IconifyJSON) : IconSet :=
  let defaultProps := filterProps (j_props data) defaultIconDimensions true in
  let entries0 := load_icons defaultProps (j_icons data) in
  let entries1 := load_aliases (j_aliases data) entries0 in
  let entries2 :=
    match j_chars data with
    | Some chars => load_chars chars entries1
    | None => entries1
    end in
  let s := load_categories (j_categories data)
             (mkIconSet (j_prefix data) entries2 ∅ [] [] []) in
  let '(pre, suf) := import_legacy (j_themes data) in
  mkIconSet (prefix s) (entries s) (heap s) (categories s)
            (copy_theme pre (j_prefixes data))
            (copy_theme suf (j_suffixes data)).

End Load.

(** ** Definitions that follow the specification's wording

    They are compared below with the definitions taken from the code. *)

(** The merge of one overriding property as the specification words it:
    every property present on the variation is merged, whatever its
    value. *)
Definition spec_merge_prop (attr : string) (value : pvalue) (parent : props) : props :=
  match parent !! attr with
  | None => <[attr := value]> parent
  | Some cur =>
      if String.eqb attr "rotate" then
        <[attr := match to_number cur, to_number value with
                  | Some a, Some b => VNum ((a + b) `mod` 4)
                  | _, _ => VNaN
                  end]> parent
      else if String.eqb attr "hFlip" || String.eqb attr "vFlip" then
        <[attr := VBool (negb (truthy cur))]> parent
      else
        <[attr := value]> parent
  end.

Definition spec_merge_props (vprops parent : props) : props :=
  map_fold spec_merge_prop parent vprops.

(** [rotate] of a resolved icon. *)
Definition rotate_of (r : option ResolvedIconifyIcon) : option pvalue :=
  r ≫= fun icon => r_props icon !! "rotate".

(** ** Sample stores *)

Definition flipped_store : store :=
  [ ("x", Icon "<g/>" {[ "hFlip" := VBool true ]} ∅ ∅);
    ("v", Variation "x" {[ "hFlip" := VBool false ]} ∅) ].

Definition stacked_store : store :=
  [ ("x", Icon "<g/>" ∅ ∅ ∅);
    ("v1", Variation "x" {[ "rotate" := VNum 1 ]} ∅);
    ("v2", Variation "v1" {[ "rotate" := VNum 1 ]} ∅);
    ("v3", Variation "v2" {[ "rotate" := VNum 1 ]} ∅);
    ("v4", Variation "v3" {[ "rotate" := VNum 1 ]} ∅) ].

(** ** The reference chain *)

(** The name reached from [name] by following [n] [parent] references;
    [None] when the walk meets an icon or an unknown name before. *)
Fixpoint ancestor (st : store) (n : nat) (name : string) : option string :=
  match n with
  | O => Some name
  | S n' =>
      match JsObject.get name st with
      | Some item =>
          match entry_parent item with
          | Some p => ancestor st n' p
          | None => None
          end
      | None => None
      end
  end.

(** An alias whose parent is not in the store. *)
Definition dangling_store : store := [ ("a", Alias "gone" ∅) ].

(** The walk from [name], started at iteration [it], stops on an unknown
    name within the depth bound, or goes past the bound. *)
Definition walk_fails (st : store) (it : nat) (name : string) : Prop :=
  (∃ k m, (it + k ≤ maxIteration)%nat ∧ ancestor st k name = Some m ∧
          JsObject.get m st = None)
  ∨ (∃ m, ancestor st (S maxIteration - it) name = Some m).

(** The store with icon ["x"] after [setAlias("a", "x")],
    [setAlias("b", "a")] and [setAlias("a", "b")]. *)
Definition icon_x_store : store := [ ("x", Icon "<g/>" ∅ ∅ ∅) ].

Definition cyclic_store : store :=
  snd (setAlias (snd (setAlias (snd (setAlias icon_x_store "a" "x")) "b" "a")) "a" "b").

(** [k] is [name] or its parent chain leads to [name]. *)
Definition depends_on (st : store) (k name : string) : Prop :=
  ∃ d, ancestor st d k = Some name.

(** The parent chain of [k] leads, in one hop or more, to [name]. *)
Definition leads_to (st : store) (k name : string) : Prop :=
  ∃ d, ancestor st (S d) k = Some name.

(** Icon ["x"] under a chain of seven aliases, one hop more than the
    depth bound. *)
Definition deep_store : store :=
  [ ("x", Icon "<g/>" ∅ ∅ ∅);
    ("a1", Alias "x" ∅); ("a2", Alias "a1" ∅); ("a3", Alias "a2" ∅);
    ("a4", Alias "a3" ∅); ("a5", Alias "a4" ∅); ("a6", Alias "a5" ∅);
    ("a7", Alias "a6" ∅) ].

(** Icon ["x"] with an alias, a variation of the alias, and an
    unrelated icon. *)
Definition family_store : store :=
  [ ("x", Icon "<g/>" ∅ ∅ ∅);
    ("y", Icon "<path/>" ∅ ∅ ∅);
    ("a", Alias "x" ∅);
    ("v", Variation "a" {[ "rotate" := VNum 1 ]} ∅) ].

(** Two unrelated icons. *)
Definition two_icons : store :=
  [ ("x", Icon "<g/>" ∅ ∅ ∅); ("y", Icon "<path/>" ∅ ∅ ∅) ].

(** A document with a legacy theme of prefix ["a-"] and an explicit
    [prefixes] field that does not mention ["a"]. *)
Definition legacy_doc : IconifyJSON :=
  mkJson "demo" ∅ [] None None None
         (Some [ ("t", mkLegacyTheme "A" (Some "a-") None) ])
         (Some [ ("b", "B") ])
         None.

(** The state of [blankIconSet("demo")]: no entries, no categories, no
    themes. *)
Definition blank_set : IconSet := mkIconSet "demo" [] ∅ [] [] [].

(** One icon, in no category. *)
Definition one_icon_set : IconSet :=
  mkIconSet "demo" [ ("home", Icon "<g/>" ∅ ∅ ∅) ] ∅ [] [] [].

(** ** The entries [checkTheme] classifies *)

(** The entry reaches the key loop of the callback of [checkTheme]: it
    is an icon or a variation that resolves, and it is not hidden. *)
Definition theme_candidate (all : store) (kv : string * IconSetIconEntry) : bool :=
  match snd kv with
  | Icon _ _ _ _ => negb (not_visible (snd kv) None)
  | Alias _ _ => false
  | Variation _ _ _ =>
      match resolve all (fst kv) with
      | Some icon => negb (not_visible (snd kv) (Some icon))
      | None => false
      end
  end.

(** The candidate's first matching key is [k]. *)
Definition theme_matched (all : store) (isPrefix : bool) (keys : list string)
    (k : string) (kv : string * IconSetIconEntry) : bool :=
  theme_candidate all kv &&
  bool_decide (first_match isPrefix (fst kv) keys = Some k).

(** The candidate matches no key. *)
Definition theme_unmatched (all : store) (isPrefix : bool) (keys : list string)
    (kv : string * IconSetIconEntry) : bool :=
  theme_candidate all kv && is_none (first_match isPrefix (fst kv) keys).

(** A comparison of strings by character codes, as an instance of
    [localeCompare]. *)
Definition compare_codes (a b : string) : Z :=
  match String.compare a b with
  | Lt => (-1)%Z
  | Eq => 0%Z
  | Gt => 1%Z
  end.

(** The set of the specification's example: prefixes ["mdi"] and [""],
    icons ["mdi-home"] and ["home"]. *)
Definition themed_set : IconSet :=
  mkIconSet "demo"
    [ ("mdi-home", Icon "<g/>" ∅ ∅ ∅); ("home", Icon "<path/>" ∅ ∅ ∅) ]
    ∅ []
    [ ("", "Other"); ("mdi", "Material") ]
    [].

(** ** The members of a category *)

(** [icon.categories.add(item)] on any entry: only icons have the set. *)
Definition add_cat (r : nat) (e : IconSetIconEntry) : IconSetIconEntry :=
  match e with
  | Icon b p cs cats => Icon b p cs ({[r]} ∪ cats)
  | _ => e
  end.

Definition entry_categories (e : IconSetIconEntry) : gset nat :=
  match e with
  | Icon _ _ _ cats => cats
  | _ => ∅
  end.

(** The test of [listCategory] on one entry. *)
Definition visible_member (r : nat) (kv : string * IconSetIconEntry) : bool :=
  fst (in_category r (fst kv) (snd kv) None tt).

(** The names [listCategory] finds for the category at [r]. *)
Definition members (st : store) (r : nat) : list string :=
  map fst (List.filter (visible_member r) st).

(** [name] is an [Icon] entry that is not hidden. *)
Definition visible_icon (st : store) (name : string) : Prop :=
  ∃ b ps cs cats, JsObject.get name st = Some (Icon b ps cs cats) ∧ is_hidden ps = false.

(** ** Invariants of the category loop of [load] *)

(** Keys are distinct, and every category an icon or the index refers
    to is an object of the heap. *)
Definition categories_inv (s : IconSet) : Prop :=
  JsObject.wf (entries s) ∧
  (∀ k e, JsObject.get k (entries s) = Some e →
          entry_categories e ⊆ dom (heap s)) ∧
  (∀ r, r ∈ categories s → r ∈ dom (heap s)).

(** After the declarations [decls]: a category of the index has
    members, all listed by its declaration, and their number as count;
    a declaration that lists a visible icon has its category in the
    index; an icon listed by a declaration holds a category object with
    the declared title. *)
Definition categories_loaded (decls : list (string * list string)) (s : IconSet)
  : Prop :=
  (∀ r, r ∈ categories s →
        ∃ c names, heap s !! r = Some c ∧ (title c, names) ∈ decls ∧
                   count c = Z.of_nat (length (members (entries s) r)) ∧
                   members (entries s) r ≠ [] ∧
                   ∀ k, k ∈ members (entries s) r → k ∈ names) ∧
  (∀ t names name, (t, names) ∈ decls → name ∈ names →
                   visible_icon (entries s) name →
                   ∃ r c, r ∈ categories s ∧ heap s !! r = Some c ∧ title c = t) ∧
  (∀ t names name b ps cs cats,
     (t, names) ∈ decls → name ∈ names →
     JsObject.get name (entries s) = Some (Icon b ps cs cats) →
     ∃ r c, r ∈ cats ∧ heap s !! r = Some c ∧ title c = t).

(** Before the category loop of [load] no entry is in a category. *)
Definition uncategorised (st : store) : Prop :=
  JsObject.wf st ∧
  ∀ k e, JsObject.get k st = Some e → entry_categories e = ∅.

(** A document without icons that declares a category listing a name
    that is no entry. *)
Definition orphan_doc : IconifyJSON :=
  mkJson "demo" ∅ [] None None
         (Some [ ("Orphans", [ "ghost" ]) ])
         None None None.

(** ** list, count, exists *)

Inductive IconSetIconType : Type :=
  | TypeIcon
  | TypeVariation
  | TypeAlias.

#[global] Instance IconSetIconType_eq_dec : EqDecision IconSetIconType.
Proof. solve_decision. Defined.

(** [item.type] *)
Definition entry_type (e : IconSetIconEntry) : IconSetIconType :=
  match e with
  | Icon _ _ _ _ => TypeIcon
  | Alias _ _ => TypeAlias
  | Variation _ _ _ => TypeVariation
  end.

(** [list(types)]; the default of [types] is [default_list_types]. *)
Definition list_names (entries : store) (types : list IconSetIconType) : list string :=
  map fst
    (List.filter (fun kv => bool_decide (entry_type (snd kv) ∈ types)) entries).

Definition default_list_types : list IconSetIconType := [ TypeIcon; TypeVariation ].

(** The callback of [count]. *)
Definition counted (_ : string) (item : IconSetIconEntry)
    (icon : option ResolvedIconifyIcon) (st : unit) : bool * unit :=
  (negb (not_visible item icon), st).

Definition count_icons (entries : store) : nat :=
  length (fst (_filter entries counted tt)).

(** [exists(name)] *)
Definition exists_entry (entries : store) (name : string) : bool :=
  negb (is_none (JsObject.get name entries)).

(** ** Character map *)

(** [item.chars] *)
Definition entry_chars (e : IconSetIconEntry) : gset string :=
  match e with
  | Icon _ _ cs _ => cs
  | Alias _ cs => cs
  | Variation _ _ cs => cs
  end.

Definition set_chars (cs : gset string) (e : IconSetIconEntry) : IconSetIconEntry :=
  match e with
  | Icon b p _ cats => Icon b p cs cats
  | Alias parent _ => Alias parent cs
  | Variation parent p _ => Variation parent p cs
  end.

(** A result, or the [TypeError] JavaScript throws on reading a
    property of [undefined]. *)
Inductive thrown (A : Type) : Type :=
  | Returned (a : A)
  | TypeError.
Arguments Returned {A} a.
Arguments TypeError {A}.

(** [item.chars.forEach((char) => { chars[char] = name; })] *)
Definition assign_chars (name : string) (cs : gset string) (m : gmap string string)
  : gmap string string :=
  set_fold (fun char m => <[char := name]> m) m cs.

(** The loop of [chars] over [names]; [this.entries[name]] is
    [undefined] for an unknown name, and reading its [chars] throws. *)
Fixpoint chars_loop (entries : store) (names : list string) (m : gmap string string)
  : thrown (gmap string string) :=
  match names with
  | [] => Returned m
  | name :: rest =>
      match JsObject.get name entries with
      | Some item => chars_loop entries rest (assign_chars name (entry_chars item) m)
      | None => TypeError
      end
  end.

(** [chars(names)]; [None] is the call without argument. *)
Definition chars (entries : store) (names : option (list string))
  : thrown (gmap string string) :=
  match names with
  | Some ns => chars_loop entries ns ∅
  | None => chars_loop entries (JsObject.keys entries) ∅
  end.

(** [toggleCharacter(iconName, char, add)].  [item.chars] is updated in
    place; the entries are distinct objects, as [load], [setIcon],
    [setAlias], [setVariation] and [fromSVG] create them, so the update
    shows under [iconName] only. *)
Definition toggleCharacter (entries : store) (iconName char : string) (add : bool)
  : bool * store :=
  match JsObject.get iconName entries with
  | None => (false, entries)
  | Some item =>
      if negb (Bool.eqb (bool_decide (char ∈ entry_chars item)) add) then
        (true,
         JsObject.replace iconName
           (set_chars (if add then {[char]} ∪ entry_chars item
                       else entry_chars item ∖ {[char]}) item)
           entries)
      else (false, entries)
  end.

(** ** setIcon and fromSVG *)

(** What [fromSVG] reads of an [SVG] object: [svg.viewBox] and
    [svg.getBody()]. *)
Record SVG : Type := mkSVG {
  viewBox : props;
  getBody : string
}.

Section SetIcon.

(** [filterProps] and [defaultCommonProps] of the module [./props]. *)
Variable filterProps : props → props → bool → props.
Variable defaultCommonProps : props.

(** [setIcon(name, icon)], [icon] being [{body, ...props}]. *)
Definition setIcon (entries : store) (name : string) (icon : ResolvedIconifyIcon)
  : bool * store :=
  setItem entries name
    (Icon (r_body icon) (filterProps (r_props icon) defaultCommonProps true) ∅ ∅).

Definition fromSVG (entries : store) (name : string) (svg : SVG) : bool * store :=
  let props0 := viewBox svg in
  let body := getBody svg in
  match JsObject.get name entries with
  | Some (Icon _ _ cs cats) => setItem entries name (Icon body props0 cs cats)
  | Some (Variation _ _ cs) => setItem entries name (Icon body props0 cs ∅)
  | _ => setIcon entries name (mkResolved body props0)
  end.

End SetIcon.

(** ** Re-parenting *)

(** What [remove] with a new parent, and [rename], do to one entry:
    its [parent], when it is [name], becomes [newParent]. *)
Definition reparent_to (name newParent : string) (e : IconSetIconEntry)
  : IconSetIconEntry :=
  match entry_parent e with
  | Some p => if String.eqb p name then set_parent newParent e else e
  | None => e
  end.


(** The store [rename] builds once [newName] is free and [oldName] holds
    [item], and the name under which an entry is found in it. *)
Definition rekey (entries : store) (oldName newName : string)
    (item : IconSetIconEntry) : store :=
  reparent oldName newName
    (JsObject.delete oldName (JsObject.set newName item entries)).

Definition renamed_name (oldName newName n : string) : string :=
  if String.eqb n oldName then newName else n.


(** ** Reading the character map *)

(** [name] is an entry whose [chars] holds [char]. *)
Definition holds_char (entries : store) (char name : string) : bool :=
  match JsObject.get name entries with
  | Some item => bool_decide (char ∈ entry_chars item)
  | None => false
  end.

(** An entry without its characters and categories. *)
Definition entry_core (e : IconSetIconEntry) : IconSetIconEntry :=
  match e with
  | Icon b p _ _ => Icon b p ∅ ∅
  | Alias parent _ => Alias parent ∅
  | Variation parent p _ => Variation parent p ∅
  end.


(** ** Reading the legacy themes *)

(** The legacy theme gives the key [k] to the table of prefixes, or of
    suffixes. *)
Definition legacy_prefix_is (k : string) (entry : string * LegacyIconifyTheme) : bool :=
  bool_decide (t_prefix (snd entry) = Some (k ++ "-")%string).

Definition legacy_suffix_is (k : string) (entry : string * LegacyIconifyTheme) : bool :=
  bool_decide (t_suffix (snd entry) = Some ("-" ++ k)%string).


(** A document with one icon, an alias of it and a character map that
    names the icon and a name that is no entry. *)
Definition lettered_doc : IconifyJSON :=
  mkJson "demo" ∅
         [ ("home", mkJsonIcon "<g/>" ∅) ]
         (Some [ ("house", mkJsonAlias "home" ∅) ])
         (Some [ ("e001", "home"); ("e002", "ghost") ])
         None None None None.

(* ===================================================================== *)
(** * Part II: properties                                                 *)
(* ===================================================================== *)

(** ** Merging the properties of a variation *)

Section Merge.

Implicit Types (vprops parent : props) (attr : string).

(** What the loop over [item.props] leaves at one key. *)
Lemma merge_props_lookup vprops parent attr :
  merge_props vprops parent !! attr =
    match vprops !! attr with
    | Some v =>
        if truthy v then
          match parent !! attr with
          | None => Some v
          | Some cur =>
              if String.eqb attr "rotate" then
                Some (rotate_sum cur v)
              else if String.eqb attr "hFlip" || String.eqb attr "vFlip" then
                Some (VBool (negb (truthy cur)))
              else Some v
          end
        else parent !! attr
    | None => parent !! attr
    end.
Proof.
  unfold merge_props.
  apply (map_fold_weak_ind
           (fun (r : props) (m : props) =>
              r !! attr =
                match m !! attr with
                | Some v =>
                    if truthy v then
                      match parent !! attr with
                      | None => Some v
                      | Some cur =>
                          if String.eqb attr "rotate" then
                            Some (rotate_sum cur v)
                          else if String.eqb attr "hFlip" || String.eqb attr "vFlip" then
                            Some (VBool (negb (truthy cur)))
                          else Some v
                      end
                    else parent !! attr
                | None => parent !! attr
                end)).
  - by rewrite lookup_empty.
  - intros i x m r Hi IH.
    destruct (decide (i = attr)) as [->|Hne].
    + rewrite lookup_insert_eq. rewrite Hi in IH.
      unfold merge_prop. rewrite IH.
      destruct (truthy x); [|done].
      destruct (parent !! attr) as [cur|]; [|by rewrite lookup_insert_eq].
      destruct (String.eqb attr "rotate"); [by rewrite lookup_insert_eq|].
      destruct (String.eqb attr "hFlip" || String.eqb attr "vFlip");
        by rewrite lookup_insert_eq.
    + rewrite lookup_insert_ne by done. rewrite <- IH.
      unfold merge_prop.
      destruct (truthy x); [|done].
      destruct (r !! i) as [cur|]; [|by rewrite lookup_insert_ne].
      destruct (String.eqb i "rotate"); [by rewrite lookup_insert_ne|].
      destruct (String.eqb i "hFlip" || String.eqb i "vFlip");
        by rewrite lookup_insert_ne.
Qed.

End Merge.

(** ** resolve: unfolding lemmas *)

(** Side conditions on the iteration counter. *)
Ltac depth_ok := unfold enough_fuel, maxIteration in *; lia.

Lemma getIcon_missing fuel (st : store) name (it : nat) :
  JsObject.get name st = None → getIcon (S fuel) st name it = Ret None.
Proof. intros H. simpl. by rewrite H. Qed.

Lemma getIcon_too_deep fuel (st : store) name (it : nat) :
  (maxIteration < it)%nat → getIcon (S fuel) st name it = Ret None.
Proof.
  intros H. simpl. destruct (JsObject.get name st); [|done].
  by rewrite (proj2 (Nat.ltb_lt _ _) H).
Qed.

Lemma getIcon_icon fuel (st : store) name (it : nat) body ps cs cats :
  JsObject.get name st = Some (Icon body ps cs cats) → (it ≤ maxIteration)%nat →
  getIcon (S fuel) st name it = Ret (Some (mkResolved body ps)).
Proof.
  intros H Hit. simpl. rewrite H.
  by rewrite (proj2 (Nat.ltb_ge _ _) Hit).
Qed.

Lemma getIcon_alias fuel (st : store) name (it : nat) parent cs :
  JsObject.get name st = Some (Alias parent cs) → (it ≤ maxIteration)%nat →
  getIcon (S fuel) st name it = getIcon fuel st parent (S it).
Proof.
  intros H Hit. simpl. rewrite H.
  by rewrite (proj2 (Nat.ltb_ge _ _) Hit).
Qed.

Lemma getIcon_variation fuel (st : store) name (it : nat) parent vprops cs :
  JsObject.get name st = Some (Variation parent vprops cs) → (it ≤ maxIteration)%nat →
  getIcon (S fuel) st name it =
    match getIcon fuel st parent (S it) with
    | OutOfFuel => OutOfFuel
    | Ret None => Ret None
    | Ret (Some p) => Ret (Some (mkResolved (r_body p) (merge_props vprops (r_props p))))
    end.
Proof.
  intros H Hit. simpl. rewrite H.
  by rewrite (proj2 (Nat.ltb_ge _ _) Hit).
Qed.

(** [rotate] after merging a variation that adds a quarter turn. *)
Lemma rotate_after_quarter_turn (vprops parent : props) :
  vprops !! "rotate" = Some (VNum 1) →
  merge_props vprops parent !! "rotate" =
    match parent !! "rotate" with
    | None => Some (VNum 1)
    | Some cur => Some (rotate_sum cur (VNum 1))
    end.
Proof. intros H. rewrite merge_props_lookup, H. done. Qed.

(** A double holds every integer up to [2 ^ 53] in magnitude. *)
Lemma double_round_exact (n : Z) :
  (Z.abs n ≤ 2 ^ 53)%Z → double_round n = n.
Proof.
  intros Hn. unfold double_round.
  assert (Hcase : (Z.abs n < 2 ^ 53 ∨ Z.abs n = 2 ^ 53)%Z) by lia.
  destruct Hcase as [Hlt|Heq].
  - assert (Hlog : (Z.log2 (Z.abs n) - 52 ≤ 0)%Z).
    { destruct (decide (Z.abs n = 0%Z)) as [->|Hz]; [done|].
      assert (Z.log2 (Z.abs n) < 53)%Z by (apply Z.log2_lt_pow2; lia). lia. }
    rewrite Z.max_l by done. change (2 ^ 0)%Z with 1%Z.
    rewrite Z.mod_1_r, Z.div_1_r. cbn [Z.mul Z.ltb Z.compare].
    rewrite Z.mul_1_r. rewrite Z.mul_comm. apply Z.abs_sgn.
  - rewrite Heq. change (2 ^ 53)%Z with 9007199254740992%Z in *.
    replace n with (Z.sgn n * Z.abs n)%Z at 2 by (rewrite Z.mul_comm; apply Z.abs_sgn).
    rewrite Heq. reflexivity.
Qed.

(** Within that range [(cur + value) % 4] is the remainder of the sum. *)
Lemma rotate_sum_exact (cur value : pvalue) a b :
  to_number cur = Some a → to_number value = Some b →
  (Z.abs (a + b) ≤ 2 ^ 53)%Z →
  rotate_sum cur value = VNum (Z.rem (a + b) 4).
Proof.
  intros Ha Hb Hsum. unfold rotate_sum, double_sum. rewrite Ha, Hb.
  rewrite (double_round_exact _ Hsum).
  rewrite (proj2 (Z.ltb_lt _ _)); [done|].
  apply Z.le_lt_trans with (2 ^ 53)%Z; [done|].
  apply Z.pow_lt_mono_r; lia.
Qed.

(** C1 (as amended).  For a variation whose parent resolves one hop
    deeper, [resolve] keeps the parent's body and merges every overriding
    property whose value is truthy (a non-zero number, [true]): copied
    when the parent lacks it; otherwise [rotate] becomes
    [(parent + override) % 4] as doubles compute it, which is the
    remainder by 4 of the sum whenever the sum is at most [2 ^ 53] in
    magnitude, [hFlip] and [vFlip] become the negation of the parent's
    flag, any other property takes the override.  A property the
    variation lacks, or holds with a falsy value, is left as the parent
    has it.  Second part: over a base icon of rotation 0, variations
    stacked one on another, each adding rotation 1, resolve to rotation 2
    after two, 3 after three and 0 after four. *)
Theorem resolve_variation_merge :
  (∀ (st : store) name parent (vprops : props) chars p,
     JsObject.get name st = Some (Variation parent vprops chars) →
     getIcon (S maxIteration) st parent 1 = Ret (Some p) →
     ∃ r, resolve st name = Some r ∧ r_body r = r_body p ∧
       (∀ attr v, vprops !! attr = Some v → truthy v = true →
          (r_props p !! attr = None → r_props r !! attr = Some v) ∧
          (∀ cur, r_props p !! attr = Some cur →
             (attr = "rotate" →
              r_props r !! attr = Some (rotate_sum cur v) ∧
              ∀ a b, to_number cur = Some a → to_number v = Some b →
                     (Z.abs (a + b) ≤ 2 ^ 53)%Z →
                     r_props r !! attr = Some (VNum (Z.rem (a + b) 4))) ∧
             (attr = "hFlip" ∨ attr = "vFlip" →
              r_props r !! attr = Some (VBool (negb (truthy cur)))) ∧
             (attr ≠ "rotate" → attr ≠ "hFlip" → attr ≠ "vFlip" →
              r_props r !! attr = Some v))) ∧
       (∀ attr, (∀ v, vprops !! attr = Some v → truthy v = false) →
          r_props r !! attr = r_props p !! attr))
  ∧
  (∀ (st : store) x body (ps : props) cs cats n1 n2 n3 n4 (p1 p2 p3 p4 : props) c1 c2 c3 c4,
     JsObject.get x st = Some (Icon body ps cs cats) →
     ps !! "rotate" = None ∨ ps !! "rotate" = Some (VNum 0) →
     JsObject.get n1 st = Some (Variation x p1 c1) → p1 !! "rotate" = Some (VNum 1) →
     JsObject.get n2 st = Some (Variation n1 p2 c2) → p2 !! "rotate" = Some (VNum 1) →
     JsObject.get n3 st = Some (Variation n2 p3 c3) → p3 !! "rotate" = Some (VNum 1) →
     JsObject.get n4 st = Some (Variation n3 p4 c4) → p4 !! "rotate" = Some (VNum 1) →
     rotate_of (resolve st n2) = Some (VNum 2) ∧
     rotate_of (resolve st n3) = Some (VNum 3) ∧
     rotate_of (resolve st n4) = Some (VNum 0)).
Proof.
  split.
  - intros st name parent vprops chars p Hget Hpar.
    exists (mkResolved (r_body p) (merge_props vprops (r_props p))).
    split; [|split; [done|split]].
    + unfold resolve, enough_fuel.
      rewrite (getIcon_variation _ _ _ _ _ _ _ Hget) by depth_ok.
      by rewrite Hpar.
    + intros attr v Hv Ht. simpl. rewrite merge_props_lookup, Hv, Ht.
      split.
      * by intros ->.
      * intros cur ->. split; [|split].
        -- intros ->. cbn [String.eqb Ascii.eqb Bool.eqb]. split; [done|].
           intros a b Ha Hb Hsum. by rewrite (rotate_sum_exact cur v a b).
        -- intros [-> | ->]; done.
        -- intros H1 H2 H3.
           rewrite (proj2 (String.eqb_neq _ _) H1).
           rewrite (proj2 (String.eqb_neq _ _) H2).
           by rewrite (proj2 (String.eqb_neq _ _) H3).
    + intros attr Hfalsy. simpl. rewrite merge_props_lookup.
      destruct (vprops !! attr) as [v|] eqn:Hv; [|done].
      by rewrite (Hfalsy v eq_refl).
  - intros st x body ps cs cats n1 n2 n3 n4 p1 p2 p3 p4 c1 c2 c3 c4
      Hx Hrot H1 R1 H2 R2 H3 R3 H4 R4.
    assert (Hbase : ∀ fuel (it : nat), (it ≤ maxIteration)%nat →
              getIcon (S fuel) st x it = Ret (Some (mkResolved body ps)))
      by (intros; by eapply getIcon_icon).
    unfold resolve, enough_fuel, rotate_of.
    change (S (S maxIteration)) with 8%nat.
    repeat split.
    + rewrite (getIcon_variation _ _ _ _ _ _ _ H2) by depth_ok.
      rewrite (getIcon_variation _ _ _ _ _ _ _ H1) by depth_ok.
      rewrite Hbase by depth_ok. simpl.
      rewrite !rotate_after_quarter_turn by done.
      destruct Hrot as [-> | ->]; done.
    + rewrite (getIcon_variation _ _ _ _ _ _ _ H3) by depth_ok.
      rewrite (getIcon_variation _ _ _ _ _ _ _ H2) by depth_ok.
      rewrite (getIcon_variation _ _ _ _ _ _ _ H1) by depth_ok.
      rewrite Hbase by depth_ok. simpl.
      rewrite !rotate_after_quarter_turn by done.
      destruct Hrot as [-> | ->]; done.
    + rewrite (getIcon_variation _ _ _ _ _ _ _ H4) by depth_ok.
      rewrite (getIcon_variation _ _ _ _ _ _ _ H3) by depth_ok.
      rewrite (getIcon_variation _ _ _ _ _ _ _ H2) by depth_ok.
      rewrite (getIcon_variation _ _ _ _ _ _ _ H1) by depth_ok.
      rewrite Hbase by depth_ok. simpl.
      rewrite !rotate_after_quarter_turn by done.
      destruct Hrot as [-> | ->]; done.
Qed.

(** The theorem applied to [stacked_store]: the first variation, and the
    stack of four. *)
Lemma resolve_variation_merge_witness :
  (JsObject.get "v1" stacked_store = Some (Variation "x" {[ "rotate" := VNum 1 ]} ∅) ∧
   getIcon (S maxIteration) stacked_store "x" 1 = Ret (Some (mkResolved "<g/>" ∅)) ∧
   ∃ r, resolve stacked_store "v1" = Some r ∧ r_body r = "<g/>" ∧
        r_props r !! "rotate" = Some (VNum 1))
  ∧
  (JsObject.get "x" stacked_store = Some (Icon "<g/>" ∅ ∅ ∅) ∧
   rotate_of (resolve stacked_store "v2") = Some (VNum 2) ∧
   rotate_of (resolve stacked_store "v3") = Some (VNum 3) ∧
   rotate_of (resolve stacked_store "v4") = Some (VNum 0)).
Proof.
  split.
  - split; [reflexivity|]. split; [reflexivity|].
    destruct (proj1 resolve_variation_merge stacked_store "v1" "x"
                {[ "rotate" := VNum 1 ]} ∅ (mkResolved "<g/>" ∅)
                eq_refl eq_refl) as (r & Hr & Hb & Hm & _).
    exists r. split; [exact Hr|]. split; [exact Hb|].
    exact (proj1 (Hm "rotate" (VNum 1) eq_refl eq_refl) eq_refl).
  - split; [reflexivity|].
    exact (proj2 resolve_variation_merge stacked_store "x" "<g/>" ∅ ∅ ∅
             "v1" "v2" "v3" "v4"
             {[ "rotate" := VNum 1 ]} {[ "rotate" := VNum 1 ]}
             {[ "rotate" := VNum 1 ]} {[ "rotate" := VNum 1 ]} ∅ ∅ ∅ ∅
             eq_refl (or_introl eq_refl)
             eq_refl eq_refl eq_refl eq_refl eq_refl eq_refl eq_refl eq_refl).
Defined.

(** C1 as stated fails on a falsy override: the variation ["v"] holds
    [hFlip: false] over a parent with [hFlip: true]; by the stated rule
    the flag would be toggled to [false], and [resolve] leaves it [true]. *)
Lemma resolve_variation_merge_counterexample :
  JsObject.get "v" flipped_store
    = Some (Variation "x" {[ "hFlip" := VBool false ]} ∅) ∧
  r_props <$> resolve flipped_store "x" = Some {[ "hFlip" := VBool true ]} ∧
  (resolve flipped_store "v" ≫= fun r => r_props r !! "hFlip") = Some (VBool true) ∧
  spec_merge_props {[ "hFlip" := VBool false ]} {[ "hFlip" := VBool true ]} !! "hFlip"
    = Some (VBool false).
Proof. repeat split; vm_compute; reflexivity. Qed.

(** ** resolve: which names are not found *)

Section NotFound.

Variable st : store.

(** [getIcon] does not run out of budget. *)
Lemma getIcon_total fuel name (it : nat) :
  (1 ≤ fuel)%nat → (maxIteration + 2 ≤ fuel + it)%nat →
  ∃ r, getIcon fuel st name it = Ret r.
Proof.
  revert name it. induction fuel as [|fuel IH]; intros name it Hpos Hsum; [lia|].
  simpl. destruct (JsObject.get name st) as [item|]; [|by eexists].
  destruct (maxIteration <? it)%nat eqn:Hdeep; [by eexists|].
  apply Nat.ltb_ge in Hdeep.
  assert (Hrec : ∀ p, ∃ r, getIcon fuel st p (S it) = Ret r)
    by (intros p; apply IH; depth_ok).
  destruct item as [body ps cs cats | p cs | p vps cs]; [by eexists|apply Hrec|].
  destruct (Hrec p) as [[r|] ->]; by eexists.
Qed.

Lemma walk_fails_step (it : nat) name item p :
  (it ≤ maxIteration)%nat →
  JsObject.get name st = Some item → entry_parent item = Some p →
  walk_fails st it name ↔ walk_fails st (S it) p.
Proof.
  intros Hit Hget Hp. unfold walk_fails.
  replace (S maxIteration - it)%nat with (S (S maxIteration - S it))
    by depth_ok.
  split.
  - intros [(k & m & Hk & Ha & Hm) | (m & Ha)].
    + destruct k as [|k]; simpl in Ha.
      * injection Ha as <-. congruence.
      * rewrite Hget, Hp in Ha. left. exists k, m. split; [lia|done].
    + simpl in Ha. rewrite Hget, Hp in Ha. right. by exists m.
  - intros [(k & m & Hk & Ha & Hm) | (m & Ha)].
    + left. exists (S k), m. split; [lia|]. simpl. by rewrite Hget, Hp.
    + right. exists m. simpl. by rewrite Hget, Hp.
Qed.

Lemma getIcon_none_iff fuel name (it : nat) :
  (1 ≤ fuel)%nat → (maxIteration + 2 ≤ fuel + it)%nat →
  getIcon fuel st name it = Ret None ↔ walk_fails st it name.
Proof.
  revert name it. induction fuel as [|fuel IH]; intros name it Hpos Hsum; [lia|].
  destruct (JsObject.get name st) as [item|] eqn:Hget.
  - destruct (decide (maxIteration < it)%nat) as [Hdeep|Hok].
    + rewrite getIcon_too_deep by done. split; [intros _|done].
      right. exists name. by replace (S maxIteration - it)%nat with 0%nat by lia.
    + assert (Hit : (it ≤ maxIteration)%nat) by lia.
      destruct item as [body ps cs cats | p cs | p vps cs].
      * rewrite (getIcon_icon _ _ _ _ _ _ _ _ Hget Hit).
        split; [done|]. unfold walk_fails.
        destruct (S maxIteration - it)%nat as [|d] eqn:Hd; [lia|].
        intros [(k & m & Hk & Ha & Hm) | (m & Ha)].
        -- destruct k; simpl in Ha; [|by rewrite Hget in Ha].
           injection Ha as <-. congruence.
        -- simpl in Ha. by rewrite Hget in Ha.
      * rewrite (getIcon_alias _ _ _ _ _ _ Hget Hit).
        rewrite (walk_fails_step it name _ p Hit Hget eq_refl).
        apply IH; depth_ok.
      * rewrite (getIcon_variation _ _ _ _ _ _ _ Hget Hit).
        rewrite (walk_fails_step it name _ p Hit Hget eq_refl).
        rewrite <- IH by depth_ok.
        destruct (getIcon_total fuel p (S it)) as [[r|] ->]; try depth_ok; done.
  - rewrite getIcon_missing by done. split; [intros _|done].
    destruct (decide (it ≤ maxIteration)%nat).
    + left. exists 0%nat, name. split; [lia|done].
    + right. exists name. by replace (S maxIteration - it)%nat with 0%nat by lia.
Qed.

Lemma resolve_none_iff name :
  resolve st name = None ↔ walk_fails st 0 name.
Proof.
  unfold resolve. rewrite <- (getIcon_none_iff enough_fuel) by depth_ok.
  destruct (getIcon_total enough_fuel name 0) as [r ->]; try depth_ok.
  split; congruence.
Qed.

End NotFound.


(** C2 (as amended).  [resolve(name)] returns "not found" exactly when
    [name], or a name reached from it by following parent references
    within the depth bound, is unknown in the store, or the reference
    chain goes past the bound of 6 hops.  In particular an unknown name
    and a two-entry cycle are not found.  [resolve] always returns: there
    is no other failure. *)
Theorem resolve_not_found (st : store) (name : string) :
  (resolve st name = None ↔
     (∃ k m, (k ≤ maxIteration)%nat ∧ ancestor st k name = Some m ∧
             JsObject.get m st = None)
     ∨ (∃ m, ancestor st (S maxIteration) name = Some m))
  ∧ (JsObject.get name st = None → resolve st name = None)
  ∧ (∀ b item item',
       JsObject.get name st = Some item → entry_parent item = Some b →
       JsObject.get b st = Some item' → entry_parent item' = Some name →
       resolve st name = None)
  ∧ (∃ r, getIcon enough_fuel st name 0 = Ret r).
Proof.
  assert (Hiff := resolve_none_iff st name). unfold walk_fails in Hiff.
  rewrite Nat.sub_0_r in Hiff. simpl plus in Hiff.
  split; [exact Hiff|]. split; [|split].
  - intros Hget. apply Hiff. left. exists 0%nat, name. split; [lia|done].
  - intros b item item' H1 P1 H2 P2. apply Hiff. right. exists b.
    unfold maxIteration. simpl.
    repeat first [rewrite H1 | rewrite P1 | rewrite H2 | rewrite P2]. done.
  - apply getIcon_total; depth_ok.
Qed.

(** The theorem applied to [cyclic_store], where ["a"] and ["b"] are
    aliases of each other. *)
Lemma resolve_not_found_witness :
  JsObject.get "a" cyclic_store = Some (Alias "b" ∅) ∧
  JsObject.get "b" cyclic_store = Some (Alias "a" ∅) ∧
  resolve cyclic_store "a" = None.
Proof.
  split; [reflexivity|]. split; [reflexivity|].
  exact (proj1 (proj2 (proj2 (resolve_not_found cyclic_store "a")))
           "b" (Alias "b" ∅) (Alias "a" ∅) eq_refl eq_refl eq_refl eq_refl).
Defined.

(** C2 as stated fails on a dangling reference: ["a"] is known and its
    chain has a single hop, yet it is not found, its parent being
    unknown. *)
Lemma resolve_not_found_counterexample :
  resolve dangling_store "a" = None ∧
  JsObject.get "a" dangling_store = Some (Alias "gone" ∅) ∧
  ancestor dangling_store 1 "a" = Some "gone" ∧
  ancestor dangling_store 2 "a" = None.
Proof. repeat split; reflexivity. Qed.

(** ** Facts about objects *)

Section JsObjectFacts.

Context {A : Type}.
Implicit Types (o : JsObject.t A) (k : string) (v : A).

Lemma get_app_None o1 o2 k :
  JsObject.get k o1 = None → JsObject.get k (o1 ++ o2) = JsObject.get k o2.
Proof.
  induction o1 as [|[k' v'] o1 IH]; simpl; [done|].
  destruct (String.eqb k k'); [done|exact IH].
Qed.

Lemma get_replace_eq o k v :
  is_Some (JsObject.get k o) → JsObject.get k (JsObject.replace k v o) = Some v.
Proof.
  induction o as [|[k' v'] o IH]; simpl; [by intros [? ?]|].
  destruct (String.eqb k k') eqn:E; simpl; rewrite E; [done|exact IH].
Qed.

Lemma get_replace_ne o k k' v :
  k' ≠ k → JsObject.get k' (JsObject.replace k v o) = JsObject.get k' o.
Proof.
  intros Hne. induction o as [|[k0 v0] o IH]; simpl; [done|].
  destruct (String.eqb k k0) eqn:E; simpl.
  - apply String.eqb_eq in E as <-.
    by rewrite (proj2 (String.eqb_neq _ _) Hne).
  - by rewrite IH.
Qed.

Lemma keys_replace o k v : JsObject.keys (JsObject.replace k v o) = JsObject.keys o.
Proof.
  induction o as [|[k0 v0] o IH]; simpl; [done|].
  destruct (String.eqb k k0); simpl; [done|by f_equal].
Qed.

Lemma get_insert_index_eq o n k v :
  JsObject.get k o = None → JsObject.get k (JsObject.insert_index n k v o) = Some v.
Proof.
  induction o as [|[k' v'] o IH]; simpl.
  - by rewrite String.eqb_refl.
  - destruct (String.eqb k k') eqn:E; [done|]. intros Hget.
    destruct (JsObject.array_index k') as [n'|]; [destruct (n <? n')%N|]; simpl;
      rewrite ?String.eqb_refl, ?E; auto.
Qed.

Lemma get_insert_index_ne o n k k' v :
  k' ≠ k → JsObject.get k' (JsObject.insert_index n k v o) = JsObject.get k' o.
Proof.
  intros Hne. apply String.eqb_neq in Hne.
  induction o as [|[k0 v0] o IH]; simpl; [by rewrite Hne|].
  destruct (JsObject.array_index k0) as [n'|]; [destruct (n <? n')%N|]; simpl;
    rewrite ?Hne; try done.
  by rewrite IH.
Qed.

Lemma get_set_eq o k v : JsObject.get k (JsObject.set k v o) = Some v.
Proof.
  unfold JsObject.set. destruct (JsObject.get k o) eqn:Hget.
  - apply get_replace_eq. by rewrite Hget.
  - destruct (JsObject.array_index k).
    + by apply get_insert_index_eq.
    + rewrite get_app_None by done. simpl. by rewrite String.eqb_refl.
Qed.

Lemma get_app o1 o2 k :
  JsObject.get k (o1 ++ o2) =
    match JsObject.get k o1 with
    | Some v => Some v
    | None => JsObject.get k o2
    end.
Proof.
  induction o1 as [|[k' v'] o1 IH]; simpl; [done|].
  destruct (String.eqb k k'); [done|exact IH].
Qed.

Lemma get_set_ne o k k' v :
  k' ≠ k → JsObject.get k' (JsObject.set k v o) = JsObject.get k' o.
Proof.
  intros Hne. unfold JsObject.set. destruct (JsObject.get k o).
  - by apply get_replace_ne.
  - destruct (JsObject.array_index k).
    + by apply get_insert_index_ne.
    + rewrite get_app. destruct (JsObject.get k' o); [done|]. simpl.
      by rewrite (proj2 (String.eqb_neq _ _) Hne).
Qed.

Lemma get_Some_elem o k v : JsObject.get k o = Some v → (k, v) ∈ o.
Proof.
  induction o as [|[k' v'] o IH]; simpl; [done|].
  destruct (String.eqb k k') eqn:E.
  - intros [= ->]. apply String.eqb_eq in E as ->. left.
  - intros H. right. by apply IH.
Qed.

Lemma get_Some_key o k v : JsObject.get k o = Some v → k ∈ JsObject.keys o.
Proof.
  intros H. apply get_Some_elem in H. unfold JsObject.keys.
  apply list_elem_of_fmap. by exists (k, v).
Qed.

Lemma get_None_key o k : JsObject.get k o = None ↔ k ∉ JsObject.keys o.
Proof.
  induction o as [|[k' v'] o IH]; simpl.
  - split; [intros _; apply not_elem_of_nil|done].
  - rewrite not_elem_of_cons. destruct (String.eqb k k') eqn:E.
    + apply String.eqb_eq in E. split; [done|]. by intros [? _].
    + apply String.eqb_neq in E. rewrite IH. tauto.
Qed.

Lemma elem_get_wf o k v : JsObject.wf o → (k, v) ∈ o → JsObject.get k o = Some v.
Proof.
  unfold JsObject.wf. induction o as [|[k' v'] o IH]; simpl.
  - intros _ H. by apply elem_of_nil in H.
  - rewrite NoDup_cons. intros [Hnotin Hnd] Hin.
    apply elem_of_cons in Hin as [[= -> ->]|Hin].
    + by rewrite String.eqb_refl.
    + destruct (String.eqb k k') eqn:E; [|by apply IH].
      apply String.eqb_eq in E as ->. exfalso. apply Hnotin.
      apply list_elem_of_fmap. by exists (k', v).
Qed.

End JsObjectFacts.

(** ** setItem *)

(** C10.  The parent check of [setItem] only asks that the parent be a
    key of the store when the call is made, whatever that parent is or
    refers to: [setItem(name, item)] returns [true] exactly when [item]
    has no parent or its parent is a key, and then stores [item] under
    [name]; otherwise the store is unchanged.  So successful calls can
    build a cycle: on a store holding the icon ["x"],
    [setAlias("a", "x")], [setAlias("b", "a")] and [setAlias("a", "b")]
    all return [true], and afterwards neither ["a"] nor ["b"] resolves. *)
Theorem setAlias_cycle :
  (∀ (st : store) name item,
     (fst (setItem st name item) = true ↔
        match entry_parent item with
        | Some parent => is_Some (JsObject.get parent st)
        | None => True
        end) ∧
     (fst (setItem st name item) = true →
      JsObject.get name (snd (setItem st name item)) = Some item) ∧
     (fst (setItem st name item) = false → snd (setItem st name item) = st))
  ∧
  (let s1 := setAlias icon_x_store "a" "x" in
   let s2 := setAlias (snd s1) "b" "a" in
   let s3 := setAlias (snd s2) "a" "b" in
   fst s1 = true ∧ fst s2 = true ∧ fst s3 = true ∧
   JsObject.get "a" (snd s3) = Some (Alias "b" ∅) ∧
   JsObject.get "b" (snd s3) = Some (Alias "a" ∅) ∧
   resolve (snd s3) "a" = None ∧ resolve (snd s3) "b" = None).
Proof.
  split.
  - intros st name item. unfold setItem.
    destruct (entry_parent item) as [parent|].
    + destruct (JsObject.get parent st) as [e|] eqn:Hp; simpl.
      * split; [|split]; [|intros _; apply get_set_eq|done].
        split; [by eexists | done].
      * split; [|split]; [|done|done].
        split; [done|]. by intros [? ?].
    + simpl. split; [|split]; [done|intros _; apply get_set_eq|done].
  - repeat split; reflexivity.
Qed.

(** ** The reference chain *)

Section Chain.

Variable st : store.

Lemma ancestor_add a b k :
  ancestor st (a + b) k = ancestor st a k ≫= ancestor st b.
Proof.
  revert k. induction a as [|a IH]; intros k; simpl; [done|].
  destruct (JsObject.get k st) as [item|]; [|done].
  destruct (entry_parent item); [apply IH|done].
Qed.

Lemma ancestor_last d k n :
  ancestor st (S d) k = Some n ↔
  ∃ c, ancestor st d k = Some c ∧ ancestor st 1 c = Some n.
Proof.
  replace (S d) with (d + 1)%nat by lia. rewrite ancestor_add.
  destruct (ancestor st d k) as [c|]; simpl.
  - split; [by exists c|]. by intros (c' & [= <-] & H).
  - split; [done|]. by intros (c' & [=] & _).
Qed.

Lemma child_in_store c n : ancestor st 1 c = Some n → is_Some (JsObject.get c st).
Proof. simpl. destruct (JsObject.get c st); [by eexists|done]. Qed.

Lemma child_parent c n :
  ancestor st 1 c = Some n ↔
  ∃ item, JsObject.get c st = Some item ∧ entry_parent item = Some n.
Proof.
  simpl. destruct (JsObject.get c st) as [item|].
  - destruct (entry_parent item) eqn:E.
    + split; [intros [= <-]; by exists item|]. by intros (i & [= <-] & H); congruence.
    + split; [done|]. intros (i & [= <-] & H); congruence.
  - split; [done|]. by intros (i & [=] & _).
Qed.

Lemma depends_on_cases k n :
  depends_on st k n ↔
  k = n ∨ ∃ c, ancestor st 1 c = Some n ∧ depends_on st k c.
Proof.
  unfold depends_on. split.
  - intros [[|d] H].
    + left. by injection H.
    + right. apply ancestor_last in H as (c & H1 & H2). exists c. eauto.
  - intros [-> | (c & H1 & d & H2)].
    + by exists 0%nat.
    + exists (S d). apply ancestor_last. eauto.
Qed.

Lemma depends_on_leads_to k n :
  depends_on st k n ↔ k = n ∨ leads_to st k n.
Proof.
  unfold depends_on, leads_to. split.
  - intros [[|d] H]; [left; by injection H | right; by exists d].
  - intros [-> | [d H]]; [by exists 0%nat | by exists (S d)].
Qed.

End Chain.

(** ** remove with the cascading policy *)

Section Cascade.

Abbreviation cascade := (RDBool true).

(** The nested calls leave the entries alone. *)
Lemma del_loop_cascade_entries again name ks s b s' :
  (∀ key s0 b0 s0', again key s0 = Ret (b0, s0') → d_entries s0' = d_entries s0) →
  del_loop again cascade name ks s = Ret (b, s') →
  d_entries s' = d_entries s.
Proof.
  intros Hagain. revert s. induction ks as [|key rest IH]; intros s; simpl.
  - by intros [= _ <-].
  - destruct (JsObject.get key (d_entries s)) as [item|]; [|apply IH].
    destruct (entry_parent item) as [p|]; [|apply IH].
    destruct (String.eqb p name); [|apply IH].
    destruct (again key s) as [[[|] s1]|] eqn:Hcall; [| |done].
    + intros Hloop. rewrite (IH _ Hloop). by eapply Hagain.
    + intros [= _ <-]. by eapply Hagain.
Qed.

Lemma del_cascade_entries fuel name (it : nat) s b s' :
  del fuel cascade name it s = Ret (b, s') → d_entries s' = d_entries s.
Proof.
  revert name it s b s'. induction fuel as [|fuel IH]; intros name it s b s'; [done|].
  simpl. destruct (_ || _ || _); [by intros [= _ <-]|].
  intros Hloop. apply del_loop_cascade_entries in Hloop; [done|].
  intros key s0 b0 s0'. apply IH.
Qed.

(** [del] does not run out of budget, whatever the policy. *)
Lemma del_loop_total again rd name ks s :
  (∀ key s0, ∃ r, again key s0 = Ret r) →
  ∃ r, del_loop again rd name ks s = Ret r.
Proof.
  intros Hagain. revert s. induction ks as [|key rest IH]; intros s; simpl.
  - by eexists.
  - destruct (JsObject.get key (d_entries s)) as [item|]; [|apply IH].
    destruct (entry_parent item) as [p|]; [|apply IH].
    destruct (String.eqb p name); [|apply IH].
    destruct rd as [[|]|newParent]; [|apply IH|apply IH].
    destruct (Hagain key s) as [[[|] s1] ->]; [apply IH|by eexists].
Qed.

Lemma del_total fuel rd name (it : nat) s :
  (1 ≤ fuel)%nat → (maxIteration + 2 ≤ fuel + it)%nat →
  ∃ r, del fuel rd name it s = Ret r.
Proof.
  revert name it s. induction fuel as [|fuel IH]; intros name it s Hpos Hsum; [lia|].
  simpl. destruct (is_none _) eqn:Hget; simpl; [by eexists|].
  destruct (maxIteration <? it)%nat eqn:Hdeep; simpl; [by eexists|].
  destruct (bool_decide _); [by eexists|].
  apply Nat.ltb_ge in Hdeep.
  destruct (looks_for_dependents rd it); [|by eexists].
  apply del_loop_total. intros key s0. apply IH; depth_ok.
Qed.

(** Past the depth bound [del] returns [false] and leaves its state. *)
Lemma del_too_deep fuel rd name (it : nat) s :
  (maxIteration < it)%nat → del (S fuel) rd name it s = Ret (false, s).
Proof.
  intros Hdeep. simpl. rewrite (proj2 (Nat.ltb_lt _ _) Hdeep).
  by rewrite orb_true_r.
Qed.

Variable E : store.

(** What a successful run of the loop has visited, given what the
    nested calls visit. *)
Lemma del_loop_cascade_success again name (it : nat) ks s s' :
  (∀ key s0 b0 s0', again key s0 = Ret (b0, s0') → d_entries s0' = d_entries s0) →
  (∀ key s0 s0', d_entries s0 = E → again key s0 = Ret (true, s0') →
     (∀ k, k ∈ d_names s0' ↔ k ∈ d_names s0 ∨ depends_on E k key) ∧
     (∀ k d, ancestor E d k = Some key → (S it + d ≤ maxIteration)%nat)) →
  d_entries s = E →
  del_loop again cascade name ks s = Ret (true, s') →
  (∀ k, k ∈ d_names s' ↔
        k ∈ d_names s ∨ ∃ c, c ∈ ks ∧ ancestor E 1 c = Some name ∧ depends_on E k c) ∧
  (∀ c k d, c ∈ ks → ancestor E 1 c = Some name → ancestor E d k = Some c →
            (S it + d ≤ maxIteration)%nat).
Proof.
  intros Hent Hagain. revert s. induction ks as [|key rest IH]; intros s HE; simpl.
  - intros [= <-]. split.
    + intros k. split; [by left|]. intros [?|(c & Hc & _)]; [done|].
      by apply elem_of_nil in Hc.
    + intros c k d Hc. by apply elem_of_nil in Hc.
  - assert (Hskip : ancestor E 1 key ≠ Some name →
              del_loop again cascade name rest s = Ret (true, s') →
              (∀ k, k ∈ d_names s' ↔
                 k ∈ d_names s ∨
                 ∃ c, c ∈ key :: rest ∧ ancestor E 1 c = Some name ∧ depends_on E k c) ∧
              (∀ c k d, c ∈ key :: rest → ancestor E 1 c = Some name →
                 ancestor E d k = Some c → (S it + d ≤ maxIteration)%nat)).
    { intros Hnot Hloop. destruct (IH s HE Hloop) as [IH1 IH2]. split.
      - intros k. rewrite IH1. split.
        + intros [?|(c & Hc & H1 & H2)]; [by left|].
          right. exists c. split; [by right|done].
        + intros [?|(c & Hc & H1 & H2)]; [by left|].
          apply elem_of_cons in Hc as [->|Hc]; [done|].
          right. by exists c.
      - intros c k d Hc H1. apply elem_of_cons in Hc as [->|Hc]; [done|].
        by apply IH2. }
    rewrite HE.
    destruct (JsObject.get key E) as [item|] eqn:Hget;
      [|apply Hskip; simpl; by rewrite Hget].
    destruct (entry_parent item) as [p|] eqn:Hp;
      [|apply Hskip; simpl; by rewrite Hget, Hp].
    destruct (String.eqb p name) eqn:Heq.
    2:{ apply Hskip. simpl. rewrite Hget, Hp. intros [= ->].
        by rewrite String.eqb_refl in Heq. }
    apply String.eqb_eq in Heq as ->.
    assert (Hchild : ancestor E 1 key = Some name) by (simpl; by rewrite Hget, Hp).
    destruct (again key s) as [[[|] s1]|] eqn:Hcall; [|done|done].
    intros Hloop.
    assert (HE1 : d_entries s1 = E) by (rewrite <- HE; by eapply Hent).
    destruct (Hagain key s s1 HE Hcall) as [A1 A2].
    destruct (IH s1 HE1 Hloop) as [IH1 IH2]. split.
    + intros k. rewrite IH1, A1. split.
      * intros [[?|?]|(c & Hc & H1 & H2)]; [by left| |].
        -- right. exists key. split; [by left|done].
        -- right. exists c. split; [by right|done].
      * intros [?|(c & Hc & H1 & H2)]; [by left; left|].
        apply elem_of_cons in Hc as [->|Hc]; [by left; right|].
        right. by exists c.
    + intros c k d Hc H1 H2. apply elem_of_cons in Hc as [->|Hc].
      * by eapply A2.
      * by eapply IH2.
Qed.

(** A successful [del(name, it)] has added to [names] exactly [name]
    and the entries whose parent chain leads to it, none of them
    deeper than the bound allows. *)
Lemma del_cascade_success fuel name (it : nat) s s' :
  d_entries s = E →
  del fuel cascade name it s = Ret (true, s') →
  (∀ k, k ∈ d_names s' ↔ k ∈ d_names s ∨ depends_on E k name) ∧
  (∀ k d, ancestor E d k = Some name → (it + d ≤ maxIteration)%nat) ∧
  is_Some (JsObject.get name E).
Proof.
  revert name it s s'. induction fuel as [|fuel IH]; intros name it s s' HE; [done|].
  simpl. rewrite HE.
  destruct (JsObject.get name E) as [item|] eqn:Hget; simpl; [|done].
  destruct (maxIteration <? it)%nat eqn:Hdeep; simpl; [done|].
  destruct (bool_decide _); [done|].
  apply Nat.ltb_ge in Hdeep. intros Hloop.
  apply (del_loop_cascade_success _ name it) in Hloop as [L1 L2]; simpl; try done.
  - split; [|split; [|by eexists]].
    + intros k. rewrite L1, (depends_on_cases E k name). simpl. split.
      * intros [Hk|(c & _ & H1 & H2)].
        -- apply elem_of_union in Hk as [Hk|Hk]; [|by left].
           apply elem_of_singleton in Hk. right. by left.
        -- right. right. by exists c.
      * intros [?|[->|(c & H1 & H2)]].
        -- left. apply elem_of_union. by right.
        -- left. apply elem_of_union. left. by apply elem_of_singleton.
        -- right. exists c. split; [|done].
           destruct (child_in_store E c name H1) as [e He].
           by eapply get_Some_key.
    + intros k [|d] Hk; [lia|].
      apply ancestor_last in Hk as (c & H1 & H2).
      assert (S it + d ≤ maxIteration)%nat; [|lia].
      eapply L2; [|exact H2|exact H1].
      destruct (child_in_store E c name H2) as [e He].
      by eapply get_Some_key.
  - intros key s0 b0 s0'. apply del_cascade_entries.
  - intros key s0 s0' HE0 Hcall.
    destruct (IH key (S it) s0 s0' HE0 Hcall) as (I1 & I2 & _). done.
Qed.

End Cascade.

(** ** Deleting keys *)

Section DeleteFacts.

Context {A : Type}.
Implicit Types (o : JsObject.t A) (k : string) (l : list string).

Lemma get_delete_eq o k : JsObject.get k (JsObject.delete k o) = None.
Proof.
  induction o as [|[k' v'] o IH]; simpl; [done|].
  destruct (String.eqb k k') eqn:E; simpl; [done|by rewrite E].
Qed.

Lemma get_delete_ne o k k' :
  k' ≠ k → JsObject.get k' (JsObject.delete k o) = JsObject.get k' o.
Proof.
  intros Hne. induction o as [|[k0 v0] o IH]; simpl; [done|].
  destruct (String.eqb k k0) eqn:E; simpl.
  - apply String.eqb_eq in E as <-.
    by rewrite (proj2 (String.eqb_neq _ _) Hne).
  - by rewrite IH.
Qed.

Lemma delete_sublist o k : sublist (JsObject.delete k o) o.
Proof.
  induction o as [|[k' v'] o IH]; simpl; [done|].
  destruct (String.eqb k k'); by constructor.
Qed.

Lemma delete_absent o k : k ∉ JsObject.keys o → JsObject.delete k o = o.
Proof.
  induction o as [|[k' v'] o IH]; simpl; [done|].
  rewrite not_elem_of_cons. intros [Hne Hnotin].
  rewrite (proj2 (String.eqb_neq _ _) Hne). by rewrite IH.
Qed.

Lemma keys_sublist o1 o2 :
  sublist o1 o2 → sublist (JsObject.keys o1) (JsObject.keys o2).
Proof. induction 1; simpl; by constructor. Qed.

Lemma wf_sublist o1 o2 : sublist o1 o2 → JsObject.wf o2 → JsObject.wf o1.
Proof.
  unfold JsObject.wf. intros Hsub Hnd.
  eapply sublist_NoDup; [exact Hnd|by apply keys_sublist].
Qed.

Lemma wf_delete o k : JsObject.wf o → JsObject.wf (JsObject.delete k o).
Proof. apply wf_sublist, delete_sublist. Qed.

Lemma length_delete o k :
  JsObject.wf o → k ∈ JsObject.keys o →
  S (length (JsObject.delete k o)) = length o.
Proof.
  unfold JsObject.wf. induction o as [|[k' v'] o IH]; simpl.
  - intros _ H. by apply elem_of_nil in H.
  - rewrite NoDup_cons. intros [Hnotin Hnd] Hin.
    destruct (String.eqb k k') eqn:E.
    + apply String.eqb_eq in E as ->. by rewrite delete_absent.
    + apply String.eqb_neq in E. apply elem_of_cons in Hin as [?|Hin]; [done|].
      simpl. by rewrite IH.
Qed.

Lemma get_foldr_delete o l k :
  JsObject.get k (foldr JsObject.delete o l) =
    if decide (k ∈ l) then None else JsObject.get k o.
Proof.
  induction l as [|k' l IH]; simpl.
  - destruct (decide (k ∈ [])) as [H|]; [by apply elem_of_nil in H|done].
  - destruct (decide (k = k')) as [->|Hne].
    + rewrite get_delete_eq. destruct (decide (k' ∈ k' :: l)) as [|H]; [done|].
      exfalso. apply H. left.
    + rewrite get_delete_ne by done. rewrite IH.
      destruct (decide (k ∈ l)) as [Hl|Hl];
        destruct (decide (k ∈ k' :: l)) as [Hc|Hc]; try done.
      * exfalso. apply Hc. by right.
      * apply elem_of_cons in Hc as [?|?]; done.
Qed.

Lemma foldr_delete_sublist o l : sublist (foldr JsObject.delete o l) o.
Proof.
  induction l as [|k l IH]; simpl; [done|].
  etrans; [apply delete_sublist|exact IH].
Qed.

Lemma wf_foldr_delete o l : JsObject.wf o → JsObject.wf (foldr JsObject.delete o l).
Proof. intros H. induction l; simpl; [done|by apply wf_delete]. Qed.

Lemma length_foldr_delete o l :
  JsObject.wf o → NoDup l → (∀ k, k ∈ l → k ∈ JsObject.keys o) →
  (length l + length (foldr JsObject.delete o l) = length o)%nat.
Proof.
  intros Hwf. induction l as [|k l IH]; simpl; [done|].
  rewrite NoDup_cons. intros [Hnotin Hnd] Hin.
  rewrite <- IH; [|done|intros k' Hk'; apply Hin; by right].
  rewrite <- (length_delete (foldr JsObject.delete o l) k).
  - lia.
  - by apply wf_foldr_delete.
  - apply dec_stable. intros Hk. apply get_None_key in Hk.
    rewrite get_foldr_delete in Hk.
    destruct (decide (k ∈ l)); [done|].
    apply get_None_key in Hk. apply Hk, Hin. left.
Qed.

End DeleteFacts.

Lemma get_delete_names (names : gset string) (o : store) k :
  JsObject.get k (delete_names names o) =
    if decide (k ∈ names) then None else JsObject.get k o.
Proof.
  unfold delete_names. rewrite get_foldr_delete.
  destruct (decide (k ∈ elements names)) as [H|H];
    destruct (decide (k ∈ names)) as [H'|H']; try done.
  - by apply elem_of_elements in H.
  - by apply elem_of_elements in H'.
Qed.

Lemma length_delete_names (names : gset string) (o : store) :
  JsObject.wf o → (∀ k, k ∈ names → k ∈ JsObject.keys o) →
  (size names + length (delete_names names o) = length o)%nat.
Proof.
  intros Hwf Hin. unfold delete_names, size, set_size. simpl.
  apply length_foldr_delete; [done|apply NoDup_elements|].
  intros k Hk. apply Hin. by apply elem_of_elements.
Qed.

(** [remove(name, true)]: the run of [del] it rests on. *)
Lemma remove_cascade_run (st : store) name :
  (∃ s, del enough_fuel (RDBool true) name 0 (mkDel st ∅) = Ret (true, s) ∧
        d_entries s = st ∧
        remove st name (RDBool true) = (size (d_names s), delete_names (d_names s) st))
  ∨ (∃ s, del enough_fuel (RDBool true) name 0 (mkDel st ∅) = Ret (false, s) ∧
          remove st name (RDBool true) = (0%nat, st)).
Proof.
  destruct (del_total enough_fuel (RDBool true) name 0 (mkDel st ∅)) as [[b s] Hrun];
    try depth_ok.
  assert (He := del_cascade_entries _ _ _ _ _ _ Hrun). simpl in He.
  unfold remove. rewrite Hrun. destruct b; [left|right]; exists s.
  - by rewrite He.
  - by rewrite He.
Qed.

(** A run that removes nothing leaves the store as it was. *)
Lemma remove_cascade_zero (st : store) name :
  fst (remove st name (RDBool true)) = 0%nat →
  snd (remove st name (RDBool true)) = st.
Proof.
  destruct (remove_cascade_run st name) as [(s & _ & _ & Hr)|(s & _ & Hr)];
    rewrite Hr; cbn [fst snd]; [|done].
  intros Hsize. unfold delete_names.
  unfold size, set_size in Hsize. simpl in Hsize.
  by rewrite (nil_length_inv _ Hsize).
Qed.

(** C3.  A successful [remove(name, true)] (one that returns a non-zero
    count) deletes [name] and every entry whose parent chain leads to
    [name], and nothing else; the count it returns is the number of
    entries deleted; afterwards [resolve] reports each deleted entry as
    not found. *)
Theorem remove_cascade_deletes_dependents (st : store) name (n : nat) (st' : store) :
  JsObject.wf st →
  remove st name (RDBool true) = (n, st') →
  n ≠ 0%nat →
  is_Some (JsObject.get name st) ∧
  (∀ k, k = name ∨ leads_to st k name →
        is_Some (JsObject.get k st) ∧ JsObject.get k st' = None ∧
        resolve st' k = None) ∧
  (∀ k, ¬ (k = name ∨ leads_to st k name) → JsObject.get k st' = JsObject.get k st) ∧
  sublist st' st ∧
  (n + length st' = length st)%nat.
Proof.
  intros Hwf Hrem Hn.
  destruct (remove_cascade_run st name) as [(s & Hrun & He & Hr)|(s & _ & Hr)];
    rewrite Hr in Hrem; injection Hrem as <- <-; [|done].
  destruct (del_cascade_success st _ _ _ (mkDel st ∅) _ eq_refl Hrun) as (Hnames & _ & Hin).
  simpl in Hnames.
  assert (Hset : ∀ k, k ∈ d_names s ↔ k = name ∨ leads_to st k name).
  { intros k. rewrite Hnames, depends_on_leads_to. split; [|by right].
    intros [H|H]; [|done]. by apply not_elem_of_empty in H. }
  assert (Hstored : ∀ k, k ∈ d_names s → is_Some (JsObject.get k st)).
  { intros k Hk. apply Hset in Hk as [->|[d Hk]]; [done|].
    simpl in Hk. destruct (JsObject.get k st); [by eexists|done]. }
  split; [done|]. split; [|split; [|split]].
  - intros k Hk. apply Hset in Hk.
    assert (Hgone : JsObject.get k (delete_names (d_names s) st) = None).
    { rewrite get_delete_names. by destruct (decide (k ∈ d_names s)). }
    split; [by apply Hstored|]. split; [done|].
    unfold resolve, enough_fuel. by rewrite getIcon_missing.
  - intros k Hk. rewrite get_delete_names.
    destruct (decide (k ∈ d_names s)) as [Hin'|]; [|done].
    by apply Hset in Hin'.
  - apply foldr_delete_sublist.
  - apply length_delete_names; [done|].
    intros k Hk. destruct (Hstored k Hk) as [e He']. by eapply get_Some_key.
Qed.

(** The theorem applied to [family_store]: removing ["x"] deletes
    ["x"], its alias ["a"] and the variation ["v"] of the alias. *)
Lemma remove_cascade_deletes_dependents_witness :
  JsObject.wf family_store ∧
  remove family_store "x" (RDBool true) = (3%nat, [ ("y", Icon "<path/>" ∅ ∅ ∅) ]) ∧
  resolve [ ("y", Icon "<path/>" ∅ ∅ ∅) ] "v" = None.
Proof.
  assert (Hwf : JsObject.wf family_store).
  { apply (bool_decide_unpack _). vm_compute. exact I. }
  assert (Hrem : remove family_store "x" (RDBool true)
                 = (3%nat, [ ("y", Icon "<path/>" ∅ ∅ ∅) ])) by (vm_compute; reflexivity).
  split; [exact Hwf|]. split; [exact Hrem|].
  destruct (remove_cascade_deletes_dependents family_store "x" 3
              [ ("y", Icon "<path/>" ∅ ∅ ∅) ] Hwf Hrem ltac:(discriminate))
    as (_ & Hdel & _).
  apply (Hdel "v"). right. exists 1%nat. reflexivity.
Defined.

(** C4.  [remove(name, true)] is all-or-nothing: whenever it returns 0
    the store is unchanged, and it returns 0 whenever some entry lies one
    hop deeper below [name] than the depth bound allows.  The call of
    [del] that goes past the bound returns [false] with its state
    untouched, and no call of [del] changes the entries: they are
    deleted only once the whole walk has succeeded. *)
Theorem remove_cascade_all_or_nothing (st : store) name :
  (fst (remove st name (RDBool true)) = 0%nat →
   snd (remove st name (RDBool true)) = st) ∧
  (∀ k, ancestor st (S maxIteration) k = Some name →
        remove st name (RDBool true) = (0%nat, st)) ∧
  (∀ fuel key (it : nat) s,
     (maxIteration < it)%nat →
     del (S fuel) (RDBool true) key it s = Ret (false, s)) ∧
  (∀ fuel key (it : nat) s b s',
     del fuel (RDBool true) key it s = Ret (b, s') → d_entries s' = d_entries s).
Proof.
  assert (Hwalk :
    (∀ fuel key (it : nat) s,
       (maxIteration < it)%nat →
       del (S fuel) (RDBool true) key it s = Ret (false, s)) ∧
    (∀ fuel key (it : nat) s b s',
       del fuel (RDBool true) key it s = Ret (b, s') → d_entries s' = d_entries s)).
  { split.
    - intros fuel key it s. apply del_too_deep.
    - intros fuel key it s b s'. apply del_cascade_entries. }
  destruct (remove_cascade_run st name) as [(s & Hrun & He & Hr)|(s & _ & Hr)];
    rewrite Hr; cbn [fst snd]; [|done].
  destruct (del_cascade_success st _ _ _ (mkDel st ∅) _ eq_refl Hrun) as (_ & Hdepth & _).
  split; [|split; [|exact Hwalk]].
  - intros Hsize. assert (H := remove_cascade_zero st name).
    rewrite Hr in H. by apply H.
  - intros k Hk. apply Hdepth in Hk. depth_ok.
Qed.

(** The theorem applied to [deep_store]: ["a7"] lies seven hops below
    ["x"], and nothing is removed. *)
Lemma remove_cascade_all_or_nothing_witness :
  ancestor deep_store (S maxIteration) "a7" = Some "x" ∧
  remove deep_store "x" (RDBool true) = (0%nat, deep_store).
Proof.
  split; [reflexivity|].
  exact (proj1 (proj2 (remove_cascade_all_or_nothing deep_store "x")) "a7" eq_refl).
Defined.

(** ** rename *)

(** X22.  [rename(oldName, newName)] returns [false] exactly when
    [oldName] is unknown, or [newName] is occupied and either the
    cascading removal of its occupant fails or [oldName] is the occupant
    or one of its dependents.  When it returns [false] no entry has been
    re-keyed or re-parented: the entries left are entries of the
    original store, unchanged and in their order.  The store is
    unchanged when [newName] is free, and when the removal of the
    occupant fails; when that removal succeeds, the store is the one the
    removal left. *)
Theorem rename_failure (st : store) oldName newName :
  (fst (rename st oldName newName) = false ↔
     match JsObject.get newName st with
     | None => JsObject.get oldName st = None
     | Some _ =>
         fst (remove st newName (RDBool true)) = 0%nat ∨
         JsObject.get oldName st = None ∨ depends_on st oldName newName
     end) ∧
  (fst (rename st oldName newName) = false →
   sublist (snd (rename st oldName newName)) st ∧
   (JsObject.get newName st = None →
      snd (rename st oldName newName) = st ∧ JsObject.get oldName st = None) ∧
   (is_Some (JsObject.get newName st) →
    fst (remove st newName (RDBool true)) = 0%nat →
      snd (rename st oldName newName) = st) ∧
   (is_Some (JsObject.get newName st) →
    fst (remove st newName (RDBool true)) ≠ 0%nat →
      snd (rename st oldName newName) = snd (remove st newName (RDBool true)) ∧
      JsObject.get oldName (snd (rename st oldName newName)) = None)).
Proof.
  split.
  - unfold rename.
    destruct (JsObject.get newName st) as [occupant|] eqn:Hnew.
    + destruct (remove_cascade_run st newName) as [(s & Hrun & He & Hr)|(s & _ & Hr)];
        rewrite Hr; cbn [fst snd]; [|split; [by left|done]].
      destruct (del_cascade_success st _ _ _ (mkDel st ∅) _ eq_refl Hrun)
        as (Hnames & _ & _).
      cbn [d_names] in Hnames.
      assert (Hin : oldName ∈ d_names s ↔ depends_on st oldName newName).
      { rewrite Hnames. split; [|by right]. intros [H|H]; [|done].
        by apply not_elem_of_empty in H. }
      destruct (Nat.eqb_spec (size (d_names s)) 0) as [Hz|Hz];
        [split; [by left|done]|].
      pose proof (get_delete_names (d_names s) st oldName) as Hget.
      destruct (JsObject.get oldName (delete_names (d_names s) st)) as [item|] eqn:Hold;
        cbn [fst].
      * split; [done|]. intros [H|[H|H]]; [done| |].
        -- rewrite H in Hget. by destruct (decide (oldName ∈ d_names s)).
        -- apply Hin in H. by rewrite decide_True in Hget.
      * split; [|done]. intros _. right.
        destruct (decide (oldName ∈ d_names s)) as [H|H]; [right; by apply Hin|by left].
    + by destruct (JsObject.get oldName st).
  - unfold rename.
    destruct (JsObject.get newName st) as [occupant|] eqn:Hnew.
    + destruct (remove st newName (RDBool true)) as [removed st1] eqn:Hrem.
      assert (Hsub : sublist st1 st).
      { destruct (remove_cascade_run st newName) as [(s & _ & _ & Hr)|(s & _ & Hr)];
          rewrite Hr in Hrem; injection Hrem as <- <-; [apply foldr_delete_sublist|done]. }
      assert (Hzero : removed = 0%nat → st1 = st).
      { intros ->. assert (H := remove_cascade_zero st newName).
        rewrite Hrem in H. by apply H. }
      cbn [fst snd]. destruct (removed =? 0)%nat eqn:Hz.
      * apply Nat.eqb_eq in Hz. intros _. cbn [fst snd].
        split; [done|]. split; [done|]. split; [auto|]. intros _ Hne. done.
      * apply Nat.eqb_neq in Hz.
        destruct (JsObject.get oldName st1) eqn:Hold; [done|].
        intros _. cbn [fst snd]. split; [done|]. split; [done|]. split; [done|].
        done.
    + destruct (JsObject.get oldName st) eqn:Hold; [done|].
      intros _. cbn [fst snd]. split; [done|]. split; [done|].
      split; by intros [? ?].
Qed.

(** The theorem applied to the store [deep_store], where the removal of
    ["x"] fails. *)
Lemma rename_failure_witness :
  fst (rename deep_store "a7" "x") = false ∧
  fst (remove deep_store "x" (RDBool true)) = 0%nat ∧
  snd (rename deep_store "a7" "x") = deep_store.
Proof.
  split; [reflexivity|]. split; [reflexivity|].
  refine (proj1 (proj2 (proj2 (proj2 (rename_failure deep_store "a7" "x") eq_refl)))
            _ eq_refl).
  by eexists.
Defined.

(** C5.  [rename] is not atomic on failure.  With ["y"] occupied and
    ["missing"] unknown, [rename("missing", "y")] returns [false] after
    the cascading removal has deleted ["y"]; with the two names equal,
    [rename("x", "x")] returns [false] after that removal has deleted
    ["x"] and its dependents ["a"] and ["v"]. *)
Theorem rename_not_atomic :
  JsObject.get "missing" two_icons = None ∧
  JsObject.get "y" two_icons = Some (Icon "<path/>" ∅ ∅ ∅) ∧
  rename two_icons "missing" "y" = (false, [ ("x", Icon "<g/>" ∅ ∅ ∅) ]) ∧
  JsObject.keys family_store = [ "x"; "y"; "a"; "v" ] ∧
  rename family_store "x" "x" = (false, [ ("y", Icon "<path/>" ∅ ∅ ∅) ]).
Proof. repeat split; vm_compute; reflexivity. Qed.

(** ** load: the theme tables *)

Lemma get_copy_table (items acc : JsObject.t string) k :
  JsObject.wf items →
  JsObject.get k (fold_left (fun table '(key, v) => JsObject.set key v table) items acc) =
    match JsObject.get k items with
    | Some v => Some v
    | None => JsObject.get k acc
    end.
Proof.
  unfold JsObject.wf. revert acc.
  induction items as [|[k0 v0] items IH]; intros acc; simpl; [done|].
  rewrite NoDup_cons. intros [Hnotin Hnd]. rewrite IH by done.
  destruct (String.eqb k k0) eqn:E.
  - apply String.eqb_eq in E as ->.
    rewrite (proj2 (get_None_key items k0) Hnotin). apply get_set_eq.
  - apply String.eqb_neq in E. by rewrite get_set_ne.
Qed.

Section LoadThemes.

Variable filterProps : props → props → bool → props.
Variables defaultIconDimensions defaultCommonProps : props.

Abbreviation loaded :=
  (load filterProps defaultIconDimensions defaultCommonProps).

Lemma load_prefixes data :
  prefixes (loaded data) =
    copy_theme (fst (import_legacy (j_themes data))) (j_prefixes data).
Proof. unfold load. by destruct (import_legacy (j_themes data)). Qed.

Lemma load_suffixes data :
  suffixes (loaded data) =
    copy_theme (snd (import_legacy (j_themes data))) (j_suffixes data).
Proof. unfold load. by destruct (import_legacy (j_themes data)). Qed.

(** C6 (as amended).  During [load] the legacy [themes] block is
    imported first; an explicit [prefixes] (or [suffixes]) field then
    replaces the imported table: the resulting table holds the entries
    of the explicit field and no other.  The legacy-derived entries
    make up the table only when the explicit field is absent. *)
Theorem load_explicit_themes_replace data :
  (∀ items, j_prefixes data = Some items → JsObject.wf items →
     ∀ k, JsObject.get k (prefixes (loaded data)) = JsObject.get k items) ∧
  (∀ items, j_suffixes data = Some items → JsObject.wf items →
     ∀ k, JsObject.get k (suffixes (loaded data)) = JsObject.get k items) ∧
  (j_prefixes data = None →
     prefixes (loaded data) = fst (import_legacy (j_themes data))) ∧
  (j_suffixes data = None →
     suffixes (loaded data) = snd (import_legacy (j_themes data))).
Proof.
  rewrite load_prefixes, load_suffixes. repeat split.
  - intros items -> Hwf k. simpl. rewrite get_copy_table by done.
    by destruct (JsObject.get k items).
  - intros items -> Hwf k. simpl. rewrite get_copy_table by done.
    by destruct (JsObject.get k items).
  - by intros ->.
  - by intros ->.
Qed.

End LoadThemes.

(** The theorem applied to [legacy_doc], whatever the property filter:
    the legacy prefix ["a"] is not in the table, the explicit ["b"] is;
    the suffix table, with no explicit field, is the imported one. *)
Lemma load_explicit_themes_replace_witness :
  j_prefixes legacy_doc = Some [ ("b", "B") ] ∧
  JsObject.wf [ ("b", "B") ] ∧
  j_suffixes legacy_doc = None ∧
  ∀ fp dd dc,
    JsObject.get "a" (prefixes (load fp dd dc legacy_doc)) = None ∧
    JsObject.get "b" (prefixes (load fp dd dc legacy_doc)) = Some "B" ∧
    suffixes (load fp dd dc legacy_doc) = [].
Proof.
  assert (Hwf : JsObject.wf [ ("b", "B") ])
    by (apply (bool_decide_unpack _); vm_compute; exact I).
  split; [reflexivity|]. split; [exact Hwf|]. split; [reflexivity|].
  intros fp dd dc.
  destruct (load_explicit_themes_replace fp dd dc legacy_doc) as (Hp & _ & _ & Hs).
  split; [|split].
  - exact (Hp _ eq_refl Hwf "a").
  - exact (Hp _ eq_refl Hwf "b").
  - exact (Hs eq_refl).
Defined.

(** C6 as stated fails on [legacy_doc]: the legacy import yields the
    prefix ["a"], the explicit [prefixes] field does not mention ["a"],
    and ["a"] is not in the table after [load]. *)
Lemma load_explicit_themes_replace_counterexample :
  j_themes legacy_doc = Some [ ("t", mkLegacyTheme "A" (Some "a-") None) ] ∧
  j_prefixes legacy_doc = Some [ ("b", "B") ] ∧
  JsObject.get "a" (fst (import_legacy (j_themes legacy_doc))) = Some "A" ∧
  JsObject.get "a" [ ("b", "B") ] = None ∧
  ∀ fp dd dc,
    prefixes (load fp dd dc legacy_doc) = [ ("b", "B") ] ∧
    JsObject.get "a" (prefixes (load fp dd dc legacy_doc)) = None.
Proof. repeat split; reflexivity. Qed.

(** ** Category index *)

Lemma find_title_Some (h : gmap nat IconCategory) t cats r :
  find_title h t cats = Some r →
  r ∈ cats ∧ ∃ c, h !! r = Some c ∧ title c = t.
Proof.
  induction cats as [|r0 cats IH]; simpl; [done|].
  destruct (h !! r0) as [c|] eqn:Hc.
  - destruct (String.eqb (title c) t) eqn:E.
    + intros [= <-]. split; [left|]. exists c. split; [done|].
      by apply String.eqb_eq.
    + intros H. destruct (IH H) as [? ?]. split; [by right|done].
  - intros H. destruct (IH H) as [? ?]. split; [by right|done].
Qed.

Lemma find_title_None (h : gmap nat IconCategory) t cats :
  find_title h t cats = None ↔
  ∀ r c, r ∈ cats → h !! r = Some c → title c ≠ t.
Proof.
  induction cats as [|r0 cats IH]; simpl.
  - split; [|done]. intros _ r c Hr. by apply elem_of_nil in Hr.
  - destruct (h !! r0) as [c0|] eqn:Hc.
    + destruct (String.eqb (title c0) t) eqn:E.
      * split; [done|]. intros H. apply String.eqb_eq in E.
        exfalso. eapply (H r0 c0); [left|done|done].
      * apply String.eqb_neq in E. rewrite IH. split.
        -- intros H r c Hr Hh. apply elem_of_cons in Hr as [->|Hr]; [|by eapply H].
           by rewrite Hc in Hh; injection Hh as <-.
        -- intros H r c Hr. apply H. by right.
    + rewrite IH. split.
      * intros H r c Hr Hh. apply elem_of_cons in Hr as [->|Hr]; [|by eapply H].
        by rewrite Hc in Hh.
      * intros H r c Hr. apply H. by right.
Qed.

(** The category [findCategory] returns is a category object of the
    resulting state, with the title asked for. *)
Lemma findCategory_Some s t add r :
  fst (findCategory s t add) = Some r →
  ∃ c, heap (snd (findCategory s t add)) !! r = Some c ∧ title c = t.
Proof.
  unfold findCategory.
  destruct (find_title (heap s) t (categories s)) as [r0|] eqn:Hfind; simpl.
  - intros [= <-]. by destruct (find_title_Some _ _ _ _ Hfind) as [_ ?].
  - destruct add; simpl; [|done]. intros [= <-].
    exists (mkCategory t 0). by rewrite lookup_insert_eq.
Qed.

(** C8 (as amended).  [toggleCategory(iconName, title, add)] returns
    [true] exactly when the named entry is an [Icon], the category is
    found (or created, which happens only when [add] is true) and the
    icon's membership differs from the requested state; it then flips
    the membership and adjusts the category's count by +1 or -1.  When it
    returns [false] the entries and theme tables are unchanged, and the
    whole state is unchanged if [add] is false or a category with that
    title was registered; otherwise the state is the one [findCategory]
    leaves, with a new category of count 0 registered. *)
Theorem toggleCategory_effect (s : IconSet) iconName title0 (add : bool) :
  let result := toggleCategory s iconName title0 add in
  let found := findCategory s title0 add in
  (fst result = true ↔
     ∃ body ps cs cats r,
       JsObject.get iconName (entries s) = Some (Icon body ps cs cats) ∧
       fst found = Some r ∧ bool_decide (r ∈ cats) ≠ add) ∧
  (fst result = true →
     ∃ body ps cs cats r c,
       JsObject.get iconName (entries s) = Some (Icon body ps cs cats) ∧
       fst found = Some r ∧ heap (snd found) !! r = Some c ∧
       heap (snd result) !! r
         = Some (mkCategory (title c) (count c + (if add then 1 else -1))) ∧
       JsObject.get iconName (entries (snd result))
         = Some (Icon body ps cs (if add then {[r]} ∪ cats else cats ∖ {[r]})) ∧
       categories (snd result) = categories (snd found)) ∧
  (fst result = false →
     snd result = snd found ∧
     entries (snd result) = entries s ∧
     prefixes (snd result) = prefixes s ∧ suffixes (snd result) = suffixes s ∧
     (add = false ∨ is_Some (find_title (heap s) title0 (categories s)) →
      snd result = s) ∧
     (add = true → find_title (heap s) title0 (categories s) = None →
      heap (snd result) = <[fresh (dom (heap s)) := mkCategory title0 0]> (heap s) ∧
      categories (snd result) = categories s ++ [fresh (dom (heap s))])).
Proof.
  cbv zeta.
  set (found := findCategory s title0 add).
  assert (Hent : entries (snd found) = entries s).
  { unfold found, findCategory. destruct (find_title _ _ _); [done|]. by destruct add. }
  assert (Hsame : (add = false ∨ is_Some (find_title (heap s) title0 (categories s)) →
                   snd found = s) ∧
                  (add = true → find_title (heap s) title0 (categories s) = None →
                   heap (snd found)
                     = <[fresh (dom (heap s)) := mkCategory title0 0]> (heap s) ∧
                   categories (snd found) = categories s ++ [fresh (dom (heap s))]) ∧
                  prefixes (snd found) = prefixes s ∧
                  suffixes (snd found) = suffixes s).
  { unfold found, findCategory. destruct (find_title _ _ _) as [r0|]; simpl.
    - repeat split; done.
    - destruct add; simpl; repeat split; try done.
      all: by intros [?|[? ?]]. }
  destruct Hsame as (F1 & F2 & F3 & F4).
  assert (Hheap := findCategory_Some s title0 add). fold found in Hheap.
  assert (Hres : toggleCategory s iconName title0 add =
            match JsObject.get iconName (entries s), fst found with
            | Some (Icon body ps cs cats), Some r =>
                if negb (Bool.eqb (bool_decide (r ∈ cats)) add) then
                  (true,
                   with_entries
                     (with_categories (snd found)
                        (alter (fun c => set_count
                                  (count c + (if add then 1 else -1))%Z c) r
                               (heap (snd found)))
                        (categories (snd found)))
                     (JsObject.replace iconName
                        (Icon body ps cs (if add then {[r]} ∪ cats else cats ∖ {[r]}))
                        (entries (snd found))))
                else (false, snd found)
            | _, _ => (false, snd found)
            end).
  { unfold toggleCategory. fold found. by destruct found. }
  rewrite Hres. clear Hres.
  destruct (JsObject.get iconName (entries s)) as [[body ps cs cats|p cs|p vps cs]|]
    eqn:Hget.
  2,3,4: (cbn [fst snd]; split; [|split]; [|done|done];
          split; [done|]; by intros (?&?&?&?&?&?&_)).
  destruct (fst found) as [r|] eqn:Hr.
  2: (cbn [fst snd]; split; [|split]; [|done|done];
      split; [done|]; by intros (?&?&?&?&?&_&?&_)).
  destruct (Hheap r eq_refl) as (c & Hc & Ht).
  destruct (negb (Bool.eqb (bool_decide (r ∈ cats)) add)) eqn:Hdiff; cbn [fst snd].
  - apply negb_true_iff in Hdiff. apply (proj1 (Bool.eqb_false_iff _ _)) in Hdiff.
    split; [|split]; [| |done].
    + split; [intros _|done]. by exists body, ps, cs, cats, r.
    + intros _. exists body, ps, cs, cats, r, c.
      split; [reflexivity|]. split; [reflexivity|]. split; [exact Hc|].
      split; [|split; [|reflexivity]].
      * simpl. by rewrite lookup_alter_eq, Hc.
      * simpl. apply get_replace_eq. by rewrite Hent, Hget.
  - apply negb_false_iff in Hdiff. apply Bool.eqb_prop in Hdiff.
    split; [|split]; [|done|done].
    split; [done|]. intros (?&?&?&cats'&r'&Hi&Hr'&Hne).
    injection Hi as <- <- <- <-. injection Hr' as <-. destruct (Hne Hdiff).
Qed.

(** The theorem applied to [blank_set] with [add = false]: the call
    fails and the state is unchanged. *)
Lemma toggleCategory_effect_witness :
  fst (toggleCategory blank_set "nope" "New" false) = false ∧
  snd (toggleCategory blank_set "nope" "New" false) = blank_set.
Proof.
  split; [reflexivity|].
  destruct (toggleCategory_effect blank_set "nope" "New" false) as (_ & _ & Hfail).
  destruct (Hfail eq_refl) as (_ & _ & _ & _ & Hsame & _).
  exact (Hsame (or_introl eq_refl)).
Defined.

(** C8 as stated fails when [add] is true and the title is new: the
    entry ["nope"] is absent, the call returns [false], and a category
    ["New"] with count 0 has been registered in a state that had none. *)
Lemma toggleCategory_effect_counterexample :
  JsObject.get "nope" (entries blank_set) = None ∧
  categories blank_set = [] ∧
  fst (toggleCategory blank_set "nope" "New" true) = false ∧
  categories (snd (toggleCategory blank_set "nope" "New" true)) = [0%nat] ∧
  heap (snd (toggleCategory blank_set "nope" "New" true)) !! 0%nat
    = Some (mkCategory "New" 0).
Proof. repeat split; vm_compute; reflexivity. Qed.

(** ** Theme matcher: the order of the keys *)

Section SortThemeKeys.

Variable localeCompare : string → string → Z.

Abbreviation cmp := (compareThemeKeys localeCompare).
Abbreviation by_length := (fun a b : string => (String.length b ≤ String.length a)%nat).

Lemma insert_key_perm a l : insert_key localeCompare a l ≡ₚ a :: l.
Proof.
  induction l as [|b l IH]; simpl; [done|].
  destruct (cmp a b <=? 0)%Z; [done|].
  rewrite IH. apply Permutation_swap.
Qed.

Lemma sortThemeKeys_perm l : sortThemeKeys localeCompare l ≡ₚ l.
Proof.
  induction l as [|a l IH]; simpl; [done|].
  rewrite insert_key_perm. by rewrite IH.
Qed.





Hypothesis localeCompare_total :
  ∀ a b, (localeCompare a b ≤ 0)%Z ∨ (localeCompare b a ≤ 0)%Z.




End SortThemeKeys.


(** ** Theme matcher: matching a name against a key *)

Lemma str_app_cons (c : ascii) (a b : string) :
  (String c a ++ b)%string = String c (a ++ b)%string.
Proof. reflexivity. Qed.

Lemma str_app_nil_l (b : string) : ("" ++ b)%string = b.
Proof. reflexivity. Qed.

Lemma str_length_app (a b : string) :
  String.length (a ++ b)%string = (String.length a + String.length b)%nat.
Proof.
  induction a as [|c a IH]; [done|].
  rewrite str_app_cons. simpl. by rewrite IH.
Qed.

Lemma str_take_drop (n : nat) (s : string) : (str_take n s ++ str_drop n s)%string = s.
Proof.
  revert s. induction n as [|n IH]; intros [|c s]; simpl; try done.
  by rewrite str_app_cons, IH.
Qed.

Lemma str_take_app (a b : string) : str_take (String.length a) (a ++ b)%string = a.
Proof.
  induction a as [|c a IH]; [by destruct b|].
  rewrite str_app_cons. simpl. by rewrite IH.
Qed.

Lemma str_drop_app (a b : string) : str_drop (String.length a) (a ++ b)%string = b.
Proof.
  induction a as [|c a IH]; [by destruct b|].
  rewrite str_app_cons. simpl. exact IH.
Qed.





(** The key loop stops at the first key that matches. *)
Lemma first_match_Some isPrefix name keys k :
  first_match isPrefix name keys = Some k ↔
  ∃ l1 l2, keys = l1 ++ k :: l2 ∧ theme_matches isPrefix name k = true ∧
           ∀ k', k' ∈ l1 → theme_matches isPrefix name k' = false.
Proof.
  induction keys as [|k0 keys IH]; simpl.
  - split; [done|]. intros (l1 & l2 & H & _). by destruct l1.
  - destruct (theme_matches isPrefix name k0) eqn:E.
    + split.
      * intros [= <-]. exists [], keys. split; [done|]. split; [done|].
        intros k' Hk'. by apply elem_of_nil in Hk'.
      * intros ([|k1 l1] & l2 & H & Hm & Hl1); simpl in H.
        -- by injection H as <- _.
        -- injection H as <- _. rewrite (Hl1 k0) in E; [done|left].
    + rewrite IH. split.
      * intros (l1 & l2 & -> & Hm & Hl1). exists (k0 :: l1), l2.
        split; [done|]. split; [done|].
        intros k' Hk'. apply elem_of_cons in Hk' as [->|Hk']; [done|by apply Hl1].
      * intros ([|k1 l1] & l2 & H & Hm & Hl1); simpl in H.
        -- injection H as <- _. by rewrite Hm in E.
        -- injection H as <- ->. exists l1, l2. split; [done|]. split; [done|].
           intros k' Hk'. apply Hl1. by right.
Qed.


Lemma first_match_elem isPrefix name keys k :
  first_match isPrefix name keys = Some k → k ∈ keys.
Proof.
  intros H. apply first_match_Some in H as (l1 & l2 & -> & _).
  apply elem_of_app. right. left.
Qed.

(** ** Theme matcher: the buckets *)

Lemma push_valid_lookup search name (v : gmap string (list string)) k :
  push_valid search name v !! k =
    (fun names => if bool_decide (k = search) then names ++ [name] else names)
      <$> v !! k.
Proof.
  unfold push_valid. destruct (v !! search) as [names|] eqn:Hs.
  - destruct (decide (k = search)) as [->|Hne].
    + rewrite lookup_insert_eq, Hs. simpl. by rewrite bool_decide_eq_true_2.
    + rewrite lookup_insert_ne by done. rewrite bool_decide_eq_false_2 by done.
      by destruct (v !! k).
  - destruct (decide (k = search)) as [->|Hne].
    + by rewrite Hs.
    + rewrite bool_decide_eq_false_2 by done. by destruct (v !! k).
Qed.

Lemma filter_loop_theme (all : store) isPrefix keys (todo : store)
    (v0 : gmap string (list string)) :
  fst (filter_loop all (theme_callback isPrefix keys) todo v0)
    = map fst (List.filter (theme_unmatched all isPrefix keys) todo) ∧
  ∀ k, snd (filter_loop all (theme_callback isPrefix keys) todo v0) !! k
       = (fun names => names ++
            map fst (List.filter (theme_matched all isPrefix keys k) todo))
           <$> v0 !! k.
Proof.
  revert v0. induction todo as [|[key item] todo IH]; intros v0.
  - simpl. split; [done|]. intros k. destruct (v0 !! k); simpl; [|done].
    by rewrite app_nil_r.
  - assert (Hstep : ∀ icon,
              theme_candidate all (key, item) = negb (not_visible item icon) →
              (let '(keep, st1) := theme_callback isPrefix keys key item icon v0 in
               let '(names, st2) :=
                 filter_loop all (theme_callback isPrefix keys) todo st1 in
               (if keep then key :: names else names, st2)).1
                = map fst (List.filter (theme_unmatched all isPrefix keys)
                             ((key, item) :: todo)) ∧
              ∀ k,
                (let '(keep, st1) := theme_callback isPrefix keys key item icon v0 in
                 let '(names, st2) :=
                   filter_loop all (theme_callback isPrefix keys) todo st1 in
                 (if keep then key :: names else names, st2)).2 !! k
                = (fun names => names ++
                     map fst (List.filter (theme_matched all isPrefix keys k)
                                ((key, item) :: todo)))
                    <$> v0 !! k).
    { intros icon Hcand. unfold theme_callback.
      cbn [List.filter]. unfold theme_unmatched at 1, theme_matched at 1.
      rewrite Hcand. cbn [fst].
      destruct (not_visible item icon); cbn [negb andb].
      - destruct (IH v0) as [IH1 IH2].
        destruct (filter_loop all _ todo v0) as [names st2]. cbn [fst snd] in *.
        split; [done|]. intros k. apply IH2.
      - destruct (first_match isPrefix key keys) as [search|] eqn:Hfm; cbn [is_none].
        + destruct (IH (push_valid search key v0)) as [IH1 IH2].
          destruct (filter_loop all _ todo (push_valid search key v0)) as [names st2].
          cbn [fst snd] in *. split; [done|]. intros k.
          rewrite IH2, push_valid_lookup. destruct (v0 !! k) as [l0|]; simpl; [|done].
          destruct (decide (k = search)) as [->|Hne].
          * rewrite !bool_decide_eq_true_2 by done. simpl. by rewrite <- app_assoc.
          * rewrite bool_decide_eq_false_2 by done.
            rewrite bool_decide_eq_false_2 by congruence. done.
        + destruct (IH v0) as [IH1 IH2].
          destruct (filter_loop all _ todo v0) as [names st2]. cbn [fst snd] in *.
          split; [by rewrite IH1|]. intros k. rewrite IH2.
          destruct (v0 !! k) as [l0|]; simpl; [|done].
          done. }
    destruct item as [body ps cs cats|p cs|p vps cs].
    + apply (Hstep None). done.
    + simpl. destruct (resolve all key) as [icon|].
      * apply (Hstep (Some icon)). done.
      * unfold theme_unmatched at 1, theme_matched at 1. simpl.
        unfold theme_candidate. simpl. apply IH.
    + simpl. destruct (resolve all key) as [icon|] eqn:Hres.
      * apply (Hstep (Some icon)). unfold theme_candidate. simpl. by rewrite Hres.
      * assert (Hc : theme_candidate all (key, Variation p vps cs) = false)
          by (unfold theme_candidate; simpl; by rewrite Hres).
        unfold theme_unmatched at 1, theme_matched at 1. rewrite Hc. simpl.
        apply IH.
Qed.

(** The buckets [checkTheme] starts with: an empty one for each key. *)
Lemma empty_buckets_lookup keys (v : gmap string (list string)) k :
  fold_left (fun v key => <[key := []]> v) keys v !! k =
    if bool_decide (k ∈ keys) then Some [] else v !! k.
Proof.
  revert v. induction keys as [|k0 keys IH]; intros v; cbn [fold_left].
  - rewrite bool_decide_eq_false_2; [done|apply not_elem_of_nil].
  - rewrite IH. destruct (decide (k ∈ keys)) as [Hin|Hnotin].
    + rewrite !bool_decide_eq_true_2; [done|by right|done].
    + rewrite (bool_decide_eq_false_2 _ Hnotin).
      destruct (decide (k = k0)) as [->|Hne].
      * rewrite lookup_insert_eq. rewrite bool_decide_eq_true_2; [done|left].
      * rewrite lookup_insert_ne by done.
        rewrite bool_decide_eq_false_2; [done|].
        intros H. apply elem_of_cons in H as [?|?]; done.
Qed.

Lemma elem_of_map_filter {A} (f : string * A → bool) (l : list (string * A)) name :
  name ∈ map fst (List.filter f l) ↔ ∃ item, (name, item) ∈ l ∧ f (name, item) = true.
Proof.
  rewrite list_elem_of_In, in_map_iff. split.
  - intros ([n item] & <- & Hin). apply filter_In in Hin as [Hin Hf].
    exists item. split; [by apply list_elem_of_In|done].
  - intros (item & Hin & Hf). exists (name, item). split; [done|].
    apply filter_In. split; [by apply list_elem_of_In|done].
Qed.




(** ** Category index: the members of a category *)

Lemma filter_loop_in_category (all todo : store) r :
  fst (filter_loop all (in_category r) todo tt) = members todo r.
Proof.
  unfold members. induction todo as [|[key item] todo IH]; [done|].
  cbn [filter_loop List.filter]. unfold visible_member at 1. cbn [fst snd].
  destruct item as [body ps cs cats|p cs|p vps cs].
  - cbn [in_category fst].
    destruct (filter_loop all (in_category r) todo tt) as [names st2].
    cbn [fst] in IH. rewrite IH.
    by destruct (negb (is_hidden ps) && bool_decide (r ∈ cats)).
  - cbn [in_category fst]. destruct (resolve all key); [|done].
    destruct (filter_loop all (in_category r) todo tt) as [names st2]. done.
  - cbn [in_category fst]. destruct (resolve all key); [|done].
    destruct (filter_loop all (in_category r) todo tt) as [names st2]. done.
Qed.

Section Members.

Variable st : store.
Hypothesis st_wf : JsObject.wf st.

Lemma members_spec r name :
  name ∈ members st r ↔
  ∃ b ps cs cats, JsObject.get name st = Some (Icon b ps cs cats) ∧
                  is_hidden ps = false ∧ r ∈ cats.
Proof.
  unfold members. rewrite elem_of_map_filter. split.
  - intros (item & Hin & Hv). apply elem_get_wf in Hin; [|done].
    unfold visible_member in Hv. cbn [fst snd] in Hv.
    destruct item as [b ps cs cats|p cs|p vps cs]; [|done|done].
    cbn [in_category fst] in Hv. apply andb_true_iff in Hv as [Hh Hr].
    exists b, ps, cs, cats. split; [done|]. split.
    + by apply negb_true_iff.
    + by apply bool_decide_eq_true in Hr.
  - intros (b & ps & cs & cats & Hget & Hh & Hr).
    exists (Icon b ps cs cats). split; [by apply get_Some_elem|].
    unfold visible_member. cbn [fst snd in_category].
    rewrite Hh. cbn [negb andb]. by apply bool_decide_eq_true_2.
Qed.

Lemma members_NoDup r : NoDup (members st r).
Proof.
  unfold members. eapply sublist_NoDup; [exact st_wf|].
  apply keys_sublist. clear. induction st as [|kv l IH]; simpl; [done|].
  destruct (visible_member r kv); by constructor.
Qed.

End Members.

(** Two stores whose categories have the same members, name for name,
    count as many. *)
Lemma members_length (st st' : store) r r' :
  JsObject.wf st → JsObject.wf st' →
  (∀ k, k ∈ members st r ↔ k ∈ members st' r') →
  length (members st r) = length (members st' r').
Proof.
  intros Hwf Hwf' Hiff. apply Permutation_length.
  apply NoDup_Permutation; [by apply members_NoDup|by apply members_NoDup|done].
Qed.

(** ** Objects keep distinct keys *)

Section WfFacts.

Context {A : Type}.
Implicit Types (o : JsObject.t A) (k : string) (v : A).

Lemma wf_replace o k v : JsObject.wf o → JsObject.wf (JsObject.replace k v o).
Proof. unfold JsObject.wf. by rewrite keys_replace. Qed.

Lemma keys_insert_index o n k v :
  JsObject.keys (JsObject.insert_index n k v o) ≡ₚ k :: JsObject.keys o.
Proof.
  induction o as [|[k' v'] o IH]; simpl; [done|].
  destruct (JsObject.array_index k') as [n'|]; [destruct (n <? n')%N|]; simpl;
    try done.
  rewrite IH. apply Permutation_swap.
Qed.

Lemma wf_set o k v : JsObject.wf o → JsObject.wf (JsObject.set k v o).
Proof.
  unfold JsObject.set. destruct (JsObject.get k o) eqn:Hget; [apply wf_replace|].
  apply get_None_key in Hget. unfold JsObject.wf. intros Hnd.
  destruct (JsObject.array_index k).
  - rewrite keys_insert_index. by apply NoDup_cons.
  - unfold JsObject.keys. rewrite map_app. simpl.
    apply NoDup_app. split; [done|]. split.
    + intros x Hx Hin. apply list_elem_of_singleton in Hin as ->. done.
    + apply NoDup_singleton.
Qed.

Lemma get_set o k k' v :
  JsObject.get k' (JsObject.set k v o) =
    if String.eqb k' k then Some v else JsObject.get k' o.
Proof.
  destruct (String.eqb k' k) eqn:E.
  - apply String.eqb_eq in E as ->. apply get_set_eq.
  - apply String.eqb_neq in E. by apply get_set_ne.
Qed.

Lemma get_replace o k k' v :
  JsObject.get k' (JsObject.replace k v o) =
    if String.eqb k' k then (fun _ => v) <$> JsObject.get k' o
    else JsObject.get k' o.
Proof.
  destruct (String.eqb k' k) eqn:E.
  - apply String.eqb_eq in E as ->.
    destruct (JsObject.get k o) eqn:Hget.
    + apply get_replace_eq. by rewrite Hget.
    + simpl. apply get_None_key. rewrite keys_replace. by apply get_None_key.
  - apply String.eqb_neq in E. by apply get_replace_ne.
Qed.

End WfFacts.

(** ** load: the category loop *)

Lemma add_cat_idemp r e : add_cat r (add_cat r e) = add_cat r e.
Proof.
  destruct e as [b ps cs cats| |]; simpl; [|done|done].
  by rewrite (assoc_L (∪)), union_idemp_L.
Qed.

Lemma get_add_category r (st : store) name k :
  JsObject.get k (add_category r st name) =
    (if String.eqb k name then add_cat r else id) <$> JsObject.get k st.
Proof.
  unfold add_category.
  destruct (JsObject.get name st) as [[b ps cs cats|p cs|p vps cs]|] eqn:Hget.
  - rewrite get_replace. destruct (String.eqb k name) eqn:E.
    + apply String.eqb_eq in E as ->. by rewrite Hget.
    + by destruct (JsObject.get k st).
  - destruct (String.eqb k name) eqn:E.
    + apply String.eqb_eq in E as ->. by rewrite Hget.
    + by destruct (JsObject.get k st).
  - destruct (String.eqb k name) eqn:E.
    + apply String.eqb_eq in E as ->. by rewrite Hget.
    + by destruct (JsObject.get k st).
  - destruct (String.eqb k name) eqn:E.
    + apply String.eqb_eq in E as ->. by rewrite Hget.
    + by destruct (JsObject.get k st).
Qed.

Lemma keys_add_category r (st : store) name :
  JsObject.keys (add_category r st name) = JsObject.keys st.
Proof.
  unfold add_category.
  destruct (JsObject.get name st) as [[b ps cs cats|p cs|p vps cs]|]; try done.
  apply keys_replace.
Qed.

Lemma keys_fold_add_category r names (st : store) :
  JsObject.keys (fold_left (add_category r) names st) = JsObject.keys st.
Proof.
  revert st. induction names as [|n names IH]; intros st; simpl; [done|].
  by rewrite IH, keys_add_category.
Qed.

Lemma get_fold_add_category r names (st : store) k :
  JsObject.get k (fold_left (add_category r) names st) =
    (if bool_decide (k ∈ names) then add_cat r else id) <$> JsObject.get k st.
Proof.
  revert st. induction names as [|n names IH]; intros st; simpl.
  - by destruct (JsObject.get k st).
  - rewrite IH, get_add_category.
    destruct (String.eqb k n) eqn:E.
    + apply String.eqb_eq in E as ->.
      rewrite (bool_decide_eq_true_2 (n ∈ n :: names)) by left.
      destruct (JsObject.get n st) as [e|]; simpl; [|by destruct (bool_decide _)].
      destruct (bool_decide (n ∈ names)); simpl; [by rewrite add_cat_idemp|done].
    + apply String.eqb_neq in E.
      destruct (JsObject.get k st) as [e|]; simpl; [|by destruct (bool_decide _)].
      destruct (decide (k ∈ names)) as [Hin|Hnotin].
      * rewrite !bool_decide_eq_true_2; [done|by right|done].
      * rewrite !bool_decide_eq_false_2; [done| |done].
        intros H. apply elem_of_cons in H as [?|?]; done.
Qed.

(** The state after one declaration. *)
Lemma load_category_unfold s t names :
  let r := fresh (dom (heap s)) in
  let entries' := fold_left (add_category r) names (entries s) in
  let n := length (members entries' r) in
  load_category s (t, names) =
    mkIconSet (prefix s) entries'
      (alter (set_count (Z.of_nat n)) r (<[r := mkCategory t 0]> (heap s)))
      (if (n =? 0)%nat then set_delete r (categories s ++ [r])
       else categories s ++ [r])
      (prefixes s) (suffixes s).
Proof.
  cbv zeta. unfold load_category, listCategory, _filter. cbn [entries with_entries].
  rewrite filter_loop_in_category.
  by destruct (length _ =? 0)%nat.
Qed.

Lemma elem_of_set_delete r r0 cats :
  r0 ∈ set_delete r cats ↔ r0 ∈ cats ∧ r0 ≠ r.
Proof.
  unfold set_delete. rewrite list_elem_of_In, filter_In, <- list_elem_of_In.
  rewrite negb_true_iff, Nat.eqb_neq. done.
Qed.

Lemma members_nonempty (l : list string) : l ≠ [] ↔ ∃ k, k ∈ l.
Proof.
  destruct l as [|k l]; split; try done.
  - by intros [k Hk%elem_of_nil].
  - intros _. exists k. left.
Qed.

Lemma load_category_step decls s t names :
  categories_inv s → categories_loaded decls s →
  categories_inv (load_category s (t, names)) ∧
  categories_loaded (decls ++ [(t, names)]) (load_category s (t, names)).
Proof.
  intros (Hwf & Hrefs & Hidx) (Hkept & Hlisted & Hadded).
  rewrite load_category_unfold. cbv zeta.
  set (r := fresh (dom (heap s))).
  set (entries' := fold_left (add_category r) names (entries s)).
  set (n := length (members entries' r)).
  assert (Hfresh : r ∉ dom (heap s)) by apply is_fresh.
  assert (Hwf' : JsObject.wf entries')
    by (unfold JsObject.wf, entries'; by rewrite keys_fold_add_category).
  assert (Hget' : ∀ k, JsObject.get k entries' =
            (if bool_decide (k ∈ names) then add_cat r else id) <$>
              JsObject.get k (entries s))
    by (intros k; apply get_fold_add_category).
  (* icons, as the old and the new entries have them *)
  assert (Hicon' : ∀ k b ps cs cats',
            JsObject.get k entries' = Some (Icon b ps cs cats') ↔
            ∃ cats, JsObject.get k (entries s) = Some (Icon b ps cs cats) ∧
                    cats' = if bool_decide (k ∈ names) then {[r]} ∪ cats else cats).
  { intros k b ps cs cats'. rewrite Hget'.
    destruct (JsObject.get k (entries s)) as [[b0 ps0 cs0 cats0|p cs0|p vps cs0]|];
      simpl.
    - destruct (bool_decide (k ∈ names)); simpl.
      + split; [intros [= -> -> -> <-]; by eexists|].
        by intros (cats & [= -> -> -> ->] & ->).
      + split; [intros [= -> -> -> <-]; by eexists|].
        by intros (cats & [= -> -> -> ->] & ->).
    - split; [by destruct (bool_decide _)|]. by intros (? & [=] & _).
    - split; [by destruct (bool_decide _)|]. by intros (? & [=] & _).
    - split; [done|]. by intros (? & [=] & _). }
  assert (Hvis : ∀ k, visible_icon entries' k ↔ visible_icon (entries s) k).
  { intros k. unfold visible_icon. split.
    - intros (b & ps & cs & cats' & Hg & Hh). apply Hicon' in Hg as (cats & Hg & _).
      by exists b, ps, cs, cats.
    - intros (b & ps & cs & cats & Hg & Hh).
      exists b, ps, cs, (if bool_decide (k ∈ names) then {[r]} ∪ cats else cats).
      split; [|done]. apply Hicon'. by exists cats. }
  (* members of the categories already there *)
  assert (Hold : ∀ r0 k, r0 ≠ r →
            k ∈ members entries' r0 ↔ k ∈ members (entries s) r0).
  { intros r0 k Hne. rewrite !members_spec by done. split.
    - intros (b & ps & cs & cats' & Hg & Hh & Hr).
      apply Hicon' in Hg as (cats & Hg & ->). exists b, ps, cs, cats.
      split; [done|]. split; [done|].
      destruct (bool_decide (k ∈ names)); [|done].
      apply elem_of_union in Hr as [Hr|Hr]; [|done].
      by apply elem_of_singleton in Hr.
    - intros (b & ps & cs & cats & Hg & Hh & Hr).
      exists b, ps, cs, (if bool_decide (k ∈ names) then {[r]} ∪ cats else cats).
      split; [apply Hicon'; by exists cats|]. split; [done|].
      destruct (bool_decide (k ∈ names)); [|done]. apply elem_of_union. by right. }
  (* members of the new category *)
  assert (Hnew : ∀ k, k ∈ members entries' r ↔ k ∈ names ∧ visible_icon (entries s) k).
  { intros k. rewrite members_spec by done. split.
    - intros (b & ps & cs & cats' & Hg & Hh & Hr).
      apply Hicon' in Hg as (cats & Hg & ->).
      assert (r ∉ cats).
      { intros Hin. apply Hfresh. eapply (Hrefs k _ Hg). exact Hin. }
      destruct (decide (k ∈ names)) as [Hin|Hnotin].
      + split; [done|]. by exists b, ps, cs, cats.
      + rewrite bool_decide_eq_false_2 in Hr by done. done.
    - intros (Hin & b & ps & cs & cats & Hg & Hh).
      exists b, ps, cs, ({[r]} ∪ cats). split; [|split; [done|]].
      + apply Hicon'. exists cats. split; [done|].
        by rewrite bool_decide_eq_true_2.
      + apply elem_of_union. left. by apply elem_of_singleton. }
  set (h2 := alter (set_count (Z.of_nat n)) r (<[r := mkCategory t 0]> (heap s))).
  assert (Hh2r : h2 !! r = Some (mkCategory t (Z.of_nat n))).
  { unfold h2. by rewrite lookup_alter_eq, lookup_insert_eq. }
  assert (Hh2o : ∀ r0, r0 ≠ r → h2 !! r0 = heap s !! r0).
  { intros r0 Hne. unfold h2.
    rewrite lookup_alter_ne by done. by rewrite lookup_insert_ne. }
  assert (Hdom : ∀ r0, r0 ∈ dom (heap s) → r0 ∈ dom h2).
  { intros r0 Hr0. apply elem_of_dom. rewrite Hh2o.
    - by apply elem_of_dom.
    - intros ->. done. }
  assert (Hdomr : r ∈ dom h2) by (apply elem_of_dom; by rewrite Hh2r).
  set (cats2 := if (n =? 0)%nat then set_delete r (categories s ++ [r])
                else categories s ++ [r]).
  assert (Hcats2 : ∀ r0, r0 ∈ cats2 ↔
            (r0 ∈ categories s) ∨ (r0 = r ∧ n ≠ 0%nat)).
  { intros r0. unfold cats2. destruct (n =? 0)%nat eqn:Hn.
    - apply Nat.eqb_eq in Hn. rewrite elem_of_set_delete, elem_of_app.
      rewrite list_elem_of_singleton. split.
      + intros [[?|?] ?]; [by left|done].
      + intros [Hin|[_ ?]]; [|done]. split; [by left|].
        intros ->. by apply Hfresh, Hidx.
    - apply Nat.eqb_neq in Hn. rewrite elem_of_app, list_elem_of_singleton.
      split; [intros [?|?]; [by left|by right]|].
      intros [?|[? _]]; [by left|by right]. }
  split.
  - (* the invariant *)
    split; [done|]. split.
    + intros k e Hg. cbn [entries heap] in *. rewrite Hget' in Hg.
      destruct (JsObject.get k (entries s)) as [e0|] eqn:Hg0; [|done].
      injection Hg as <-. assert (H0 := Hrefs k e0 Hg0).
      intros x Hx.
      destruct (bool_decide (k ∈ names)); [|by apply Hdom, H0].
      destruct e0 as [b ps cs cats|p cs|p vps cs]; simpl in *;
        [|by apply Hdom, H0|by apply Hdom, H0].
      apply elem_of_union in Hx as [Hx|Hx]; [|by apply Hdom, H0].
      apply elem_of_singleton in Hx as ->. done.
    + intros r0 Hr0. cbn [categories heap] in *. apply Hcats2 in Hr0 as [?|[-> _]].
      * by apply Hdom, Hidx.
      * done.
  - (* what has been loaded *)
    split; [|split].
    + intros r0 Hr0. cbn [categories heap entries] in *.
      apply Hcats2 in Hr0 as [Hr0|[-> Hn]].
      * assert (Hne : r0 ≠ r) by (intros ->; by apply Hfresh, Hidx).
        destruct (Hkept r0 Hr0) as (c & names0 & Hc & Hd & Hcount & Hmem & Hsub).
        exists c, names0. rewrite Hh2o by done. split; [done|].
        split; [apply elem_of_app; by left|].
        rewrite (members_length entries' (entries s) r0 r0)
          by (try done; intros k; by apply Hold).
        split; [done|]. split.
        -- apply members_nonempty. apply members_nonempty in Hmem as [k Hk].
           exists k. by apply Hold.
        -- intros k Hk. apply Hsub. by apply Hold.
      * exists (mkCategory t (Z.of_nat n)), names. split; [done|].
        split; [apply elem_of_app; right; left|]. split; [done|]. split.
        -- intros Hnil. apply Hn. unfold n. by rewrite Hnil.
        -- intros k Hk. by apply Hnew in Hk as [? _].
    + intros t0 names0 name Hd Hin Hv. cbn [categories heap entries] in *.
      apply Hvis in Hv. apply elem_of_app in Hd as [Hd|Hd].
      * destruct (Hlisted t0 names0 name Hd Hin Hv) as (r0 & c & Hr0 & Hc & Ht).
        assert (Hne : r0 ≠ r) by (intros ->; by apply Hfresh, Hidx).
        exists r0, c. split; [apply Hcats2; by left|]. by rewrite Hh2o.
      * apply list_elem_of_singleton in Hd as [= -> ->].
        exists r, (mkCategory t (Z.of_nat n)). split; [|done].
        apply Hcats2. right. split; [done|].
        assert (Hk : name ∈ members entries' r) by (by apply Hnew).
        unfold n. destruct (members entries' r); [by apply elem_of_nil in Hk|done].
    + intros t0 names0 name b ps cs cats' Hd Hin Hg. cbn [categories heap entries] in *.
      apply Hicon' in Hg as (cats & Hg & ->).
      apply elem_of_app in Hd as [Hd|Hd].
      * destruct (Hadded t0 names0 name b ps cs cats Hd Hin Hg) as (r0 & c & Hr0 & Hc & Ht).
        assert (Hne : r0 ≠ r).
        { intros ->. apply Hfresh. eapply (Hrefs name _ Hg). exact Hr0. }
        exists r0, c. rewrite Hh2o by done. split; [|done].
        destruct (bool_decide (name ∈ names)); [|done]. apply elem_of_union. by right.
      * apply list_elem_of_singleton in Hd as [= -> ->].
        exists r, (mkCategory t (Z.of_nat n)). split; [|done].
        rewrite bool_decide_eq_true_2 by done.
        apply elem_of_union. left. by apply elem_of_singleton.
Qed.

Lemma load_categories_fold ds decls s :
  categories_inv s → categories_loaded decls s →
  categories_inv (fold_left load_category ds s) ∧
  categories_loaded (decls ++ ds) (fold_left load_category ds s).
Proof.
  revert decls s. induction ds as [|[t names] ds IH]; intros decls s Hinv Hloaded.
  - simpl. by rewrite app_nil_r.
  - simpl. destruct (load_category_step decls s t names Hinv Hloaded) as [Hinv' Hl'].
    destruct (IH _ _ Hinv' Hl') as [H1 H2]. split; [done|].
    by rewrite <- app_assoc in H2.
Qed.

Lemma uncategorised_set (st : store) name e :
  entry_categories e = ∅ → uncategorised st → uncategorised (JsObject.set name e st).
Proof.
  intros He [Hwf Hcats]. split; [by apply wf_set|].
  intros k e'. rewrite get_set. destruct (String.eqb k name).
  - by intros [= <-].
  - apply Hcats.
Qed.

Lemma entry_categories_add_char char e :
  entry_categories (add_char char e) = entry_categories e.
Proof. by destruct e. Qed.

Lemma load_chars_uncategorised chars (st : store) :
  uncategorised st → uncategorised (load_chars chars st).
Proof.
  unfold load_chars. revert st.
  induction chars as [|[char name] chars IH]; intros st Hst; simpl; [done|].
  apply IH. destruct (JsObject.get name st) as [icon|] eqn:Hget; [|done].
  destruct Hst as [Hwf Hcats]. split; [by apply wf_replace|].
  intros k e. rewrite get_replace. destruct (String.eqb k name) eqn:E.
  - apply String.eqb_eq in E as ->. rewrite Hget. simpl. intros [= <-].
    rewrite entry_categories_add_char. by eapply Hcats.
  - apply Hcats.
Qed.

Section LoadCategories.

Variable filterProps : props → props → bool → props.
Variables defaultIconDimensions defaultCommonProps : props.

Lemma load_icons_uncategorised defaultProps icons :
  uncategorised (load_icons filterProps defaultCommonProps defaultProps icons).
Proof.
  unfold load_icons.
  assert (H0 : uncategorised ([] : store)).
  { split; [apply NoDup_nil_2|done]. }
  revert H0. generalize ([] : store).
  induction icons as [|[name item] icons IH]; intros st Hst; simpl; [done|].
  apply IH. by apply uncategorised_set.
Qed.

Lemma load_aliases_uncategorised aliases (st : store) :
  uncategorised st →
  uncategorised (load_aliases filterProps defaultCommonProps aliases st).
Proof.
  unfold load_aliases. destruct aliases as [als|]; [|done]. revert st.
  induction als as [|[name item] als IH]; intros st Hst; simpl; [done|].
  apply IH. destruct (JsObject.get name st); [done|].
  destruct (bool_decide _); by apply uncategorised_set.
Qed.

Abbreviation loaded := (load filterProps defaultIconDimensions defaultCommonProps).

Lemma load_categories_state data :
  ∃ st, uncategorised st ∧
        entries (loaded data)
          = entries (load_categories (j_categories data)
                       (mkIconSet (j_prefix data) st ∅ [] [] [])) ∧
        heap (loaded data)
          = heap (load_categories (j_categories data)
                    (mkIconSet (j_prefix data) st ∅ [] [] [])) ∧
        categories (loaded data)
          = categories (load_categories (j_categories data)
                          (mkIconSet (j_prefix data) st ∅ [] [] [])).
Proof.
  unfold load.
  set (st1 := load_aliases _ _ _ _).
  set (st2 := match j_chars data with Some chars => load_chars chars st1 | None => st1 end).
  exists st2. split.
  - assert (H1 : uncategorised st1)
      by apply load_aliases_uncategorised, load_icons_uncategorised.
    unfold st2. destruct (j_chars data); [by apply load_chars_uncategorised|done].
  - by destruct (import_legacy (j_themes data)).
Qed.

(** C7 (as amended).  For each declared category [load] creates a
    category object, adds it to the category set of every listed name
    that is an [Icon] entry, registers it in the Category Index and
    then recounts it with [listCategory], which removes it when it has
    no visible member.  So immediately after [load] a category title is
    in the index exactly when a declaration with that title lists at
    least one [Icon] entry that is not hidden, and every category of
    the index has as count the number, not zero, of the names
    [listCategory] returns for it.  Whether its category stays in the
    index or not, a listed [Icon] entry holds a category object with
    the declared title. *)
Theorem load_categories_index data decls :
  j_categories data = Some decls →
  (∀ t, is_Some (fst (findCategory (loaded data) t false)) ↔
        ∃ names name, (t, names) ∈ decls ∧ name ∈ names ∧
                      visible_icon (entries (loaded data)) name) ∧
  (∀ r, r ∈ categories (loaded data) →
        ∃ c icons, heap (loaded data) !! r = Some c ∧
                   fst (listCategory (loaded data) (inl r)) = Some icons ∧
                   count c = Z.of_nat (length icons) ∧ icons ≠ []) ∧
  (∀ t names name b ps cs cats,
     (t, names) ∈ decls → name ∈ names →
     JsObject.get name (entries (loaded data)) = Some (Icon b ps cs cats) →
     ∃ r c, r ∈ cats ∧ heap (loaded data) !! r = Some c ∧ title c = t).
Proof.
  intros Hdecls.
  destruct (load_categories_state data) as (st & [Hwf Hcats] & He & Hh & Hc).
  rewrite Hdecls in He, Hh, Hc. simpl in He, Hh, Hc.
  set (s0 := mkIconSet (j_prefix data) st ∅ [] [] []) in *.
  assert (Hinv0 : categories_inv s0).
  { split; [done|]. split.
    - intros k e Hg. simpl in Hg. rewrite (Hcats k e Hg). apply empty_subseteq.
    - intros r Hr. by apply elem_of_nil in Hr. }
  assert (Hl0 : categories_loaded [] s0).
  { split; [|split].
    - intros r Hr. by apply elem_of_nil in Hr.
    - intros t names name Hd. by apply elem_of_nil in Hd.
    - intros t names name b ps cs cats Hd. by apply elem_of_nil in Hd. }
  destruct (load_categories_fold decls [] s0 Hinv0 Hl0)
    as [Hinv (Hkept & Hlisted & Hadded)].
  simpl in Hkept, Hlisted, Hadded.
  rewrite <- He, <- Hh, <- Hc in Hkept, Hlisted.
  rewrite <- He, <- Hh in Hadded.
  destruct Hinv as (Hwf' & _ & _). rewrite <- He in Hwf'.
  split; [|split; [|exact Hadded]].
  - intros t. unfold findCategory.
    destruct (find_title (heap (loaded data)) t (categories (loaded data)))
      as [r|] eqn:Hfind; simpl.
    + split; [intros _|by eexists].
      apply find_title_Some in Hfind as (Hr & c & Hc' & <-).
      destruct (Hkept r Hr) as (c' & names & Hc'' & Hd & _ & Hmem & Hsub).
      rewrite Hc' in Hc''. injection Hc'' as <-.
      apply members_nonempty in Hmem as [k Hk].
      exists names, k. split; [done|]. split; [by apply Hsub|].
      apply members_spec in Hk as (b & ps & cs & cats & Hg & Hhid & _); [|done].
      by exists b, ps, cs, cats.
    + split; [by intros [? ?]|]. intros (names & name & Hd & Hin & Hv).
      destruct (Hlisted t names name Hd Hin Hv) as (r & c & Hr & Hc' & Ht).
      exfalso. by eapply (proj1 (find_title_None _ _ _) Hfind r c).
  - intros r Hr.
    destruct (Hkept r Hr) as (c & names & Hc' & _ & Hcount & Hmem & _).
    exists c, (members (entries (loaded data)) r). split; [done|].
    split; [|done].
    unfold listCategory, _filter. rewrite filter_loop_in_category.
    destruct (length (members (entries (loaded data)) r) =? 0)%nat eqn:Hn; [|done].
    apply Nat.eqb_eq in Hn. destruct (members (entries (loaded data)) r); done.
Qed.

End LoadCategories.

(** The theorem applied to [orphan_doc], whatever the property filter:
    the category ["Orphans"], which lists no entry, is not in the index
    after [load]. *)
Lemma load_categories_index_witness :
  j_categories orphan_doc = Some [ ("Orphans", [ "ghost" ]) ] ∧
  ∀ fp dd dc,
    ¬ is_Some (fst (findCategory (load fp dd dc orphan_doc) "Orphans" false)).
Proof.
  split; [reflexivity|]. intros fp dd dc Hsome.
  apply (proj1 (load_categories_index fp dd dc orphan_doc _ eq_refl)) in Hsome
    as (names & name & Hd & Hin & Hv).
  destruct Hv as (b & ps & cs & cats & Hg & _).
  change (entries (load fp dd dc orphan_doc)) with ([] : store) in Hg.
  discriminate Hg.
Defined.

(** C7 as stated fails on [orphan_doc]: the declared category
    ["Orphans"] lists no [Icon] entry, and after [load] the Category
    Index is empty. *)
Lemma load_categories_index_counterexample :
  j_categories orphan_doc = Some [ ("Orphans", [ "ghost" ]) ] ∧
  j_icons orphan_doc = [] ∧
  ∀ fp dd dc,
    categories (load fp dd dc orphan_doc) = [] ∧
    fst (findCategory (load fp dd dc orphan_doc) "Orphans" false) = None.
Proof. repeat split; vm_compute; reflexivity. Qed.

(** ** Sample runs *)

(** Array-index keys are enumerated first, in numeric order. *)
Example keys_order :
  JsObject.keys
    (JsObject.set "10" 1%nat
       (JsObject.set "b" 1%nat
          (JsObject.set "2" 1%nat
             (JsObject.set "a" 1%nat (JsObject.set "01" 3%nat [])))))
  = [ "2"; "10"; "01"; "a"; "b" ].
Proof. reflexivity. Qed.

(** [remove("a", "x")] deletes ["a"] alone and gives its variation
    ["v"] the parent ["x"]. *)
Example remove_reparent :
  let r := remove family_store "a" (RDName "x") in
  fst r = 1%nat ∧
  map (fun kv => (fst kv, entry_parent (snd kv))) (snd r)
    = [ ("x", None); ("y", None); ("v", Some "x") ].
Proof. split; vm_compute; reflexivity. Qed.

(** [remove("x", false)] deletes ["x"] alone; its alias no longer
    resolves. *)
Example remove_alone :
  let r := remove family_store "x" (RDBool false) in
  fst r = 1%nat ∧ JsObject.keys (snd r) = [ "y"; "a"; "v" ] ∧
  resolve (snd r) "a" = None.
Proof. repeat split; vm_compute; reflexivity. Qed.

(** A chain of exactly six dependents is within the bound: removing
    ["a1"] from [deep_store] deletes it and the six aliases below it. *)
Example remove_six_deep :
  remove deep_store "a1" (RDBool true) = (7%nat, [ ("x", Icon "<g/>" ∅ ∅ ∅) ]).
Proof. vm_compute. reflexivity. Qed.

(** [rename("x", "z")] re-keys the icon and re-parents its alias. *)
Example rename_reparents :
  let r := rename family_store "x" "z" in
  fst r = true ∧
  map (fun kv => (fst kv, entry_parent (snd kv))) (snd r)
    = [ ("y", None); ("a", Some "z"); ("v", Some "a"); ("z", None) ].
Proof. split; vm_compute; reflexivity. Qed.

(** The sum of rotations is a sum of doubles: [1 + 2 ^ 53] is
    [2 ^ 53], whose remainder by 4 is 0. *)
Example rotate_sum_rounds :
  merge_props {[ "rotate" := VNum (2 ^ 53) ]} {[ "rotate" := VNum 1 ]} !! "rotate"
  = Some (VNum 0).
Proof. vm_compute. reflexivity. Qed.

(** Longer keys first; the empty key last. *)
Example sorted_keys :
  sortThemeKeys compare_codes [ "a"; "bb"; ""; "ab"; "abc" ]
  = [ "abc"; "ab"; "bb"; "a"; "" ].
Proof. vm_compute. reflexivity. Qed.

(** The specification's example of [checkTheme]. *)
Example themed_buckets :
  let r := checkTheme compare_codes themed_set true in
  valid r !! "mdi" = Some [ "mdi-home" ] ∧ valid r !! "" = Some [ "home" ] ∧
  invalid r = [].
Proof. repeat split; vm_compute; reflexivity. Qed.

(** [toggleCategory("home", "New", true)] creates the category, adds the
    icon to it and counts one member. *)
Example toggle_adds :
  let r := toggleCategory one_icon_set "home" "New" true in
  fst r = true ∧ categories (snd r) = [ 0%nat ] ∧
  heap (snd r) !! 0%nat = Some (mkCategory "New" 1) ∧
  JsObject.get "home" (entries (snd r)) = Some (Icon "<g/>" ∅ ∅ {[ 0%nat ]}).
Proof. repeat split; vm_compute; reflexivity. Qed.

(* ===================================================================== *)
(** * Part III: further properties of the code                            *)
(* ===================================================================== *)

(** ** remove with a new parent *)

Lemma reparent_to_idemp name np e :
  name ≠ np → reparent_to name np (reparent_to name np e) = reparent_to name np e.
Proof.
  intros Hne. unfold reparent_to.
  destruct (entry_parent e) as [p|] eqn:Hp; [|by rewrite Hp].
  destruct (String.eqb p name) eqn:E; [|by rewrite Hp, E].
  assert (Hp' : entry_parent (set_parent np e) = Some np) by (by destruct e).
  rewrite Hp'. rewrite (proj2 (String.eqb_neq np name)); [done|congruence].
Qed.

(** The loop of [del] with a new parent visits every key and rewrites
    the parent of the direct dependents; it makes no nested call. *)
Lemma del_loop_reparent again name np ks s :
  name ≠ np →
  ∃ st', del_loop again (RDName np) name ks s = Ret (true, mkDel st' (d_names s)) ∧
         JsObject.keys st' = JsObject.keys (d_entries s) ∧
         ∀ k, JsObject.get k st' =
                (if bool_decide (k ∈ ks) then reparent_to name np else id)
                  <$> JsObject.get k (d_entries s).
Proof.
  intros Hne. revert s. induction ks as [|key rest IH]; intros s.
  - exists (d_entries s). simpl. split; [by destruct s|]. split; [done|].
    intros k. by destruct (JsObject.get k (d_entries s)).
  - assert (Hskip :
      (∀ e, JsObject.get key (d_entries s) = Some e → reparent_to name np e = e) →
      ∃ st', del_loop again (RDName np) name rest s = Ret (true, mkDel st' (d_names s)) ∧
             JsObject.keys st' = JsObject.keys (d_entries s) ∧
             ∀ k, JsObject.get k st' =
                    (if bool_decide (k ∈ key :: rest) then reparent_to name np else id)
                      <$> JsObject.get k (d_entries s)).
    { intros Hsame. destruct (IH s) as (st' & Hrun & Hkeys & Hget).
      exists st'. split; [done|]. split; [done|]. intros k. rewrite Hget.
      destruct (decide (k ∈ rest)) as [Hin|Hnotin].
      - rewrite (bool_decide_eq_true_2 _ Hin).
        rewrite bool_decide_eq_true_2; [done|by right].
      - rewrite (bool_decide_eq_false_2 _ Hnotin).
        destruct (decide (k = key)) as [->|Hk].
        + rewrite bool_decide_eq_true_2 by left.
          destruct (JsObject.get key (d_entries s)) as [e|] eqn:Hg; [|done].
          simpl. by rewrite Hsame.
        + rewrite bool_decide_eq_false_2; [done|].
          intros H. apply elem_of_cons in H as [?|?]; done. }
    simpl. destruct (JsObject.get key (d_entries s)) as [item|] eqn:Hg;
      [|apply Hskip; by intros e [=]].
    destruct (entry_parent item) as [p|] eqn:Hp.
    2:{ apply Hskip. intros e [= <-]. unfold reparent_to. by rewrite Hp. }
    destruct (String.eqb p name) eqn:E.
    2:{ apply Hskip. intros e [= <-]. unfold reparent_to. by rewrite Hp, E. }
    destruct (IH (mkDel (JsObject.replace key (set_parent np item) (d_entries s))
                        (d_names s))) as (st' & Hrun & Hkeys & Hget).
    cbn [d_entries d_names] in *.
    exists st'. split; [done|]. split; [by rewrite Hkeys, keys_replace|].
    intros k. rewrite Hget, get_replace.
    assert (Hitem : reparent_to name np item = set_parent np item)
      by (unfold reparent_to; by rewrite Hp, E).
    destruct (String.eqb k key) eqn:Ek.
    + apply String.eqb_eq in Ek as ->. rewrite Hg. simpl.
      rewrite (bool_decide_eq_true_2 (key ∈ key :: rest)) by left.
      rewrite Hitem.
      destruct (bool_decide (key ∈ rest)); simpl; [|done].
      by rewrite <- Hitem, reparent_to_idemp.
    + apply String.eqb_neq in Ek.
      destruct (JsObject.get k (d_entries s)) as [e|]; simpl;
        [|by destruct (bool_decide (k ∈ rest)), (bool_decide (k ∈ key :: rest))].
      destruct (decide (k ∈ rest)) as [Hin|Hnotin].
      * rewrite (bool_decide_eq_true_2 _ Hin).
        rewrite bool_decide_eq_true_2; [done|by right].
      * rewrite (bool_decide_eq_false_2 _ Hnotin).
        rewrite bool_decide_eq_false_2; [done|].
        intros H. apply elem_of_cons in H as [?|?]; done.
Qed.

(** X1. [remove(name, newParent)]: it returns 0 and changes nothing when
    the two names are equal or one of them is unknown; otherwise it
    returns 1, deletes [name] alone and makes [newParent] the parent of
    the entries whose parent was [name], leaving every other entry as it
    was and the keys in their order. *)
Theorem remove_new_parent (st : store) name np :
  let r := remove st name (RDName np) in
  (name = np ∨ JsObject.get np st = None ∨ JsObject.get name st = None →
     r = (0%nat, st)) ∧
  (name ≠ np ∧ is_Some (JsObject.get np st) ∧ is_Some (JsObject.get name st) →
     fst r = 1%nat ∧
     JsObject.get name (snd r) = None ∧
     (∀ k, k ≠ name →
           JsObject.get k (snd r) = reparent_to name np <$> JsObject.get k st) ∧
     sublist (JsObject.keys (snd r)) (JsObject.keys st)).
Proof.
  cbn zeta. unfold remove. split.
  - intros [->|[Hnp|Hname]].
    + by rewrite String.eqb_refl.
    + rewrite Hnp. simpl. by rewrite orb_true_r.
    + destruct (String.eqb name np || is_none (JsObject.get np st)); [done|].
      change enough_fuel with 8%nat. cbn [del d_entries d_names]. by rewrite Hname.
  - intros (Hne & [enp Hnp] & [ename Hname]).
    rewrite (proj2 (String.eqb_neq name np) Hne), Hnp. cbn [is_none orb].
    change enough_fuel with 8%nat. cbn [del d_entries d_names].
    rewrite Hname. cbn [is_none orb]. change (maxIteration <? 0)%nat with false.
    rewrite bool_decide_eq_false_2
      by (rewrite elem_of_singleton; done).
    cbn [orb looks_for_dependents Nat.eqb].
    match goal with
    | |- context [del_loop ?again _ _ _ ?s] =>
        destruct (del_loop_reparent again name np (JsObject.keys st) s Hne)
          as (st' & -> & Hkeys & Hget)
    end.
    cbn [d_entries d_names] in *.
    assert (Hnames : ({[name]} ∪ {[np]}) ∖ {[np]} = ({[name]} : gset string)).
    { apply set_eq. intros x.
      rewrite elem_of_difference, elem_of_union, !elem_of_singleton.
      split; [tauto|]. intros ->. tauto. }
    rewrite Hnames. cbn [fst snd]. split; [apply size_singleton|].
    split; [|split].
    + rewrite get_delete_names. rewrite decide_True; [done|].
      by apply elem_of_singleton.
    + intros k Hk. rewrite get_delete_names.
      rewrite decide_False by (by rewrite elem_of_singleton).
      rewrite Hget.
      destruct (JsObject.get k st) as [e|] eqn:Hg; [|by destruct (bool_decide _)].
      rewrite bool_decide_eq_true_2; [done|].
      by apply (get_Some_key _ _ e).
    + rewrite <- Hkeys. apply keys_sublist. unfold delete_names.
      apply foldr_delete_sublist.
Qed.

(** ** remove without the dependents *)

Lemma ancestor_prefix (st : store) a b k m :
  ancestor st (a + b) k = Some m → ∃ c, ancestor st a k = Some c.
Proof.
  rewrite ancestor_add. destruct (ancestor st a k) as [c|]; [by exists c|done].
Qed.

(** The chain from [k] to [name] is still there, up to its first visit of
    [name], in a store that differs from [st] at [name] only. *)
Lemma ancestor_first_visit (st st' : store) name :
  (∀ k, k ≠ name → JsObject.get k st' = JsObject.get k st) →
  ∀ d k, ancestor st d k = Some name →
         ∃ d', (d' ≤ d)%nat ∧ ancestor st' d' k = Some name.
Proof.
  intros Hsame. induction d as [|d IH]; intros k Hd.
  - exists 0%nat. split; [lia|]. done.
  - destruct (decide (k = name)) as [->|Hk]; [exists 0%nat; split; [lia|done]|].
    simpl in Hd.
    destruct (JsObject.get k st) as [item|] eqn:Hg; [|done].
    destruct (entry_parent item) as [p|] eqn:Hp; [|done].
    destruct (IH p Hd) as (d' & Hle & Hd').
    exists (S d'). split; [lia|]. simpl. by rewrite (Hsame k Hk), Hg, Hp.
Qed.

(** An entry whose chain reaches a name that the store lacks does not
    resolve. *)
Lemma resolve_reaches_missing (st : store) d k name :
  ancestor st d k = Some name → JsObject.get name st = None →
  resolve st k = None.
Proof.
  intros Hd Hmiss. apply resolve_none_iff.
  destruct (decide (d ≤ maxIteration)%nat) as [Hle|Hgt].
  - left. exists d, name. split; [simpl; lia|]. done.
  - right. change (S maxIteration - 0)%nat with 7%nat.
    apply (ancestor_prefix st 7 (d - 7) k name).
    replace (7 + (d - 7))%nat with d by (unfold maxIteration in Hgt; lia). done.
Qed.

(** X2. [remove(name, false)] deletes the entry [name] alone and returns
    1 (0, changing nothing, when [name] is unknown); the entries that
    depended on it are kept with their parent and no longer resolve. *)
Theorem remove_alone_dangles (st : store) name :
  let r := remove st name (RDBool false) in
  (JsObject.get name st = None → r = (0%nat, st)) ∧
  (is_Some (JsObject.get name st) →
     r = (1%nat, JsObject.delete name st) ∧
     (∀ k, k ≠ name → JsObject.get k (snd r) = JsObject.get k st) ∧
     (∀ k, depends_on st k name → resolve (snd r) k = None)).
Proof.
  cbn zeta. unfold remove. change enough_fuel with 8%nat.
  cbn [del d_entries d_names]. split.
  - by intros ->.
  - intros [e He]. rewrite He. cbn [is_none orb].
    change (maxIteration <? 0)%nat with false.
    rewrite bool_decide_eq_false_2 by apply not_elem_of_empty.
    cbn [orb looks_for_dependents d_entries d_names].
    rewrite (right_id_L ∅ (∪)). rewrite size_singleton.
    unfold delete_names. rewrite elements_singleton. cbn [foldr snd].
    split; [done|]. split.
    + intros k Hk. by apply get_delete_ne.
    + intros k [d Hd].
      destruct (ancestor_first_visit st (JsObject.delete name st) name
                  (fun k Hk => get_delete_ne st name k Hk) d k Hd)
        as (d' & _ & Hd').
      apply (resolve_reaches_missing _ d' k name Hd'), get_delete_eq.
Qed.

(** ** rename *)

Lemma get_reparent (o : store) old new k :
  JsObject.get k (reparent old new o) = reparent_to old new <$> JsObject.get k o.
Proof.
  induction o as [|[k' e] o IH]; [done|].
  cbn [reparent map JsObject.get fmap] in *.
  assert (Hhd : (let '(key, item) := (k', e) in
                 match entry_parent item with
                 | Some p => if String.eqb p old then (key, set_parent new item)
                             else (key, item)
                 | None => (key, item)
                 end) = (k', reparent_to old new e)).
  { unfold reparent_to. destruct (entry_parent e) as [p|]; [|done].
    by destruct (String.eqb p old). }
  rewrite Hhd. cbn [JsObject.get].
  destruct (String.eqb k k'); [done|]. apply IH.
Qed.

Lemma keys_reparent (o : store) old new :
  JsObject.keys (reparent old new o) = JsObject.keys o.
Proof.
  unfold JsObject.keys, reparent. rewrite map_map. apply map_ext.
  intros [k e]. destruct (entry_parent e) as [p|]; [|done].
  by destruct (String.eqb p old).
Qed.

(** The store [rename] builds once [newName] is free. *)
Lemma get_renamed (st1 : store) old new item k :
  old ≠ new →
  JsObject.get k (reparent old new
                    (JsObject.delete old (JsObject.set new item st1))) =
    if String.eqb k old then None
    else if String.eqb k new then Some (reparent_to old new item)
    else reparent_to old new <$> JsObject.get k st1.
Proof.
  intros Hne. rewrite get_reparent.
  destruct (String.eqb k old) eqn:Eo.
  - apply String.eqb_eq in Eo as ->. by rewrite get_delete_eq.
  - apply String.eqb_neq in Eo. rewrite get_delete_ne by done.
    rewrite get_set. by destruct (String.eqb k new).
Qed.

(** What [rename] runs: the cascading removal of the occupant of
    [newName], if any, then the re-keying of [oldName]. *)
Lemma rename_true (st : store) old new :
  fst (rename st old new) = true →
  ∃ st1 item,
    (JsObject.get new st = None ∧ st1 = st
     ∨ is_Some (JsObject.get new st) ∧
       fst (remove st new (RDBool true)) ≠ 0%nat ∧
       st1 = snd (remove st new (RDBool true))) ∧
    JsObject.get old st1 = Some item ∧
    snd (rename st old new) =
      reparent old new (JsObject.delete old (JsObject.set new item st1)).
Proof.
  unfold rename. destruct (JsObject.get new st) as [occ|] eqn:Hnew.
  - destruct (remove st new (RDBool true)) as [n st1] eqn:Hrem.
    destruct (Nat.eqb_spec n 0) as [->|Hn]; [done|].
    destruct (JsObject.get old st1) as [item|] eqn:Hold; [|done].
    intros _. exists st1, item. cbn [fst snd]. split; [|done].
    right. split; [by eexists|]. done.
  - destruct (JsObject.get old st) as [item|] eqn:Hold; [|done].
    intros _. exists st, item. split; [by left|]. done.
Qed.

(** The store left by a successful cascading removal. *)
Lemma remove_cascade_get (st : store) name :
  fst (remove st name (RDBool true)) ≠ 0%nat →
  ∀ k, (depends_on st k name → JsObject.get k (snd (remove st name (RDBool true))) = None) ∧
       (¬ depends_on st k name →
        JsObject.get k (snd (remove st name (RDBool true))) = JsObject.get k st).
Proof.
  intros Hn k.
  destruct (remove_cascade_run st name) as [(s & Hrun & He & Hr)|(s & _ & Hr)];
    rewrite Hr in *; [|done].
  destruct (del_cascade_success st _ _ _ (mkDel st ∅) _ eq_refl Hrun) as (Hnames & _ & _).
  cbn [d_names snd] in *. rewrite get_delete_names.
  split; intros Hk.
  - rewrite decide_True; [done|]. apply Hnames. by right.
  - rewrite decide_False; [done|]. intros Hin. apply Hnames in Hin as [Hin|Hin]; [|done].
    by apply not_elem_of_empty in Hin.
Qed.

(** X3. A successful [rename(oldName, newName)]: the two names differ and
    [oldName] was an entry; the occupant of [newName], if there was one,
    is gone with every entry that depended on it; the entry of [oldName]
    is now under [newName] and [oldName] is free; every parent reference
    to [oldName] now names [newName], and nothing else has changed. *)
Theorem rename_success (st : store) old new :
  fst (rename st old new) = true →
  let st' := snd (rename st old new) in
  let cascaded k := is_Some (JsObject.get new st) ∧ depends_on st k new in
  old ≠ new ∧
  ¬ cascaded old ∧
  (∃ item, JsObject.get old st = Some item ∧
           JsObject.get new st' = Some (reparent_to old new item)) ∧
  JsObject.get old st' = None ∧
  (∀ k, k ≠ old → k ≠ new →
        (cascaded k → JsObject.get k st' = None) ∧
        (¬ cascaded k →
         JsObject.get k st' = reparent_to old new <$> JsObject.get k st)).
Proof.
  intros Hok. cbn zeta.
  destruct (rename_true st old new Hok) as (st1 & item & Hcase & Hold & ->).
  assert (Hfree : JsObject.get new st1 = None).
  { destruct Hcase as [[Hnew ->]|(_ & Hn & ->)]; [done|].
    apply (remove_cascade_get st new Hn new). by exists 0%nat. }
  assert (Hne : old ≠ new) by (intros ->; congruence).
  assert (Hst1 : ∀ k, (is_Some (JsObject.get new st) ∧ depends_on st k new →
                       JsObject.get k st1 = None) ∧
                      (¬ (is_Some (JsObject.get new st) ∧ depends_on st k new) →
                       JsObject.get k st1 = JsObject.get k st)).
  { intros k. destruct Hcase as [[Hnew ->]|(Hsome & Hn & ->)].
    - split; [|done]. intros [[? H] _]. congruence.
    - destruct (remove_cascade_get st new Hn k) as [Hdel Hkeep].
      split; [intros [_ H]; by apply Hdel|].
      intros H. apply Hkeep. tauto. }
  assert (Hold_kept : ¬ (is_Some (JsObject.get new st) ∧ depends_on st old new)).
  { intros H. apply (Hst1 old) in H. congruence. }
  split; [done|]. split; [done|]. split; [|split].
  - exists item. split.
    + rewrite <- (proj2 (Hst1 old) Hold_kept). done.
    + rewrite get_renamed by done.
      rewrite (proj2 (String.eqb_neq new old)) by done.
      by rewrite String.eqb_refl.
  - rewrite get_renamed by done. by rewrite String.eqb_refl.
  - intros k Hko Hkn. rewrite get_renamed by done.
    rewrite (proj2 (String.eqb_neq k old)), (proj2 (String.eqb_neq k new)) by done.
    split; intros H.
    + by rewrite (proj1 (Hst1 k) H).
    + by rewrite (proj2 (Hst1 k) H).
Qed.

Lemma ancestor_cycle (st : store) j n :
  ancestor st (S j) n = Some n → ∀ m, ∃ c, ancestor st m n = Some c.
Proof.
  intros Hcyc m.
  assert (Hq : ∀ q, ancestor st (q * S j) n = Some n).
  { induction q as [|q IH]; [done|].
    change (S q * S j)%nat with (S j + q * S j)%nat.
    rewrite ancestor_add, Hcyc. apply IH. }
  apply (ancestor_prefix st m (m * S j - m) n n).
  replace (m + (m * S j - m))%nat with (m * S j)%nat by nia. apply Hq.
Qed.

(** A name whose parent chain comes back to it does not resolve. *)
Lemma resolve_cycle (st : store) j n :
  ancestor st (S j) n = Some n → resolve st n = None.
Proof.
  intros Hcyc. apply resolve_none_iff. right.
  apply (ancestor_cycle st j n Hcyc).
Qed.

Lemma ancestor_substore (st1 st : store) :
  (∀ k e, JsObject.get k st1 = Some e → JsObject.get k st = Some e) →
  ∀ d k m, ancestor st1 d k = Some m → ancestor st d k = Some m.
Proof.
  intros Hsub. induction d as [|d IH]; intros k m; [done|].
  simpl. destruct (JsObject.get k st1) as [e|] eqn:Hg; [|done].
  rewrite (Hsub k e Hg). destruct (entry_parent e); [apply IH|done].
Qed.

Lemma depends_on_parent (st : store) k item p name :
  JsObject.get k st = Some item → entry_parent item = Some p →
  depends_on st p name → depends_on st k name.
Proof.
  intros Hg Hp [d Hd]. exists (S d). simpl. by rewrite Hg, Hp.
Qed.

(** Entries that do not depend on [name] resolve after its cascading
    removal as before. *)
Lemma getIcon_remove_cascade (st : store) name :
  fst (remove st name (RDBool true)) ≠ 0%nat →
  ∀ fuel n (it : nat),
    ¬ depends_on st n name →
    getIcon fuel (snd (remove st name (RDBool true))) n it = getIcon fuel st n it.
Proof.
  intros Hn. induction fuel as [|fuel IH]; intros n it Hdep; [done|].
  cbn [getIcon].
  rewrite (proj2 (remove_cascade_get st name Hn n) Hdep).
  destruct (JsObject.get n st) as [item|] eqn:Hg; [|done].
  destruct (maxIteration <? it)%nat; [done|].
  destruct item as [b ps cs cats|p cs|p vp cs]; [done| |].
  - apply IH. intros H. apply Hdep. by eapply depends_on_parent.
  - rewrite IH; [done|]. intros H. apply Hdep. by eapply depends_on_parent.
Qed.

(** The cascading removal only deletes. *)
Lemma remove_cascade_substore (st : store) name k e :
  JsObject.get k (snd (remove st name (RDBool true))) = Some e →
  JsObject.get k st = Some e.
Proof.
  destruct (remove_cascade_run st name) as [(s & _ & _ & ->)|(s & _ & ->)]; [|done].
  cbn [snd]. rewrite get_delete_names. by destruct (decide (k ∈ d_names s)).
Qed.

Section Renamed.

Variable st1 : store.
Variables old new : string.
Variable item : IconSetIconEntry.
Hypothesis old_stored : JsObject.get old st1 = Some item.
Hypothesis new_free : JsObject.get new st1 = None.

Abbreviation renamed := (rekey st1 old new item).
Abbreviation new_name := (renamed_name old new).

Lemma old_new_differ : old ≠ new.
Proof. intros E. rewrite E in old_stored. congruence. Qed.

Lemma parent_reparent_to e :
  entry_parent (reparent_to old new e) = new_name <$> entry_parent e.
Proof.
  unfold reparent_to, renamed_name. destruct e as [b ps cs cats|p cs|p vp cs]; [done| |];
    simpl; by destruct (String.eqb p old).
Qed.

Lemma get_new_name n :
  n ≠ new →
  JsObject.get (new_name n) renamed = reparent_to old new <$> JsObject.get n st1.
Proof.
  intros Hn. unfold rekey. rewrite (get_renamed _ _ _ _ _ old_new_differ).
  unfold renamed_name. destruct (String.eqb n old) eqn:E.
  - apply String.eqb_eq in E as ->.
    rewrite (proj2 (String.eqb_neq new old)) by (intros H; by apply old_new_differ).
    by rewrite String.eqb_refl, old_stored.
  - by rewrite E, (proj2 (String.eqb_neq n new)).
Qed.

(** An entry resolves under its new name as it did before, unless its
    chain led to the name that was free. *)
Lemma getIcon_renamed fuel n (it : nat) :
  getIcon fuel renamed (new_name n) it = getIcon fuel st1 n it
  ∨ depends_on st1 n new.
Proof.
  revert n it. induction fuel as [|fuel IH]; intros n it; [by left|].
  destruct (decide (n = new)) as [->|Hn]; [right; by exists 0%nat|].
  cbn [getIcon]. rewrite (get_new_name n Hn).
  destruct (JsObject.get n st1) as [e|] eqn:Hg; [|by left].
  cbn [fmap option_fmap option_map].
  destruct (maxIteration <? it)%nat; [by left|].
  destruct e as [b ps cs cats|p cs|p vp cs]; [by left| |].
  - unfold reparent_to. cbn [entry_parent set_parent].
    destruct (IH p (S it)) as [IHp|Hdep];
      [|right; by eapply depends_on_parent].
    left. rewrite <- IHp. unfold renamed_name. by destruct (String.eqb p old).
  - unfold reparent_to. cbn [entry_parent set_parent].
    destruct (IH p (S it)) as [IHp|Hdep];
      [|right; by eapply depends_on_parent].
    left. rewrite <- IHp. unfold renamed_name. by destruct (String.eqb p old).
Qed.

(** The chain of an entry is still there under the new names, up to its
    first visit of the name that was free. *)
Lemma ancestor_renamed d n :
  ancestor st1 d n = Some new →
  ∃ d', ancestor renamed d' (new_name n) = Some new.
Proof.
  revert n. induction d as [|d IH]; intros n Hd.
  - injection Hd as ->. exists 0%nat. unfold renamed_name.
    by rewrite (proj2 (String.eqb_neq new old)) by (intros H; by apply old_new_differ).
  - destruct (decide (n = new)) as [->|Hn].
    + exists 0%nat. unfold renamed_name.
      by rewrite (proj2 (String.eqb_neq new old)) by (intros H; by apply old_new_differ).
    + simpl in Hd. destruct (JsObject.get n st1) as [e|] eqn:Hg; [|done].
      destruct (entry_parent e) as [p|] eqn:Hp; [|done].
      destruct (IH p Hd) as [d' Hd']. exists (S d'). simpl.
      rewrite (get_new_name n Hn), Hg. cbn [fmap option_fmap option_map].
      by rewrite parent_reparent_to, Hp.
Qed.

Lemma resolve_renamed_new : resolve renamed new = resolve st1 old.
Proof.
  unfold resolve.
  destruct (getIcon_renamed enough_fuel old 0) as [Heq|Hdep].
  - rewrite <- Heq. unfold renamed_name. by rewrite String.eqb_refl.
  - fold (resolve renamed new). fold (resolve st1 old).
    destruct Hdep as [d Hd].
    rewrite (resolve_reaches_missing st1 d old new Hd new_free).
    destruct d as [|d]; [injection Hd as Hd; by apply old_new_differ in Hd|].
    simpl in Hd. rewrite old_stored in Hd.
    destruct (entry_parent item) as [p|] eqn:Hp; [|done].
    destruct (ancestor_renamed d p Hd) as [d' Hd'].
    apply (resolve_cycle renamed d' new). simpl.
    assert (Hg : JsObject.get new renamed = Some (reparent_to old new item)).
    { unfold rekey. rewrite (get_renamed _ _ _ _ _ old_new_differ).
      rewrite (proj2 (String.eqb_neq new old)) by (intros H; by apply old_new_differ).
      by rewrite String.eqb_refl. }
    by rewrite Hg, parent_reparent_to, Hp.
Qed.

Lemma resolve_renamed_other n :
  n ≠ old → ¬ depends_on st1 n new → resolve renamed n = resolve st1 n.
Proof.
  intros Hn Hdep. unfold resolve.
  destruct (getIcon_renamed enough_fuel n 0) as [Heq|H]; [|done].
  rewrite <- Heq. unfold renamed_name. by rewrite (proj2 (String.eqb_neq n old)).
Qed.

End Renamed.

(** X4. A successful [rename(oldName, newName)] keeps what the entries
    resolve to: [newName] resolves to what [oldName] resolved to before
    the call, [oldName] no longer resolves, and every other name whose
    parent chain did not lead to [newName] resolves as before. *)
Theorem rename_keeps_resolution (st : store) old new :
  fst (rename st old new) = true →
  let st' := snd (rename st old new) in
  resolve st' new = resolve st old ∧
  resolve st' old = None ∧
  (∀ n, n ≠ old → ¬ depends_on st n new → resolve st' n = resolve st n).
Proof.
  intros Hok. cbn zeta.
  destruct (rename_true st old new Hok) as (st1 & item & Hcase & Hold & Hst').
  assert (Hfree : JsObject.get new st1 = None).
  { destruct Hcase as [[Hnew ->]|(_ & Hn & ->)]; [done|].
    apply (remove_cascade_get st new Hn new). by exists 0%nat. }
  assert (Hne : old ≠ new) by (intros ->; congruence).
  assert (Hsub : ∀ k e, JsObject.get k st1 = Some e → JsObject.get k st = Some e).
  { destruct Hcase as [[_ ->]|(_ & Hn & ->)]; [done|].
    apply remove_cascade_substore. }
  assert (Hres : ∀ n, n = old ∨ ¬ depends_on st n new → resolve st1 n = resolve st n).
  { destruct Hcase as [[_ ->]|(_ & Hn & ->)]; [done|].
    intros n Hcase. unfold resolve. rewrite getIcon_remove_cascade; [done..|].
    destruct Hcase as [->|H]; [|done].
    intros Hd. apply (remove_cascade_get st new Hn old) in Hd. congruence. }
  rewrite Hst'. fold (rekey st1 old new item). split; [|split].
  - rewrite (resolve_renamed_new st1 old new item Hold Hfree). apply Hres. by left.
  - unfold resolve. change enough_fuel with 8%nat. rewrite getIcon_missing; [done|].
    unfold rekey. rewrite get_renamed by done. by rewrite String.eqb_refl.
  - intros n Hn Hdep.
    rewrite (resolve_renamed_other st1 old new item Hold Hfree n Hn).
    + apply Hres. by right.
    + intros [d Hd]. apply Hdep. exists d. by apply (ancestor_substore st1 st Hsub).
Qed.

(** ** resolve and the parent *)

(** A result [getIcon] gives at one depth, it gives one hop nearer to
    the start. *)
Lemma getIcon_shallower (st : store) fuel n (it : nat) r :
  getIcon fuel st n (S it) = Ret (Some r) →
  getIcon (S fuel) st n it = Ret (Some r).
Proof.
  revert n it r. induction fuel as [|fuel IH]; intros n it r; [done|].
  intros H. cbn [getIcon] in H.
  set (f := S fuel). cbn [getIcon]. subst f.
  destruct (JsObject.get n st) as [item|] eqn:Hg; [|done].
  destruct (Nat.ltb_spec maxIteration (S it)) as [|Hle]; [done|].
  rewrite (proj2 (Nat.ltb_ge maxIteration it)) by lia.
  destruct item as [b ps cs cats|p cs|p vp cs]; [done| |].
  - by apply IH.
  - destruct (getIcon fuel st p (S (S it))) as [[rp|]|] eqn:Hrec; [|done..].
    apply IH in Hrec. by rewrite Hrec.
Qed.

(** X5. Whenever [resolve] succeeds on an alias or a variation, it
    succeeds on the parent: the alias resolves to the icon its parent
    resolves to, the variation to the body of that icon with its own
    properties merged into the icon's.  So an entry whose parent does not
    resolve does not resolve. *)
Theorem resolve_through_parent (st : store) name item p :
  JsObject.get name st = Some item →
  entry_parent item = Some p →
  (∀ r, resolve st name = Some r →
        ∃ rp, resolve st p = Some rp ∧
              r = match item with
                  | Variation _ vprops _ =>
                      mkResolved (r_body rp) (merge_props vprops (r_props rp))
                  | _ => rp
                  end) ∧
  (resolve st p = None → resolve st name = None).
Proof.
  intros Hg Hp.
  assert (Hmain : ∀ r, resolve st name = Some r →
        ∃ rp, resolve st p = Some rp ∧
              r = match item with
                  | Variation _ vprops _ =>
                      mkResolved (r_body rp) (merge_props vprops (r_props rp))
                  | _ => rp
                  end).
  { intros r. unfold resolve. change enough_fuel with 8%nat.
    destruct item as [b ps cs cats|p' cs|p' vp cs]; [done| |];
      injection Hp as ->.
    - rewrite (getIcon_alias 7 st name 0 p cs Hg) by depth_ok.
      destruct (getIcon 7 st p 1) as [[rp|]|] eqn:Hrec; [|done..].
      intros [= ->]. exists r. by rewrite (getIcon_shallower st 7 p 0 r Hrec).
    - rewrite (getIcon_variation 7 st name 0 p vp cs Hg) by depth_ok.
      destruct (getIcon 7 st p 1) as [[rp|]|] eqn:Hrec; [|done..].
      intros [= <-]. exists rp. by rewrite (getIcon_shallower st 7 p 0 rp Hrec). }
  split; [done|].
  intros Hnone. destruct (resolve st name) as [r|] eqn:Hr; [|done].
  destruct (Hmain r eq_refl) as (rp & Hrp & _). congruence.
Qed.

(** ** Characters *)

Lemma entry_chars_set_chars cs e : entry_chars (set_chars cs e) = cs.
Proof. by destruct e. Qed.

Lemma set_chars_entry_chars e : set_chars (entry_chars e) e = e.
Proof. by destruct e. Qed.

Lemma set_chars_set_chars cs cs' e : set_chars cs (set_chars cs' e) = set_chars cs e.
Proof. by destruct e. Qed.

Lemma replace_same {A} (o : JsObject.t A) k v :
  JsObject.get k o = Some v → JsObject.replace k v o = o.
Proof.
  induction o as [|[k' v'] o IH]; [done|]. simpl.
  destruct (String.eqb k k'); [by intros [= ->]|].
  intros H. by rewrite IH.
Qed.

Lemma replace_replace {A} (o : JsObject.t A) k v v' :
  JsObject.replace k v (JsObject.replace k v' o) = JsObject.replace k v o.
Proof.
  induction o as [|[k' w] o IH]; [done|]. simpl.
  destruct (String.eqb k k') eqn:E; simpl; rewrite E; [done|]. by rewrite IH.
Qed.

(** X6. [toggleCharacter(iconName, char, add)] returns true exactly when
    [iconName] is an entry whose characters hold [char] when [add] is
    false, lack it when [add] is true.  It then adds or deletes [char]
    in the characters of that entry and changes nothing else; when it
    returns false the entries are unchanged.  A second identical call
    returns false. *)
Theorem toggleCharacter_effect (entries : store) iconName char (add : bool) :
  let r := toggleCharacter entries iconName char add in
  (fst r = true ↔
   ∃ item, JsObject.get iconName entries = Some item ∧
           (char ∈ entry_chars item ↔ add = false)) ∧
  (fst r = false → snd r = entries) ∧
  (fst r = true →
   (∃ item item',
      JsObject.get iconName entries = Some item ∧
      JsObject.get iconName (snd r) = Some item' ∧
      entry_core item' = entry_core item ∧
      entry_categories item' = entry_categories item ∧
      (char ∈ entry_chars item' ↔ add = true) ∧
      (∀ c, c ≠ char → c ∈ entry_chars item' ↔ c ∈ entry_chars item)) ∧
   (∀ k, k ≠ iconName → JsObject.get k (snd r) = JsObject.get k entries) ∧
   JsObject.keys (snd r) = JsObject.keys entries ∧
   fst (toggleCharacter (snd r) iconName char add) = false).
Proof.
  cbn zeta. unfold toggleCharacter.
  destruct (JsObject.get iconName entries) as [item|] eqn:Hg.
  2:{ cbn [fst snd]. split; [|done]. split; [done|]. by intros (? & ? & _). }
  destruct (decide (char ∈ entry_chars item)) as [Hin|Hout].
  - rewrite (bool_decide_eq_true_2 _ Hin). destruct add; cbn [Bool.eqb negb fst snd].
    + split; [|done]. split; [done|]. intros (? & [= <-] & H). by apply H in Hin.
    + split; [|split; [done|]].
      { split; [|done]. intros _. by exists item. }
      intros _. split; [|split; [|split]].
      * exists item, (set_chars (entry_chars item ∖ {[char]}) item).
        split; [done|]. rewrite get_replace, String.eqb_refl, Hg.
        split; [done|]. split; [by destruct item|]. split; [by destruct item|].
        rewrite entry_chars_set_chars. split.
        -- rewrite elem_of_difference, elem_of_singleton. split; [tauto|done].
        -- intros c Hc. rewrite elem_of_difference, elem_of_singleton. tauto.
      * intros k Hk. rewrite get_replace.
        by rewrite (proj2 (String.eqb_neq k iconName)).
      * apply keys_replace.
      * rewrite get_replace, String.eqb_refl, Hg. cbn [fmap option_fmap option_map].
        rewrite entry_chars_set_chars.
        rewrite bool_decide_eq_false_2; [done|].
        rewrite elem_of_difference, elem_of_singleton. tauto.
  - rewrite (bool_decide_eq_false_2 _ Hout). destruct add; cbn [Bool.eqb negb fst snd].
    + split; [|split; [done|]].
      { split; [|done]. intros _. exists item. split; [done|]. split; [done|]. done. }
      intros _. split; [|split; [|split]].
      * exists item, (set_chars ({[char]} ∪ entry_chars item) item).
        split; [done|]. rewrite get_replace, String.eqb_refl, Hg.
        split; [done|]. split; [by destruct item|]. split; [by destruct item|].
        rewrite entry_chars_set_chars. split.
        -- rewrite elem_of_union, elem_of_singleton. split; [done|]. by left.
        -- intros c Hc. rewrite elem_of_union, elem_of_singleton. tauto.
      * intros k Hk. rewrite get_replace.
        by rewrite (proj2 (String.eqb_neq k iconName)).
      * apply keys_replace.
      * rewrite get_replace, String.eqb_refl, Hg. cbn [fmap option_fmap option_map].
        rewrite entry_chars_set_chars.
        rewrite bool_decide_eq_true_2; [done|].
        rewrite elem_of_union, elem_of_singleton. by left.
    + split; [|done]. split; [done|]. intros (? & [= <-] & H).
      destruct H as [_ H]. exfalso. by apply Hout, H.
Qed.

(** X7. A successful [toggleCharacter] is undone by the opposite call:
    that call returns true and gives back the entries as they were. *)
Theorem toggleCharacter_undo (entries : store) iconName char (add : bool) :
  fst (toggleCharacter entries iconName char add) = true →
  toggleCharacter (snd (toggleCharacter entries iconName char add))
                  iconName char (negb add) = (true, entries).
Proof.
  unfold toggleCharacter at 1 3.
  destruct (JsObject.get iconName entries) as [item|] eqn:Hg; [|done].
  destruct (decide (char ∈ entry_chars item)) as [Hin|Hout].
  - rewrite (bool_decide_eq_true_2 _ Hin). destruct add; cbn [Bool.eqb negb fst snd]; [done|].
    intros _. unfold toggleCharacter.
    rewrite get_replace, String.eqb_refl, Hg. cbn [fmap option_fmap option_map].
    rewrite entry_chars_set_chars.
    rewrite bool_decide_eq_false_2
      by (rewrite elem_of_difference, elem_of_singleton; tauto).
    cbn [Bool.eqb negb]. rewrite replace_replace, set_chars_set_chars.
    assert (Hcs : {[char]} ∪ entry_chars item ∖ {[char]} = entry_chars item).
    { apply set_eq. intros c.
      rewrite elem_of_union, elem_of_difference, elem_of_singleton.
      destruct (decide (c = char)) as [->|]; tauto. }
    rewrite Hcs, set_chars_entry_chars. by rewrite replace_same.
  - rewrite (bool_decide_eq_false_2 _ Hout). destruct add; cbn [Bool.eqb negb fst snd]; [|done].
    intros _. unfold toggleCharacter.
    rewrite get_replace, String.eqb_refl, Hg. cbn [fmap option_fmap option_map].
    rewrite entry_chars_set_chars.
    rewrite bool_decide_eq_true_2
      by (rewrite elem_of_union, elem_of_singleton; by left).
    cbn [Bool.eqb negb]. rewrite replace_replace, set_chars_set_chars.
    assert (Hcs : ({[char]} ∪ entry_chars item) ∖ {[char]} = entry_chars item).
    { apply set_eq. intros c.
      rewrite elem_of_difference, elem_of_union, elem_of_singleton.
      split; [tauto|]. intros Hc. split; [by right|]. by intros ->. }
    rewrite Hcs, set_chars_entry_chars. by rewrite replace_same.
Qed.

(** ** The character map *)

Lemma assign_chars_lookup name (cs : gset string) (m : gmap string string) c :
  assign_chars name cs m !! c = if decide (c ∈ cs) then Some name else m !! c.
Proof.
  unfold assign_chars, set_fold. cbn [compose].
  assert (H : ∀ l : list string,
            foldr (fun char m => <[char := name]> m) m l !! c =
            if decide (c ∈ l) then Some name else m !! c).
  { induction l as [|x l IH]; [done|]. cbn [foldr].
    destruct (decide (c = x)) as [->|Hne].
    - rewrite lookup_insert_eq. rewrite decide_True; [done|left].
    - rewrite lookup_insert_ne by done. rewrite IH.
      destruct (decide (c ∈ l)) as [Hin|Hout].
      + rewrite decide_True; [done|by right].
      + rewrite decide_False; [done|]. intros H. apply elem_of_cons in H as [?|?]; done. }
  rewrite H. destruct (decide (c ∈ elements cs)) as [Hin|Hout].
  - rewrite decide_True; [done|]. by apply elem_of_elements.
  - rewrite decide_False; [done|]. by rewrite <- elem_of_elements.
Qed.

(** The loop of [chars]: it throws on the first unknown name; otherwise
    a character is mapped to the last name holding it. *)
Lemma chars_loop_spec (entries : store) names (m : gmap string string) :
  (chars_loop entries names m = TypeError ↔
   ∃ n, n ∈ names ∧ JsObject.get n entries = None) ∧
  ∀ m', chars_loop entries names m = Returned m' →
        ∀ c, m' !! c = match last (List.filter (holds_char entries c) names) with
                       | Some n => Some n
                       | None => m !! c
                       end.
Proof.
  revert m. induction names as [|n rest IH]; intros m.
  - split.
    + split; [done|]. intros (n & Hn & _). by apply elem_of_nil in Hn.
    + by intros m' [= <-] c.
  - cbn [chars_loop].
    destruct (JsObject.get n entries) as [item|] eqn:Hg.
    + destruct (IH (assign_chars n (entry_chars item) m)) as [IHt IHr]. split.
      * rewrite IHt. split; intros (k & Hk & Hnone).
        -- exists k. split; [by right|done].
        -- exists k. split; [|done].
           apply elem_of_cons in Hk as [->|Hk]; [congruence|done].
      * intros m' Hm' c. rewrite (IHr m' Hm' c).
        cbn [List.filter]. unfold holds_char at 2. rewrite Hg.
        rewrite assign_chars_lookup.
        destruct (decide (c ∈ entry_chars item)) as [Hin|Hout].
        -- rewrite (bool_decide_eq_true_2 _ Hin). rewrite last_cons.
           by destruct (last (List.filter (holds_char entries c) rest)).
        -- by rewrite (bool_decide_eq_false_2 _ Hout).
    + split; [|done]. split; [|done]. intros _. exists n. split; [left|done].
Qed.

Lemma last_filter_Some {A} (f : A → bool) (l : list A) x :
  last (List.filter f l) = Some x → x ∈ l ∧ f x = true.
Proof.
  intros H. apply last_Some_elem_of in H.
  apply list_elem_of_In, filter_In in H as [H1 H2].
  split; [by apply list_elem_of_In|done].
Qed.

Lemma last_filter_None {A} (f : A → bool) (l : list A) :
  last (List.filter f l) = None ↔ ∀ x, x ∈ l → f x = false.
Proof.
  rewrite last_None. split.
  - intros H x Hx. destruct (f x) eqn:E; [|done].
    assert (Hin : In x (List.filter f l)) by (apply filter_In; split; [by apply list_elem_of_In|done]).
    rewrite H in Hin. done.
  - intros H. induction l as [|y l IH]; [done|]. cbn [List.filter].
    rewrite (H y) by left. apply IH. intros x Hx. apply H. by right.
Qed.

Lemma chars_no_argument (entries : store) : chars entries None ≠ TypeError.
Proof.
  unfold chars. intros H. apply chars_loop_spec in H as (n & Hn & Hnone).
  by apply get_None_key in Hnone.
Qed.

(** X8. [chars(names)] throws a TypeError exactly when one of the names
    is not an entry, and never when called without argument.  Otherwise
    it maps each character to the last of the names whose entry holds
    it: a character that no listed entry holds is not a key of the
    result, and every value of the result is a listed name that holds
    its character. *)
Theorem chars_lookup (entries : store) (names : list string) :
  (chars entries (Some names) = TypeError ↔
   ∃ n, n ∈ names ∧ JsObject.get n entries = None) ∧
  chars entries None ≠ TypeError ∧
  (∀ m, chars entries (Some names) = Returned m →
        (∀ c, m !! c = last (List.filter (holds_char entries c) names)) ∧
        (∀ c n, m !! c = Some n →
                n ∈ names ∧
                ∃ item, JsObject.get n entries = Some item ∧ c ∈ entry_chars item) ∧
        (∀ c, m !! c = None ↔
              ∀ n item, n ∈ names → JsObject.get n entries = Some item →
                        c ∉ entry_chars item)).
Proof.
  split; [apply chars_loop_spec|]. split; [apply chars_no_argument|].
  unfold chars. intros m Hm.
  {
    assert (Hlook : ∀ c, m !! c = last (List.filter (holds_char entries c) names)).
    { intros c. rewrite (proj2 (chars_loop_spec entries names ∅) m Hm c).
      by destruct (last (List.filter (holds_char entries c) names)). }
    split; [done|]. split.
    + intros c n Hc. rewrite Hlook in Hc.
      apply last_filter_Some in Hc as [Hin Hholds]. split; [done|].
      unfold holds_char in Hholds.
      destruct (JsObject.get n entries) as [item|]; [|done].
      exists item. split; [done|]. by apply bool_decide_eq_true in Hholds.
    + intros c. rewrite Hlook, last_filter_None. split.
      * intros H n item Hn Hg. specialize (H n Hn). unfold holds_char in H.
        rewrite Hg in H. by apply bool_decide_eq_false in H.
      * intros H n Hn. unfold holds_char.
        destruct (JsObject.get n entries) as [item|] eqn:Hg; [|done].
        apply bool_decide_eq_false. by apply (H n item). }
Qed.

(** ** The entries after load *)

Lemma get_fold_set {A B} (f : A → B) (items : JsObject.t A) (acc : JsObject.t B) k :
  JsObject.wf items →
  JsObject.get k (fold_left (fun table '(key, v) => JsObject.set key (f v) table)
                            items acc) =
    match JsObject.get k items with
    | Some v => Some (f v)
    | None => JsObject.get k acc
    end.
Proof.
  unfold JsObject.wf. revert acc.
  induction items as [|[k0 v0] items IH]; intros acc; simpl; [done|].
  rewrite NoDup_cons. intros [Hnotin Hnd]. rewrite IH by done.
  destruct (String.eqb k k0) eqn:E.
  - apply String.eqb_eq in E as ->.
    rewrite (proj2 (get_None_key items k0) Hnotin). apply get_set_eq.
  - apply String.eqb_neq in E. by rewrite get_set_ne.
Qed.

Lemma entry_core_add_char c e : entry_core (add_char c e) = entry_core e.
Proof. by destruct e. Qed.

Lemma entry_core_add_cat r e : entry_core (add_cat r e) = entry_core e.
Proof. by destruct e. Qed.

Lemma entry_chars_add_cat r e : entry_chars (add_cat r e) = entry_chars e.
Proof. by destruct e. Qed.

Lemma entry_chars_add_char c e : entry_chars (add_char c e) = {[c]} ∪ entry_chars e.
Proof. by destruct e. Qed.

(** The loop over [data.chars] adds to the characters of the entry
    [name] the characters mapped to [name], and changes nothing else. *)
Lemma get_load_chars (cs : JsObject.t string) (st : store) n :
  entry_core <$> JsObject.get n (load_chars cs st) = entry_core <$> JsObject.get n st ∧
  ∀ e', JsObject.get n (load_chars cs st) = Some e' →
        ∃ e, JsObject.get n st = Some e ∧
             ∀ c, c ∈ entry_chars e' ↔ c ∈ entry_chars e ∨ (c, n) ∈ cs.
Proof.
  unfold load_chars. revert st.
  induction cs as [|[char name] cs IH]; intros st; cbn [fold_left].
  - split; [done|]. intros e' He'. exists e'. split; [done|]. intros c.
    split; [by left|]. intros [H|H]; [done|]. by apply elem_of_nil in H.
  - set (st1 := match JsObject.get name st with
                | Some icon => JsObject.replace name (add_char char icon) st
                | None => st
                end).
    assert (Hst1 : JsObject.get n st1 =
                   (if String.eqb n name then add_char char else id) <$> JsObject.get n st).
    { unfold st1. destruct (JsObject.get name st) as [icon|] eqn:Hg.
      - rewrite get_replace. destruct (String.eqb n name) eqn:E.
        + apply String.eqb_eq in E as ->. by rewrite Hg.
        + by destruct (JsObject.get n st).
      - destruct (String.eqb n name) eqn:E.
        + apply String.eqb_eq in E as ->. by rewrite Hg.
        + by destruct (JsObject.get n st). }
    destruct (IH st1) as [IHcore IHchars]. split.
    + rewrite IHcore, Hst1. destruct (JsObject.get n st) as [e|]; [|done].
      cbn [fmap option_fmap option_map]. f_equal.
      destruct (String.eqb n name); [apply entry_core_add_char|done].
    + intros e' He'. destruct (IHchars e' He') as (e1 & He1 & Hcs).
      rewrite Hst1 in He1. destruct (JsObject.get n st) as [e|]; [|done].
      injection He1 as <-. exists e. split; [done|]. intros c. rewrite Hcs.
      rewrite elem_of_cons. destruct (String.eqb n name) eqn:E.
      * apply String.eqb_eq in E as ->. rewrite entry_chars_add_char.
        rewrite elem_of_union, elem_of_singleton. split.
        -- intros [[->|H]|H]; [right; by left|by left|right; by right].
        -- intros [H|[[= -> ]|H]]; [left; by right|left; by left|by right].
      * apply String.eqb_neq in E. cbn [id]. split.
        -- intros [H|H]; [by left|right; by right].
        -- intros [H|[[= _ Hn]|H]]; [by left|done|by right].
Qed.

(** The category loop of [load] touches the categories of icons only. *)
Lemma get_load_category s decl k :
  ∃ f, (∀ e, entry_core (f e) = entry_core e ∧ entry_chars (f e) = entry_chars e) ∧
       JsObject.get k (entries (load_category s decl)) = f <$> JsObject.get k (entries s).
Proof.
  destruct decl as [t names]. rewrite load_category_unfold. cbn [entries].
  rewrite get_fold_add_category.
  destruct (bool_decide (k ∈ names)).
  - exists (add_cat (fresh (dom (heap s)))). split; [|done].
    intros e. split; [apply entry_core_add_cat|apply entry_chars_add_cat].
  - exists id. split; [done|done].
Qed.

Lemma get_load_categories ds s k :
  ∃ f, (∀ e, entry_core (f e) = entry_core e ∧ entry_chars (f e) = entry_chars e) ∧
       JsObject.get k (entries (load_categories ds s)) = f <$> JsObject.get k (entries s).
Proof.
  destruct ds as [ds|]; cbn [load_categories].
  2:{ exists id. split; [done|]. by destruct (JsObject.get k (entries s)). }
  revert s.
  induction ds as [|decl ds IH]; intros s; cbn [fold_left].
  - exists id. split; [done|]. by destruct (JsObject.get k (entries s)).
  - destruct (IH (load_category s decl)) as (f & Hf & ->).
    destruct (get_load_category s decl k) as (g & Hg & ->).
    exists (f ∘ g). split.
    + intros e. cbn [compose]. destruct (Hf (g e)) as [-> ->]. apply Hg.
    + by destruct (JsObject.get k (entries s)).
Qed.

Section LoadEntries.

Variable filterProps : props → props → bool → props.
Variables defaultIconDimensions defaultCommonProps : props.

Abbreviation load_doc := (load filterProps defaultIconDimensions defaultCommonProps).

(** The entry [load] creates for an icon and for an alias of the
    document. *)
Abbreviation icon_entry data item :=
  (Icon (i_body item)
        (filterProps
           (i_props item ∪ filterProps (j_props data) defaultIconDimensions true)
           defaultCommonProps true)
        ∅ ∅).

Abbreviation alias_entry item :=
  (if bool_decide (filterProps (a_props item) defaultCommonProps false = ∅)
   then Alias (a_parent item) ∅
   else Variation (a_parent item)
          (filterProps (a_props item) defaultCommonProps false) ∅).

Lemma get_load_icons defaultProps icons n :
  JsObject.wf icons →
  JsObject.get n (load_icons filterProps defaultCommonProps defaultProps icons) =
    (fun item =>
       Icon (i_body item)
            (filterProps (i_props item ∪ defaultProps) defaultCommonProps true) ∅ ∅)
      <$> JsObject.get n icons.
Proof.
  intros Hwf. unfold load_icons.
  rewrite (get_fold_set
             (fun item =>
                Icon (i_body item)
                     (filterProps (i_props item ∪ defaultProps) defaultCommonProps true)
                     ∅ ∅) icons [] n Hwf).
  by destruct (JsObject.get n icons).
Qed.

Lemma get_load_aliases als (st : store) n :
  JsObject.get n (load_aliases filterProps defaultCommonProps (Some als) st) =
    match JsObject.get n st with
    | Some e => Some e
    | None => (fun item => alias_entry item) <$> JsObject.get n als
    end.
Proof.
  cbn [load_aliases]. revert st.
  induction als as [|[name item] als IH]; intros st; cbn [fold_left].
  - by destruct (JsObject.get n st).
  - rewrite IH. cbn [JsObject.get].
    destruct (String.eqb n name) eqn:E.
    + apply String.eqb_eq in E as ->.
      destruct (JsObject.get name st) as [e|] eqn:Hg; [by rewrite Hg|].
      cbn [fmap option_fmap option_map].
      destruct (bool_decide _); by rewrite get_set_eq.
    + apply String.eqb_neq in E.
      destruct (JsObject.get name st) as [e|] eqn:Hg; [done|].
      destruct (bool_decide _); by rewrite get_set_ne.
Qed.

(** Before the loop over [data.chars] no entry holds a character. *)
Lemma load_aliases_no_chars defaultProps icons aliases k e :
  JsObject.get k (load_aliases filterProps defaultCommonProps aliases
                    (load_icons filterProps defaultCommonProps defaultProps icons))
    = Some e →
  entry_chars e = ∅.
Proof.
  assert (Hicons : ∀ k e,
            JsObject.get k (load_icons filterProps defaultCommonProps defaultProps icons)
              = Some e → entry_chars e = ∅).
  { unfold load_icons.
    assert (H0 : ∀ k e, JsObject.get k ([] : store) = Some e → entry_chars e = ∅) by done.
    revert H0. generalize ([] : store).
    induction icons as [|[name item] icons IH]; intros st Hst; cbn [fold_left]; [done|].
    apply IH. intros k' e'. rewrite get_set.
    destruct (String.eqb k' name); [by intros [= <-]|apply Hst]. }
  destruct aliases as [als|]; [|apply Hicons].
  rewrite get_load_aliases.
  destruct (JsObject.get k (load_icons _ _ _ _)) as [e0|] eqn:Hg.
  - intros [= <-]. by eapply Hicons.
  - destruct (JsObject.get k als) as [item|]; [|done].
    cbn [fmap option_fmap option_map]. intros [= <-]. by destruct (bool_decide _).
Qed.

Lemma entries_of_load data :
  entries (load_doc data) =
    entries (load_categories (j_categories data)
               (mkIconSet (j_prefix data)
                  (match j_chars data with
                   | Some cs =>
                       load_chars cs
                         (load_aliases filterProps defaultCommonProps (j_aliases data)
                            (load_icons filterProps defaultCommonProps
                               (filterProps (j_props data) defaultIconDimensions true)
                               (j_icons data)))
                   | None =>
                       load_aliases filterProps defaultCommonProps (j_aliases data)
                         (load_icons filterProps defaultCommonProps
                            (filterProps (j_props data) defaultIconDimensions true)
                            (j_icons data))
                   end) ∅ [] [] [])).
Proof. unfold load. by destruct (import_legacy (j_themes data)). Qed.

(** X9. After [load], every icon of the document is an Icon entry with
    its body and filtered properties, whatever the document says of
    aliases, characters and categories; an alias of the document is an
    entry only if no icon has its name, an Alias when filtering leaves
    it no property and a Variation otherwise, its parent not being
    looked up; there is no other entry.  So [resolve] gives every icon
    of the document with its body. *)
Theorem load_entries data n :
  JsObject.wf (j_icons data) →
  entry_core <$> JsObject.get n (entries (load_doc data)) =
    match JsObject.get n (j_icons data) with
    | Some item => Some (icon_entry data item)
    | None =>
        match j_aliases data ≫= JsObject.get n with
        | Some item => Some (alias_entry item)
        | None => None
        end
    end ∧
  ∀ item, JsObject.get n (j_icons data) = Some item →
          resolve (entries (load_doc data)) n =
            Some (mkResolved (i_body item)
                    (filterProps
                       (i_props item ∪
                          filterProps (j_props data) defaultIconDimensions true)
                       defaultCommonProps true)).
Proof.
  intros Hwf.
  assert (Hcore : entry_core <$> JsObject.get n (entries (load_doc data)) =
    match JsObject.get n (j_icons data) with
    | Some item => Some (icon_entry data item)
    | None =>
        match j_aliases data ≫= JsObject.get n with
        | Some item => Some (alias_entry item)
        | None => None
        end
    end).
  { rewrite entries_of_load.
    destruct (get_load_categories (j_categories data)
                (mkIconSet (j_prefix data)
                   (match j_chars data with
                    | Some cs =>
                        load_chars cs
                          (load_aliases filterProps defaultCommonProps (j_aliases data)
                             (load_icons filterProps defaultCommonProps
                                (filterProps (j_props data) defaultIconDimensions true)
                                (j_icons data)))
                    | None =>
                        load_aliases filterProps defaultCommonProps (j_aliases data)
                          (load_icons filterProps defaultCommonProps
                             (filterProps (j_props data) defaultIconDimensions true)
                             (j_icons data))
                    end) ∅ [] [] []) n) as (f & Hf & ->).
    cbn [entries].
    set (st1 := load_aliases _ _ _ _).
    assert (H1 : entry_core <$> JsObject.get n st1 =
      match JsObject.get n (j_icons data) with
      | Some item => Some (icon_entry data item)
      | None =>
          match j_aliases data ≫= JsObject.get n with
          | Some item => Some (alias_entry item)
          | None => None
          end
      end).
    { unfold st1. destruct (j_aliases data) as [als|].
      - rewrite get_load_aliases, get_load_icons by done.
        destruct (JsObject.get n (j_icons data)) as [item|]; [done|].
        cbn [fmap option_fmap option_map mbind option_bind].
        destruct (JsObject.get n als) as [a|]; [|done].
        cbn [fmap option_fmap option_map]. by destruct (bool_decide _).
      - cbn [load_aliases]. rewrite get_load_icons by done.
        by destruct (JsObject.get n (j_icons data)). }
    rewrite <- H1.
    assert (H2 : entry_core <$>
                   JsObject.get n (match j_chars data with
                                   | Some cs => load_chars cs st1
                                   | None => st1
                                   end) = entry_core <$> JsObject.get n st1).
    { destruct (j_chars data) as [cs|]; [apply get_load_chars|done]. }
    rewrite <- H2.
    match goal with |- context [f <$> ?x] => destruct x as [e|] end; [|done].
    cbn [fmap option_fmap option_map]. f_equal. apply Hf. }
  split; [done|].
  intros item Hitem. rewrite Hitem in Hcore.
  destruct (JsObject.get n (entries (load_doc data))) as [e|] eqn:Hg; [|done].
  injection Hcore as Hcore.
  destruct e as [b ps cs cats|p cs|p vp cs]; [|done..].
  injection Hcore as -> ->.
  unfold resolve. change enough_fuel with 8%nat.
  rewrite (getIcon_icon 7 _ n 0 _ _ cs cats Hg) by depth_ok. done.
Qed.

(** X10. After [load] of a document with a character map, [chars()]
    gives that map back, restricted to the characters whose name is an
    entry: a character is mapped to a name exactly when the document
    maps it to that name and the name is an entry. *)
Theorem load_chars_round_trip data :
  JsObject.wf (default [] (j_chars data)) →
  ∃ m, chars (entries (load_doc data)) None = Returned m ∧
       ∀ c n, m !! c = Some n ↔
              JsObject.get c (default [] (j_chars data)) = Some n ∧
              is_Some (JsObject.get n (entries (load_doc data))).
Proof.
  intros Hwf.
  assert (Hchars : ∀ n e, JsObject.get n (entries (load_doc data)) = Some e →
                          ∀ c, c ∈ entry_chars e ↔
                               JsObject.get c (default [] (j_chars data)) = Some n).
  { intros n e. rewrite entries_of_load.
    match goal with
    | |- context [load_categories ?ds ?s] =>
        destruct (get_load_categories ds s n) as (f & Hf & ->)
    end.
    cbn [entries].
    destruct (JsObject.get n _) as [e2|] eqn:Hg2; [|done].
    cbn [fmap option_fmap option_map]. intros [= <-] c.
    rewrite (proj2 (Hf e2)).
    destruct (j_chars data) as [cs|]; cbn [default] in *.
    - destruct (proj2 (get_load_chars cs _ n) e2 Hg2) as (e1 & He1 & Hcs).
      rewrite Hcs. rewrite (load_aliases_no_chars _ _ _ _ _ He1).
      split.
      + intros [H|H]; [by apply not_elem_of_empty in H|]. by apply elem_get_wf.
      + intros H. right. by apply get_Some_elem.
    - rewrite (load_aliases_no_chars _ _ _ _ _ Hg2). split; [|done].
      intros H. by apply not_elem_of_empty in H. }
  destruct (chars (entries (load_doc data)) None) as [m|] eqn:Hm.
  2:{ by apply chars_no_argument in Hm. }
  exists m. split; [done|].
  unfold chars in Hm.
  assert (Hlook : ∀ c, m !! c =
            last (List.filter (holds_char (entries (load_doc data)) c)
                    (JsObject.keys (entries (load_doc data))))).
  { intros c. rewrite (proj2 (chars_loop_spec _ _ ∅) m Hm c).
    by destruct (last _). }
  assert (Hfwd : ∀ c n, m !! c = Some n →
            JsObject.get c (default [] (j_chars data)) = Some n ∧
            is_Some (JsObject.get n (entries (load_doc data)))).
  { intros c n Hc. rewrite Hlook in Hc.
    apply last_filter_Some in Hc as [Hin Hholds]. unfold holds_char in Hholds.
    destruct (JsObject.get n (entries (load_doc data))) as [e|] eqn:Hg; [|done].
    apply bool_decide_eq_true in Hholds. split; [|by eexists].
    by apply (Hchars n e Hg c). }
  intros c n. split; [apply Hfwd|].
  intros [Hc [e Hg]].
  destruct (m !! c) as [n'|] eqn:Hmc.
  - destruct (Hfwd c n' Hmc) as [Hc' _]. congruence.
  - rewrite Hlook in Hmc. rewrite last_filter_None in Hmc.
    specialize (Hmc n (get_Some_key _ _ _ Hg)). unfold holds_char in Hmc.
    rewrite Hg in Hmc. apply bool_decide_eq_false in Hmc.
    exfalso. apply Hmc. by apply (Hchars n e Hg c).
Qed.

End LoadEntries.

(** ** Categories *)

Lemma find_title_alter (h : gmap nat IconCategory) f r t cats :
  (∀ c, title (f c) = title c) →
  find_title (alter f r h) t cats = find_title h t cats.
Proof.
  intros Hf. induction cats as [|r' cats IH]; [done|]. cbn [find_title].
  destruct (decide (r' = r)) as [->|Hne].
  - rewrite lookup_alter_eq. destruct (h !! r) as [c|]; cbn [fmap option_fmap option_map]; [|done].
    rewrite Hf. by rewrite IH.
  - rewrite lookup_alter_ne by done. by rewrite IH.
Qed.

Lemma find_title_fresh (h : gmap nat IconCategory) t cats r :
  h !! r = None →
  find_title h t cats = None →
  find_title (<[r := mkCategory t 0]> h) t (cats ++ [r]) = Some r.
Proof.
  intros Hr. induction cats as [|r' cats IH]; cbn [app find_title].
  - intros _. rewrite lookup_insert_eq. cbn [title]. by rewrite String.eqb_refl.
  - destruct (decide (r' = r)) as [->|Hne].
    + intros _. rewrite lookup_insert_eq. cbn [title]. by rewrite String.eqb_refl.
    + rewrite lookup_insert_ne by done.
      destruct (h !! r') as [c|]; [|done].
      by destruct (String.eqb (title c) t).
Qed.

Lemma find_title_fresh_other (h : gmap nat IconCategory) t t' cats r :
  h !! r = None → t' ≠ t →
  find_title (<[r := mkCategory t 0]> h) t' (cats ++ [r]) = find_title h t' cats.
Proof.
  intros Hr Ht. induction cats as [|r' cats IH]; cbn [app find_title].
  - rewrite lookup_insert_eq. cbn [title].
    by rewrite (proj2 (String.eqb_neq t t')).
  - destruct (decide (r' = r)) as [->|Hne].
    + rewrite lookup_insert_eq, Hr. cbn [title].
      by rewrite (proj2 (String.eqb_neq t t')).
    + rewrite lookup_insert_ne by done.
      destruct (h !! r') as [c|]; [|done].
      by destruct (String.eqb (title c) t').
Qed.

Lemma fresh_heap (h : gmap nat IconCategory) : h !! fresh (dom h) = None.
Proof. apply not_elem_of_dom, is_fresh. Qed.

(** X11. [findCategory(title, false)] never changes the icon set.
    [findCategory(title, true)] always returns a category with that
    title; once it has run, looking the title up again, with either
    flag, returns the same category and changes nothing, and the
    category found for any other title is the one found before. *)
Theorem findCategory_registers (s : IconSet) t :
  let r := fst (findCategory s t true) in
  let s' := snd (findCategory s t true) in
  snd (findCategory s t false) = s ∧
  (∃ a c, r = Some a ∧ heap s' !! a = Some c ∧ title c = t ∧ a ∈ categories s') ∧
  entries s' = entries s ∧
  (∀ add, findCategory s' t add = (r, s')) ∧
  (∀ t', t' ≠ t →
         fst (findCategory s' t' false) = fst (findCategory s t' false)).
Proof.
  cbn zeta. unfold findCategory.
  destruct (find_title (heap s) t (categories s)) as [a|] eqn:Hfind.
  - cbn [fst snd]. split; [done|]. split.
    { destruct (find_title_Some _ _ _ _ Hfind) as (Hin & c & Hc & Ht).
      by exists a, c. }
    split; [done|]. split.
    + intros add. by rewrite Hfind.
    + done.
  - cbn [fst snd heap categories with_categories entries].
    split; [done|]. split.
    { exists (fresh (dom (heap s))), (mkCategory t 0).
      rewrite lookup_insert_eq. split; [done|]. split; [done|]. split; [done|].
      apply elem_of_app. right. left. }
    split; [done|]. split.
    + intros add. by rewrite (find_title_fresh _ t _ _ (fresh_heap (heap s)) Hfind).
    + intros t' Ht'.
      rewrite (find_title_fresh_other _ t t' _ _ (fresh_heap (heap s)) Ht').
      by destruct (find_title (heap s) t' (categories s)).
Qed.

(** X12. [listCategory(category)], for a category object or the title
    of a registered category: the names it finds are the Icon entries
    that are not hidden and hold the category.  It writes their number
    into the [count] of the category, returns them when there is one at
    least, otherwise returns null and removes the category from the
    index.  It returns null without any change for a title that is not
    registered, and it never changes an entry or another category. *)
Theorem listCategory_effect (s : IconSet) (category : nat + string) :
  let result := listCategory s category in
  let item := match category with
              | inl a => Some a
              | inr t => find_title (heap s) t (categories s)
              end in
  (item = None → result = (None, s)) ∧
  (∀ a, item = Some a →
        let names := members (entries s) a in
        (∀ name, name ∈ names ↔
                 ∃ b ps cs cats,
                   (name, Icon b ps cs cats) ∈ entries s ∧
                   is_hidden ps = false ∧ a ∈ cats) ∧
        fst result = (if (length names =? 0)%nat then None else Some names) ∧
        entries (snd result) = entries s ∧
        prefixes (snd result) = prefixes s ∧ suffixes (snd result) = suffixes s ∧
        heap (snd result) !! a =
          (fun c => mkCategory (title c) (Z.of_nat (length names))) <$> heap s !! a ∧
        (∀ a', a' ≠ a → heap (snd result) !! a' = heap s !! a') ∧
        (∀ a', a' ∈ categories (snd result) ↔
               a' ∈ categories s ∧ (a' = a → names ≠ []))).
Proof.
  cbn zeta. unfold listCategory.
  assert (Hitem : match category with
                  | inl r => Some r
                  | inr t => fst (findCategory s t false)
                  end =
                  match category with
                  | inl a => Some a
                  | inr t => find_title (heap s) t (categories s)
                  end).
  { destruct category as [a|t]; [done|]. unfold findCategory.
    by destruct (find_title (heap s) t (categories s)). }
  rewrite Hitem. clear Hitem.
  destruct (match category with
            | inl a => Some a
            | inr t => find_title (heap s) t (categories s)
            end) as [a|]; [|split; [done|by intros a [=]]].
  split; [done|]. intros ? [= <-].
  unfold _filter. rewrite filter_loop_in_category.
  split.
  { intros name. unfold members. rewrite list_elem_of_fmap. split.
    - intros ([k e] & -> & Hin). apply list_elem_of_In, filter_In in Hin as [Hin Hv].
      apply list_elem_of_In in Hin. unfold visible_member in Hv. cbn [fst snd] in *.
      destruct e as [b ps cs cats| |]; cbn [in_category fst] in Hv; [|done..].
      apply andb_true_iff in Hv as [Hh Hc].
      exists b, ps, cs, cats. split; [done|]. split.
      + by apply negb_true_iff in Hh.
      + by apply bool_decide_eq_true in Hc.
    - intros (b & ps & cs & cats & Hin & Hh & Hc).
      exists (name, Icon b ps cs cats). split; [done|].
      apply list_elem_of_In, filter_In. split; [by apply list_elem_of_In|].
      unfold visible_member. cbn [in_category fst snd].
      rewrite Hh. cbn [negb andb]. by apply bool_decide_eq_true. }
  destruct (Nat.eqb_spec (length (members (entries s) a)) 0) as [Hz|Hnz];
    cbn [fst snd entries prefixes suffixes heap categories with_categories].
  - split; [done|]. split; [done|]. split; [done|]. split; [done|].
    split; [by rewrite lookup_alter_eq|]. split.
    + intros a' Ha'. by rewrite lookup_alter_ne.
    + intros a'. rewrite elem_of_set_delete.
      apply length_zero_iff_nil in Hz. rewrite Hz. split.
      * intros [H1 H2]. split; [done|]. intros ->. done.
      * intros [H1 H2]. split; [done|]. intros ->. by apply H2.
  - split; [done|]. split; [done|]. split; [done|]. split; [done|].
    split; [by rewrite lookup_alter_eq|]. split.
    + intros a' Ha'. by rewrite lookup_alter_ne.
    + intros a'. split; [|tauto]. intros H. split; [done|].
      intros _ Hnil. rewrite Hnil in Hnz. done.
Qed.

Lemma findCategory_found (s : IconSet) t add a :
  fst (findCategory s t add) = Some a →
  find_title (heap (snd (findCategory s t add))) t
             (categories (snd (findCategory s t add))) = Some a.
Proof.
  unfold findCategory.
  destruct (find_title (heap s) t (categories s)) as [a'|] eqn:Hfind.
  - by intros [= <-].
  - destruct add; [|done]. intros [= <-]. cbn [snd heap categories with_categories].
    by apply find_title_fresh; [apply fresh_heap|].
Qed.

Lemma findCategory_entries (s : IconSet) t add :
  entries (snd (findCategory s t add)) = entries s.
Proof.
  unfold findCategory. destruct (find_title _ _ _); [done|]. by destruct add.
Qed.

(** X13. A successful [toggleCategory] is undone by the opposite call:
    that call returns true and puts the icon and the count of the
    category back.  The icon set is then as the first call found it,
    except that a category the first call created stays registered. *)
Theorem toggleCategory_undo (s : IconSet) iconName t (add : bool) :
  fst (toggleCategory s iconName t add) = true →
  toggleCategory (snd (toggleCategory s iconName t add)) iconName t (negb add)
    = (true, snd (findCategory s t add)).
Proof.
  unfold toggleCategory at 1 3.
  pose proof (findCategory_found s t add) as Hfound.
  pose proof (findCategory_entries s t add) as Hent.
  destruct (findCategory s t add) as [categoryItem s1]. cbn [fst snd] in *.
  destruct (JsObject.get iconName (entries s)) as [[body ps cs cats| |]|] eqn:Hg; [|done..].
  destruct categoryItem as [a|]; [|done].
  specialize (Hfound a eq_refl).
  destruct (negb (Bool.eqb (bool_decide (a ∈ cats)) add)) eqn:Hdiff; [|done].
  intros _. cbn [snd].
  set (h := alter (fun c => set_count (count c + (if add then 1 else -1))%Z c) a (heap s1)).
  set (cats' := if add then {[a]} ∪ cats else cats ∖ {[a]}).
  unfold toggleCategory, findCategory.
  cbn [heap categories entries with_entries with_categories].
  assert (Hh : find_title h t (categories s1) = Some a).
  { unfold h. by rewrite find_title_alter. }
  rewrite Hh. rewrite Hent, get_replace, String.eqb_refl, Hg.
  cbn [fmap option_fmap option_map].
  assert (Hmem : bool_decide (a ∈ cats) = negb add).
  { apply negb_true_iff, Bool.eqb_false_iff in Hdiff.
    destruct (bool_decide (a ∈ cats)), add; done. }
  assert (Hmem' : bool_decide (a ∈ cats') = add).
  { unfold cats'. destruct add; cbn [negb] in Hmem.
    - apply bool_decide_eq_true. apply elem_of_union. left. by apply elem_of_singleton.
    - apply bool_decide_eq_false. rewrite elem_of_difference, elem_of_singleton. tauto. }
  rewrite Hmem'.
  assert (Hneq : negb (Bool.eqb add (negb add)) = true) by (by destruct add).
  rewrite Hneq. f_equal.
  cbn [heap categories entries prefixes suffixes prefix with_entries with_categories].
  assert (Hheap : alter (fun c => set_count (count c + (if negb add then 1 else -1))%Z c)
                        a h = heap s1).
  { unfold h. apply map_eq. intros i.
    destruct (decide (i = a)) as [->|Hi].
    - rewrite !lookup_alter_eq. destruct (heap s1 !! a) as [[t0 n]|]; [|done].
      cbn [fmap option_fmap option_map]. unfold set_count. cbn [title count].
      do 2 f_equal. destruct add; cbn [negb]; lia.
    - by rewrite !lookup_alter_ne. }
  assert (Hcats : (if negb add then {[a]} ∪ cats' else cats' ∖ {[a]}) = cats).
  { unfold cats'. destruct add; cbn [negb] in *.
    - apply bool_decide_eq_false in Hmem. apply set_eq. intros x.
      rewrite elem_of_difference, elem_of_union, elem_of_singleton.
      split; [tauto|]. intros Hx. split; [by right|]. by intros ->.
    - apply bool_decide_eq_true in Hmem. apply set_eq. intros x.
      rewrite elem_of_union, elem_of_difference, elem_of_singleton.
      destruct (decide (x = a)) as [->|]; tauto. }
  rewrite Hheap, Hcats, replace_replace.
  rewrite (replace_same _ _ _ Hg). rewrite <- Hent. by destruct s1.
Qed.

(** ** count, list and the themes *)

(** The names [count] counts. *)
Lemma filter_loop_counted (all todo : store) :
  filter_loop all counted todo tt
    = (map fst (List.filter (theme_candidate all) todo), tt).
Proof.
  induction todo as [|[key item] todo IH]; [done|].
  cbn [filter_loop List.filter]. unfold theme_candidate at 1. cbn [fst snd].
  destruct item as [b ps cs cats|p cs|p vp cs].
  - unfold counted at 1. rewrite IH.
    by destruct (negb (not_visible (Icon b ps cs cats) None)).
  - destruct (resolve all key) as [icon|]; [|done].
    unfold counted at 1. rewrite IH. done.
  - destruct (resolve all key) as [icon|]; [|done].
    unfold counted at 1. rewrite IH.
    by destruct (negb (not_visible (Variation p vp cs) (Some icon))).
Qed.

Lemma checkTheme_buckets (localeCompare : string → string → Z)
    (s : IconSet) (isPrefix : bool) :
  let keys := sortThemeKeys localeCompare
                (JsObject.keys (if isPrefix then prefixes s else suffixes s)) in
  invalid (checkTheme localeCompare s isPrefix)
    = map fst (List.filter (theme_unmatched (entries s) isPrefix keys) (entries s)) ∧
  ∀ k, valid (checkTheme localeCompare s isPrefix) !! k =
         if bool_decide (k ∈ keys)
         then Some (map fst (List.filter (theme_matched (entries s) isPrefix keys k)
                               (entries s)))
         else None.
Proof.
  cbn zeta.
  set (keys := sortThemeKeys localeCompare _).
  unfold checkTheme, _filter. fold keys.
  destruct (filter_loop_theme (entries s) isPrefix keys (entries s)
              (fold_left (fun v key => <[key := []]> v) keys ∅)) as [H1 H2].
  destruct (filter_loop _ _ _ _) as [names v]. cbn [fst snd] in *.
  split; [done|]. intros k. cbn [valid]. rewrite H2, empty_buckets_lookup.
  destruct (bool_decide (k ∈ keys)); [done|by rewrite lookup_empty].
Qed.

Lemma sum_one_key (keys : list string) (f : string → nat) k0 :
  NoDup keys → k0 ∈ keys →
  sum_list_with (fun k => ((if bool_decide (k0 = k) then 1 else 0) + f k)%nat) keys
    = S (sum_list_with f keys).
Proof.
  induction keys as [|k keys IH]; intros Hnd Hin; [by apply elem_of_nil in Hin|].
  apply NoDup_cons in Hnd as [Hk Hnd]. cbn [sum_list_with].
  destruct (decide (k0 = k)) as [->|Hne].
  - rewrite bool_decide_eq_true_2 by done.
    assert (H0 : sum_list_with
                   (fun k' => ((if bool_decide (k = k') then 1 else 0) + f k')%nat) keys
                 = sum_list_with f keys).
    { clear IH Hin Hnd. induction keys as [|k' keys IH]; [done|].
      cbn [sum_list_with]. rewrite IH.
      - rewrite bool_decide_eq_false_2; [done|]. intros ->. apply Hk. left.
      - intros H. apply Hk. by right. }
    rewrite H0. lia.
  - rewrite bool_decide_eq_false_2 by done.
    apply elem_of_cons in Hin as [?|Hin]; [done|]. rewrite IH by done. lia.
Qed.

Lemma sum_no_key (keys : list string) (f g : string → nat) :
  (∀ k, k ∈ keys → f k = g k) → sum_list_with f keys = sum_list_with g keys.
Proof.
  induction keys as [|k keys IH]; intros H; [done|]. cbn [sum_list_with].
  rewrite (H k) by left. rewrite IH; [done|]. intros k' Hk'. apply H. by right.
Qed.

(** Every candidate is unmatched or matched by one key. *)
Lemma candidates_split (all : store) isPrefix keys (todo : store) :
  NoDup keys →
  length (List.filter (theme_candidate all) todo) =
    (length (List.filter (theme_unmatched all isPrefix keys) todo) +
     sum_list_with
       (fun k => length (List.filter (theme_matched all isPrefix keys k) todo)) keys)%nat.
Proof.
  intros Hnd. induction todo as [|[name item] todo IH].
  - cbn [List.filter length]. induction keys as [|k keys IHk]; [done|].
    cbn [sum_list_with]. apply NoDup_cons in Hnd as [_ Hnd]. by rewrite <- IHk.
  - rewrite (sum_no_key keys
               (fun k => length (List.filter (theme_matched all isPrefix keys k)
                                   ((name, item) :: todo)))
               (fun k => ((if bool_decide (theme_candidate all (name, item) = true ∧
                                           first_match isPrefix name keys = Some k)
                           then 1 else 0) +
                          length (List.filter (theme_matched all isPrefix keys k)
                                    todo))%nat)).
    2:{ intros k _. cbn [List.filter]. unfold theme_matched at 1. cbn [fst].
        destruct (theme_candidate all (name, item)); cbn [andb].
        - destruct (decide (first_match isPrefix name keys = Some k)) as [Hk|Hk].
          + rewrite (bool_decide_eq_true_2 _ Hk). by rewrite bool_decide_eq_true_2.
          + rewrite (bool_decide_eq_false_2 _ Hk).
            rewrite bool_decide_eq_false_2; [done|]. by intros [_ ?].
        - rewrite bool_decide_eq_false_2; [done|]. by intros [? _]. }
    set (f := fun k => ((if bool_decide (theme_candidate all (name, item) = true ∧
                                         first_match isPrefix name keys = Some k)
                         then 1 else 0) +
                        length (List.filter (theme_matched all isPrefix keys k)
                                  todo))%nat).
    cbn [List.filter]. unfold theme_unmatched at 1. cbn [fst].
    destruct (theme_candidate all (name, item)) eqn:Hc; cbn [andb].
    + destruct (first_match isPrefix name keys) as [k0|] eqn:Hfm; cbn [is_none length].
      * rewrite IH.
        rewrite (sum_no_key keys f
                   (fun k => ((if bool_decide (k0 = k) then 1 else 0) +
                              length (List.filter (theme_matched all isPrefix keys k)
                                        todo))%nat)).
        -- rewrite sum_one_key; [lia|done|by eapply first_match_elem].
        -- intros k _. unfold f. f_equal.
           destruct (decide (k0 = k)) as [->|Hne].
           ++ by rewrite !bool_decide_eq_true_2.
           ++ rewrite (bool_decide_eq_false_2 (k0 = k)) by done.
              rewrite bool_decide_eq_false_2; [done|]. intros [_ [= ?]]. done.
      * rewrite IH.
        rewrite (sum_no_key keys f
                   (fun k => length (List.filter (theme_matched all isPrefix keys k)
                                       todo))).
        -- lia.
        -- intros k _. unfold f. rewrite bool_decide_eq_false_2; [done|]. by intros [_ ?].
    + rewrite IH.
      rewrite (sum_no_key keys f
                 (fun k => length (List.filter (theme_matched all isPrefix keys k)
                                     todo))); [done|].
      intros k _. unfold f. rewrite bool_decide_eq_false_2; [done|]. by intros [? _].
Qed.

Lemma sum_list_with_perm {A} (f : A → nat) (l1 l2 : list A) :
  l1 ≡ₚ l2 → sum_list_with f l1 = sum_list_with f l2.
Proof.
  induction 1 as [|x l1 l2 _ IH|x y l|l1 l2 l3 _ IH1 _ IH2]; cbn [sum_list_with];
    [done|by rewrite IH|lia|congruence].
Qed.

(** X14. [checkTheme] shares out the icons that [count] counts: the
    number [count()] returns is the number of names in [invalid] plus
    the numbers of names in the buckets of [valid], one bucket for each
    key of the theme table. *)
Theorem checkTheme_shares_count (localeCompare : string → string → Z)
    (s : IconSet) (isPrefix : bool) :
  let table := if isPrefix then prefixes s else suffixes s in
  let result := checkTheme localeCompare s isPrefix in
  JsObject.wf table →
  count_icons (entries s) =
    (length (invalid result) +
     sum_list_with (fun k => length (default [] (valid result !! k)))
                   (JsObject.keys table))%nat.
Proof.
  cbn zeta. intros Hwf.
  set (table := if isPrefix then prefixes s else suffixes s) in *.
  set (keys := sortThemeKeys localeCompare (JsObject.keys table)).
  assert (Hperm : keys ≡ₚ JsObject.keys table) by apply sortThemeKeys_perm.
  assert (Hnd : NoDup keys) by (by rewrite Hperm).
  destruct (checkTheme_buckets localeCompare s isPrefix) as [Hinv Hval].
  fold table in Hinv, Hval. fold keys in Hinv, Hval.
  unfold count_icons, _filter. rewrite filter_loop_counted. cbn [fst].
  rewrite Hinv, !length_map.
  rewrite (candidates_split (entries s) isPrefix keys (entries s) Hnd).
  f_equal. rewrite <- (sum_list_with_perm _ _ _ Hperm).
  apply sum_no_key. intros k Hk. rewrite Hval.
  rewrite (bool_decide_eq_true_2 (k ∈ keys) Hk). simpl. by rewrite length_map.
Qed.

Lemma filter_sublist_impl {A} (f g : A → bool) (l : list A) :
  (∀ x, f x = true → g x = true) →
  sublist (List.filter f l) (List.filter g l).
Proof.
  intros H. induction l as [|x l IH]; [done|]. cbn [List.filter].
  destruct (f x) eqn:Ef.
  - rewrite (H x Ef). by constructor.
  - destruct (g x); [by constructor|done].
Qed.

Lemma filter_sublist_self {A} (f : A → bool) (l : list A) : sublist (List.filter f l) l.
Proof.
  induction l as [|x l IH]; [done|]. cbn [List.filter].
  destruct (f x); by constructor.
Qed.

Lemma filter_all {A} (f : A → bool) (l : list A) :
  (∀ x, f x = true) → List.filter f l = l.
Proof.
  intros H. induction l as [|x l IH]; [done|]. cbn [List.filter].
  by rewrite H, IH.
Qed.

Lemma map_fst_sublist {A} (l1 l2 : list (string * A)) :
  sublist l1 l2 → sublist (map fst l1) (map fst l2).
Proof. induction 1; cbn [map]; by constructor. Qed.

(** X15. [list(types)] gives, in the order of the entries, the names
    of the entries whose type is listed: all the names for the three
    types.  The names [count()] counts are among those [list()] gives
    with its default types, so [count()] never exceeds the length of
    [list()]; an alias is never listed by default nor counted. *)
Theorem list_and_count (entries : store) (types : list IconSetIconType) :
  (∀ name, name ∈ list_names entries types ↔
           ∃ item, (name, item) ∈ entries ∧ entry_type item ∈ types) ∧
  sublist (list_names entries types) (JsObject.keys entries) ∧
  list_names entries [ TypeIcon; TypeVariation; TypeAlias ] = JsObject.keys entries ∧
  sublist (fst (_filter entries counted tt)) (list_names entries default_list_types) ∧
  (count_icons entries ≤ length (list_names entries default_list_types))%nat ∧
  (∀ name p cs, JsObject.wf entries →
                JsObject.get name entries = Some (Alias p cs) →
                (name ∉ list_names entries default_list_types) ∧
                (name ∉ fst (_filter entries counted tt))).
Proof.
  assert (Hsub : sublist (fst (_filter entries counted tt))
                         (list_names entries default_list_types)).
  { unfold _filter. rewrite filter_loop_counted. cbn [fst]. unfold list_names.
    apply map_fst_sublist, filter_sublist_impl. intros [k e] Hc.
    apply bool_decide_eq_true. unfold theme_candidate in Hc. cbn [snd] in *.
    unfold default_list_types.
    destruct e; cbn [entry_type]; [left|done|right; left]. }
  assert (Hlist : ∀ name, name ∈ list_names entries types ↔
           ∃ item, (name, item) ∈ entries ∧ entry_type item ∈ types).
  { intros name. unfold list_names. rewrite elem_of_map_filter.
    split; intros (item & Hin & H); exists item; (split; [done|]); cbn [snd] in *.
    - by apply bool_decide_eq_true in H.
    - by apply bool_decide_eq_true. }
  split; [done|]. split; [|split; [|split; [done|split]]].
  - unfold list_names, JsObject.keys. apply map_fst_sublist, filter_sublist_self.
  - unfold list_names, JsObject.keys. f_equal. apply filter_all.
    intros [k e]. apply bool_decide_eq_true. cbn [snd].
    destruct e; cbn [entry_type]; [left|right; right; left|right; left].
  - unfold count_icons. by apply sublist_length.
  - intros name p cs Hwf Hg.
    assert (Hnot : name ∉ list_names entries default_list_types).
    { unfold list_names. rewrite elem_of_map_filter. intros (item & Hin & H).
      apply (elem_get_wf _ _ _ Hwf) in Hin. rewrite Hg in Hin. injection Hin as <-.
      cbn [snd entry_type] in H. apply bool_decide_eq_true in H.
      unfold default_list_types in H.
      apply elem_of_cons in H as [H|H]; [done|].
      apply elem_of_cons in H as [H|H]; [done|]. by apply elem_of_nil in H. }
    split; [done|]. intros H. apply Hnot. by eapply elem_of_sublist.
Qed.

(** ** Adding icons *)

Section SetIconFacts.

Variable filterProps : props → props → bool → props.
Variable defaultCommonProps : props.

(** X16. [setIcon(name, icon)] always returns true.  The entry of
    [name] is then an Icon with the body of [icon], its filtered
    properties, no character and no category, whatever entry was there
    before; [resolve(name)] gives that body and those properties, and
    every other entry is as it was. *)
Theorem setIcon_then_resolve (entries : store) name (icon : ResolvedIconifyIcon) :
  let r := setIcon filterProps defaultCommonProps entries name icon in
  let ps := filterProps (r_props icon) defaultCommonProps true in
  fst r = true ∧
  JsObject.get name (snd r) = Some (Icon (r_body icon) ps ∅ ∅) ∧
  exists_entry (snd r) name = true ∧
  resolve (snd r) name = Some (mkResolved (r_body icon) ps) ∧
  (∀ k, k ≠ name → JsObject.get k (snd r) = JsObject.get k entries) ∧
  (JsObject.wf entries → JsObject.wf (snd r)).
Proof.
  cbn zeta. unfold setIcon, setItem. cbn [entry_parent fst snd].
  assert (Hg : JsObject.get name
                 (JsObject.set name
                    (Icon (r_body icon)
                       (filterProps (r_props icon) defaultCommonProps true) ∅ ∅)
                    entries)
               = Some (Icon (r_body icon)
                         (filterProps (r_props icon) defaultCommonProps true) ∅ ∅))
    by apply get_set_eq.
  split; [done|]. split; [done|]. split; [|split; [|split]].
  - unfold exists_entry. by rewrite Hg.
  - unfold resolve. change enough_fuel with 8%nat.
    by rewrite (getIcon_icon 7 _ name 0 _ _ ∅ ∅ Hg) by depth_ok.
  - intros k Hk. by apply get_set_ne.
  - apply wf_set.
Qed.

(** X17. [fromSVG(name, svg)] always returns true and makes [name] an
    Icon with the body of [svg].  Over an Icon it keeps the characters
    and the categories and takes the view box as it is; over a
    Variation it keeps the characters only; over an Alias or a free name
    it creates the icon [setIcon] creates, with filtered properties and
    no character.  Every other entry is as it was, and [resolve(name)]
    gives the body of [svg]. *)
Theorem fromSVG_effect (entries : store) name (svg : SVG) :
  let r := fromSVG filterProps defaultCommonProps entries name svg in
  fst r = true ∧
  JsObject.get name (snd r) =
    Some (match JsObject.get name entries with
          | Some (Icon _ _ cs cats) => Icon (getBody svg) (viewBox svg) cs cats
          | Some (Variation _ _ cs) => Icon (getBody svg) (viewBox svg) cs ∅
          | _ => Icon (getBody svg)
                      (filterProps (viewBox svg) defaultCommonProps true) ∅ ∅
          end) ∧
  (∃ ps, resolve (snd r) name = Some (mkResolved (getBody svg) ps)) ∧
  (∀ k, k ≠ name → JsObject.get k (snd r) = JsObject.get k entries) ∧
  JsObject.keys (snd r) ≡ₚ
    (if exists_entry entries name then JsObject.keys entries
     else name :: JsObject.keys entries).
Proof.
  cbn zeta.
  assert (Hset : ∀ e : IconSetIconEntry,
            entry_parent e = None →
            setItem entries name e = (true, JsObject.set name e entries)).
  { intros e He. unfold setItem. by rewrite He. }
  assert (Hkeys : ∀ e : IconSetIconEntry,
            JsObject.keys (JsObject.set name e entries) ≡ₚ
              (if exists_entry entries name then JsObject.keys entries
               else name :: JsObject.keys entries)).
  { intros e. unfold exists_entry, JsObject.set.
    destruct (JsObject.get name entries) as [old|] eqn:Hold; cbn [is_none negb].
    - by rewrite keys_replace.
    - destruct (JsObject.array_index name).
      + apply keys_insert_index.
      + unfold JsObject.keys. rewrite map_app. cbn [map fst].
        symmetry. apply Permutation_cons_append. }
  assert (Hres : ∀ (st : store) b ps cs cats,
            JsObject.get name st = Some (Icon b ps cs cats) →
            ∃ ps', resolve st name = Some (mkResolved b ps')).
  { intros st b ps cs cats Hg. exists ps. unfold resolve. change enough_fuel with 8%nat.
    by rewrite (getIcon_icon 7 _ name 0 _ _ cs cats Hg) by depth_ok. }
  unfold fromSVG, setIcon. cbn [r_body r_props].
  destruct (JsObject.get name entries) as [[b ps cs cats|p cs|p vp cs]|] eqn:Hg;
    rewrite Hset by done; cbn [fst snd];
    (split; [done|]); (split; [apply get_set_eq|]);
    (split; [eapply Hres, get_set_eq|]);
    (split; [intros k Hk; by apply get_set_ne|]); apply Hkeys.
Qed.

End SetIconFacts.

(** ** Resolution after a cascading removal *)

(** X18. A successful [remove(name)] with the cascading policy does
    not change what the other entries resolve to: every name that did
    not depend on [name] resolves as before. *)
Theorem remove_cascade_keeps_resolution (st : store) name n :
  fst (remove st name (RDBool true)) ≠ 0%nat →
  ¬ depends_on st n name →
  resolve (snd (remove st name (RDBool true))) n = resolve st n.
Proof.
  intros Hok Hdep. unfold resolve. by rewrite getIcon_remove_cascade.
Qed.

(** ** The legacy themes *)

Lemma legacy_prefix_key (p k : string) :
  String.eqb (str_last 1 p) "-" = true ∧ str_take (String.length p - 1) p = k
  ↔ p = (k ++ "-")%string.
Proof.
  split.
  - intros [Hl Hk]. apply String.eqb_eq in Hl.
    rewrite <- (str_take_drop (String.length p - 1) p) at 1.
    unfold str_last in Hl. by rewrite Hk, Hl.
  - intros ->. rewrite str_length_app. cbn [String.length].
    replace (String.length k + 1 - 1)%nat with (String.length k) by lia.
    unfold str_last. rewrite str_length_app. cbn [String.length].
    replace (String.length k + 1 - 1)%nat with (String.length k) by lia.
    by rewrite str_drop_app, str_take_app.
Qed.

Lemma legacy_suffix_key (x k : string) :
  String.eqb (str_take 1 x) "-" = true ∧ str_drop 1 x = k
  ↔ x = ("-" ++ k)%string.
Proof.
  rewrite str_app_cons, str_app_nil_l. split.
  - intros [Hl Hk]. apply String.eqb_eq in Hl.
    destruct x as [|c x]; [done|]. cbn in Hl, Hk.
    destruct x; injection Hl as ->; by rewrite <- Hk.
  - intros ->. by destruct k.
Qed.

Lemma get_import_theme pre suf entry k :
  JsObject.get k (fst (import_theme (pre, suf) entry)) =
    (if legacy_prefix_is k entry then Some (t_title (snd entry))
     else JsObject.get k pre) ∧
  JsObject.get k (snd (import_theme (pre, suf) entry)) =
    (if legacy_suffix_is k entry then Some (t_title (snd entry))
     else JsObject.get k suf).
Proof.
  unfold import_theme, legacy_prefix_is, legacy_suffix_is. cbn [fst snd]. split.
  - destruct (t_prefix (snd entry)) as [p|]; [|by rewrite bool_decide_eq_false_2].
    destruct (decide (p = (k ++ "-")%string)) as [Hp|Hp].
    + rewrite bool_decide_eq_true_2 by congruence.
      apply legacy_prefix_key in Hp as [-> ->]. apply get_set_eq.
    + rewrite bool_decide_eq_false_2 by congruence.
      destruct (String.eqb (str_last 1 p) "-") eqn:E; [|done].
      apply get_set_ne. intros ->. apply Hp. by apply legacy_prefix_key.
  - destruct (t_suffix (snd entry)) as [x|]; [|by rewrite bool_decide_eq_false_2].
    destruct (decide (x = ("-" ++ k)%string)) as [Hx|Hx].
    + rewrite bool_decide_eq_true_2 by congruence.
      apply legacy_suffix_key in Hx as [-> ->]. apply get_set_eq.
    + rewrite bool_decide_eq_false_2 by congruence.
      destruct (String.eqb (str_take 1 x) "-") eqn:E; [|done].
      apply get_set_ne. intros ->. apply Hx. by apply legacy_suffix_key.
Qed.

Lemma get_import_themes ts pre suf k :
  JsObject.get k (fst (fold_left import_theme ts (pre, suf))) =
    match last (List.filter (legacy_prefix_is k) ts) with
    | Some entry => Some (t_title (snd entry))
    | None => JsObject.get k pre
    end ∧
  JsObject.get k (snd (fold_left import_theme ts (pre, suf))) =
    match last (List.filter (legacy_suffix_is k) ts) with
    | Some entry => Some (t_title (snd entry))
    | None => JsObject.get k suf
    end.
Proof.
  revert pre suf. induction ts as [|entry ts IH]; intros pre suf; [done|].
  cbn [fold_left List.filter].
  destruct (get_import_theme pre suf entry k) as [Hp Hs].
  destruct (import_theme (pre, suf) entry) as [pre' suf']. cbn [fst snd] in *.
  destruct (IH pre' suf') as [-> ->]. rewrite Hp, Hs. split.
  - destruct (legacy_prefix_is k entry); [|done]. rewrite last_cons.
    by destruct (last (List.filter (legacy_prefix_is k) ts)).
  - destruct (legacy_suffix_is k entry); [|done]. rewrite last_cons.
    by destruct (last (List.filter (legacy_suffix_is k) ts)).
Qed.

Section LoadLegacy.

Variable filterProps : props → props → bool → props.
Variables defaultIconDimensions defaultCommonProps : props.

(** X19. [load] of a document without the field [prefixes]: the table
    of prefixes has the key [k] exactly when a legacy theme has the
    prefix [k] followed by ['-'], and holds the title of the last such
    theme; a legacy prefix that does not end in ['-'] gives no key.
    Likewise, without the field [suffixes], for the suffixes that begin
    with ['-']. *)
Theorem load_legacy_themes data k :
  (j_prefixes data = None →
   JsObject.get k (prefixes (load filterProps defaultIconDimensions
                               defaultCommonProps data)) =
     (fun entry => t_title (snd entry)) <$>
       last (List.filter (legacy_prefix_is k) (default [] (j_themes data)))) ∧
  (j_suffixes data = None →
   JsObject.get k (suffixes (load filterProps defaultIconDimensions
                               defaultCommonProps data)) =
     (fun entry => t_title (snd entry)) <$>
       last (List.filter (legacy_suffix_is k) (default [] (j_themes data)))).
Proof.
  rewrite load_prefixes, load_suffixes. unfold import_legacy.
  destruct (j_themes data) as [ts|]; cbn [default].
  - destruct (get_import_themes ts [] [] k) as [Hp Hs]. split; intros ->; cbn [copy_theme].
    + etrans; [apply Hp|]. by destruct (last _).
    + etrans; [apply Hs|]. by destruct (last _).
  - split; intros ->; done.
Qed.

End LoadLegacy.

(** ** The count of a category *)

Lemma length_filter_replace {A} (f : string * A → bool) (o : JsObject.t A) k old v :
  JsObject.get k o = Some old →
  (length (List.filter f (JsObject.replace k v o)) + (if f (k, old) then 1 else 0) =
   length (List.filter f o) + (if f (k, v) then 1 else 0))%nat.
Proof.
  induction o as [|[k' v'] o IH]; [done|]. cbn [JsObject.get JsObject.replace].
  destruct (String.eqb k k') eqn:E.
  - apply String.eqb_eq in E as <-. intros [= ->]. cbn [List.filter].
    destruct (f (k, old)), (f (k, v)); cbn [length]; lia.
  - intros Hg. specialize (IH Hg). cbn [List.filter].
    destruct (f (k', v')); cbn [length]; lia.
Qed.

(** X20. [toggleCategory] keeps the count of a category equal to the
    number of names [listCategory] finds for it when the icon is not
    hidden.  For a hidden icon the count moves by one while that number
    stays the same: hidden icons do not count for [listCategory]. *)
Theorem toggleCategory_count (s : IconSet) iconName t (add : bool) :
  fst (toggleCategory s iconName t add) = true →
  ∃ a c c' body ps cs cats,
    fst (findCategory s t add) = Some a ∧
    heap (snd (findCategory s t add)) !! a = Some c ∧
    heap (snd (toggleCategory s iconName t add)) !! a = Some c' ∧
    JsObject.get iconName (entries s) = Some (Icon body ps cs cats) ∧
    (count c' - count c = if add then 1 else -1)%Z ∧
    (Z.of_nat (length (members (entries (snd (toggleCategory s iconName t add))) a))
     - Z.of_nat (length (members (entries s) a))
     = if is_hidden ps then 0 else if add then 1 else -1)%Z.
Proof.
  unfold toggleCategory.
  pose proof (findCategory_Some s t add) as Hfound.
  pose proof (findCategory_entries s t add) as Hent.
  destruct (findCategory s t add) as [categoryItem s1]. cbn [fst snd] in *.
  destruct (JsObject.get iconName (entries s)) as [[body ps cs cats| |]|] eqn:Hg; [|done..].
  destruct categoryItem as [a|]; [|done].
  destruct (Hfound a eq_refl) as (c & Hc & _).
  destruct (negb (Bool.eqb (bool_decide (a ∈ cats)) add)) eqn:Hdiff; [|done].
  intros _. cbn [snd heap entries with_entries with_categories].
  exists a, c, (set_count (count c + (if add then 1 else -1)) c), body, ps, cs, cats.
  split; [done|]. split; [done|]. split; [by rewrite lookup_alter_eq, Hc|].
  split; [done|]. split; [unfold set_count; cbn [count]; lia|].
  assert (Hmem : bool_decide (a ∈ cats) = negb add).
  { apply negb_true_iff, Bool.eqb_false_iff in Hdiff.
    destruct (bool_decide (a ∈ cats)), add; done. }
  rewrite Hent. unfold members. rewrite !length_map.
  pose proof (length_filter_replace (visible_member a) (entries s) iconName
                (Icon body ps cs cats)
                (Icon body ps cs (if add then {[a]} ∪ cats else cats ∖ {[a]})) Hg) as Hlen.
  unfold visible_member in Hlen at 2 4. cbn [in_category fst snd] in Hlen.
  rewrite Hmem in Hlen.
  destruct (is_hidden ps); cbn [negb andb] in Hlen; [lia|].
  destruct add; cbn [negb] in Hlen.
  - rewrite bool_decide_eq_true_2 in Hlen
      by (apply elem_of_union; left; by apply elem_of_singleton).
    lia.
  - rewrite bool_decide_eq_false_2 in Hlen
      by (rewrite elem_of_difference, elem_of_singleton; tauto).
    lia.
Qed.

(** ** Characters, written and read *)

(** X21. After a successful [toggleCharacter(iconName, char, add)],
    [chars([iconName])] maps [char] to [iconName] when [add] is true and
    has no key [char] when [add] is false. *)
Theorem toggleCharacter_then_chars (entries : store) iconName char (add : bool) :
  fst (toggleCharacter entries iconName char add) = true →
  ∃ m, chars (snd (toggleCharacter entries iconName char add)) (Some [ iconName ])
         = Returned m ∧
       m !! char = if add then Some iconName else None.
Proof.
  unfold toggleCharacter.
  destruct (JsObject.get iconName entries) as [item|] eqn:Hg; [|done].
  destruct (negb (Bool.eqb (bool_decide (char ∈ entry_chars item)) add)) eqn:Hdiff;
    [|done].
  intros _. cbn [snd chars chars_loop].
  rewrite get_replace, String.eqb_refl, Hg. cbn [fmap option_fmap option_map].
  eexists. split; [reflexivity|].
  rewrite assign_chars_lookup, entry_chars_set_chars, lookup_empty.
  destruct add.
  - rewrite decide_True; [done|]. apply elem_of_union. left. by apply elem_of_singleton.
  - rewrite decide_False; [done|]. rewrite elem_of_difference, elem_of_singleton. tauto.
Qed.

(** ** The theorems at concrete inputs *)

Lemma rename_success_witness :
  fst (rename family_store "x" "z") = true ∧
  JsObject.get "x" (snd (rename family_store "x" "z")) = None ∧
  JsObject.get "a" (snd (rename family_store "x" "z")) = Some (Alias "z" ∅).
Proof.
  split; [reflexivity|].
  destruct (rename_success family_store "x" "z" eq_refl)
    as (_ & Hkept & _ & Hold & Hother).
  split; [exact Hold|].
  destruct (Hother "a") as [_ Ha]; [discriminate|discriminate|].
  rewrite Ha; [reflexivity|]. intros [[e He] _]. discriminate He.
Defined.

Lemma rename_keeps_resolution_witness :
  fst (rename family_store "x" "y") = true ∧
  resolve (snd (rename family_store "x" "y")) "y" = resolve family_store "x" ∧
  resolve (snd (rename family_store "x" "y")) "x" = None.
Proof.
  split; [reflexivity|].
  destruct (rename_keeps_resolution family_store "x" "y" eq_refl) as (Hnew & Hold & _).
  split; [exact Hnew|exact Hold].
Defined.

Lemma resolve_through_parent_witness :
  JsObject.get "v" flipped_store = Some (Variation "x" {[ "hFlip" := VBool false ]} ∅) ∧
  ∃ r rp, resolve flipped_store "v" = Some r ∧
          resolve flipped_store "x" = Some rp ∧
          r = mkResolved (r_body rp)
                (merge_props {[ "hFlip" := VBool false ]} (r_props rp)).
Proof.
  split; [reflexivity|].
  destruct (resolve flipped_store "v") as [r|] eqn:Hr;
    [|vm_compute in Hr; discriminate Hr].
  destruct (proj1 (resolve_through_parent flipped_store "v" _ "x" eq_refl eq_refl) r Hr)
    as (rp & Hrp & Heq).
  exists r, rp. split; [reflexivity|]. split; [exact Hrp|exact Heq].
Defined.

Lemma toggleCharacter_undo_witness :
  fst (toggleCharacter icon_x_store "x" "e001" true) = true ∧
  toggleCharacter (snd (toggleCharacter icon_x_store "x" "e001" true)) "x" "e001" false
    = (true, icon_x_store).
Proof.
  split; [reflexivity|].
  exact (toggleCharacter_undo icon_x_store "x" "e001" true eq_refl).
Defined.

Lemma load_entries_witness :
  JsObject.wf (j_icons lettered_doc) ∧
  ∀ fp dd dc,
    resolve (entries (load fp dd dc lettered_doc)) "home" =
      Some (mkResolved "<g/>" (fp (∅ ∪ fp ∅ dd true) dc true)).
Proof.
  assert (Hwf : JsObject.wf (j_icons lettered_doc))
    by (apply (bool_decide_unpack _); vm_compute; exact I).
  split; [exact Hwf|]. intros fp dd dc.
  exact (proj2 (load_entries fp dd dc lettered_doc "home" Hwf) _ eq_refl).
Defined.

Lemma load_chars_round_trip_witness :
  JsObject.wf (default [] (j_chars lettered_doc)) ∧
  ∀ fp dd dc,
    ∃ m, chars (entries (load fp dd dc lettered_doc)) None = Returned m ∧
         ∀ c n, m !! c = Some n ↔
                JsObject.get c (default [] (j_chars lettered_doc)) = Some n ∧
                is_Some (JsObject.get n (entries (load fp dd dc lettered_doc))).
Proof.
  assert (Hwf : JsObject.wf (default [] (j_chars lettered_doc)))
    by (apply (bool_decide_unpack _); vm_compute; exact I).
  split; [exact Hwf|]. intros fp dd dc.
  exact (load_chars_round_trip fp dd dc lettered_doc Hwf).
Defined.

Lemma toggleCategory_undo_witness :
  fst (toggleCategory one_icon_set "home" "New" true) = true ∧
  toggleCategory (snd (toggleCategory one_icon_set "home" "New" true))
                 "home" "New" false
    = (true, snd (findCategory one_icon_set "New" true)).
Proof.
  assert (Hok : fst (toggleCategory one_icon_set "home" "New" true) = true)
    by (vm_compute; reflexivity).
  split; [exact Hok|].
  exact (toggleCategory_undo one_icon_set "home" "New" true Hok).
Defined.

Lemma checkTheme_shares_count_witness :
  JsObject.wf (prefixes themed_set) ∧
  count_icons (entries themed_set) =
    (length (invalid (checkTheme compare_codes themed_set true)) +
     sum_list_with
       (fun k => length (default [] (valid (checkTheme compare_codes themed_set true) !! k)))
       (JsObject.keys (prefixes themed_set)))%nat.
Proof.
  assert (Hwf : JsObject.wf (prefixes themed_set))
    by (apply (bool_decide_unpack _); vm_compute; exact I).
  split; [exact Hwf|].
  exact (checkTheme_shares_count compare_codes themed_set true Hwf).
Defined.

Lemma remove_cascade_keeps_resolution_witness :
  fst (remove family_store "a" (RDBool true)) ≠ 0%nat ∧
  ¬ depends_on family_store "y" "a" ∧
  resolve (snd (remove family_store "a" (RDBool true))) "y" = resolve family_store "y".
Proof.
  assert (Hok : fst (remove family_store "a" (RDBool true)) ≠ 0%nat)
    by (vm_compute; discriminate).
  assert (Hdep : ¬ depends_on family_store "y" "a").
  { intros [[|d] H]; vm_compute in H; discriminate H. }
  split; [exact Hok|]. split; [exact Hdep|].
  exact (remove_cascade_keeps_resolution family_store "a" "y" Hok Hdep).
Defined.

Lemma toggleCategory_count_witness :
  fst (toggleCategory one_icon_set "home" "New" true) = true ∧
  ∃ c', heap (snd (toggleCategory one_icon_set "home" "New" true)) !! 0%nat = Some c' ∧
        count c' = 1%Z.
Proof.
  assert (Hok : fst (toggleCategory one_icon_set "home" "New" true) = true)
    by (vm_compute; reflexivity).
  split; [exact Hok|].
  destruct (toggleCategory_count one_icon_set "home" "New" true Hok)
    as (a & c & c' & body & ps & cs & cats & Ha & Hc & Hc' & _ & Hcount & _).
  vm_compute in Ha. injection Ha as <-.
  vm_compute in Hc. injection Hc as <-.
  exists c'. split; [exact Hc'|]. cbn [count] in Hcount. lia.
Defined.

Lemma toggleCharacter_then_chars_witness :
  fst (toggleCharacter icon_x_store "x" "e001" true) = true ∧
  ∃ m, chars (snd (toggleCharacter icon_x_store "x" "e001" true)) (Some [ "x" ])
         = Returned m ∧
       m !! "e001" = Some "x".
Proof.
  split; [reflexivity|].
  exact (toggleCharacter_then_chars icon_x_store "x" "e001" true eq_refl).
Defined.
